(** * Accessibility HTML repair engine: a shallow embedding

    Source: [server/accessibility-engine.ts] (function [repairHtml] and its
    helpers) and the shared schema ([AccessibilityIssue], [RepairResult]).

    The engine is a pipeline of regular-expression passes over a JavaScript
    string.  The embedding keeps that shape:

    - a JavaScript string is its sequence of UTF-16 code units ([str]);
    - a regular expression is a term of [regex], run by a backtracking
      matcher with the priorities of the ECMAScript semantics (ordered
      alternation, greedy and lazy repetition, captures, [\b], [^], [$]);
    - [String.prototype.replace], [match], [test] and the [exec] loops are
      built on that matcher;
    - the configuration is an arbitrary JSON value ([config?: any]), read with
      optional chaining, truthiness and the string coercions of the language;
      an operation that raises [TypeError] in the source returns [Throw];
    - the issue ledger is threaded as state through the passes. *)

From Stdlib Require Import Ascii String NArith ZArith QArith Lia.
From stdpp Require Import base option list gmap sets.

Set Default Proof Using "Type".
Set Warnings "-register-all".
Local Close Scope Q_scope.
Local Open Scope list_scope.
Local Open Scope nat_scope.

(** ** Strings as UTF-16 code units *)

Definition char := N.
Definition str := list char.

(** Decoding of the UTF-8 bytes of a literal into UTF-16 code units, so that
    the literals of the source can be written as they are. *)
Fixpoint utf8_to_utf16 (bs : list N) : str :=
  match bs with
  | [] => []
  | b :: r =>
      if (b <? 128)%N then b :: utf8_to_utf16 r
      else if (b <? 224)%N then
        match r with
        | b1 :: r' => ((b - 192) * 64 + (b1 - 128))%N :: utf8_to_utf16 r'
        | _ => []
        end
      else if (b <? 240)%N then
        match r with
        | b1 :: b2 :: r' =>
            ((b - 224) * 4096 + (b1 - 128) * 64 + (b2 - 128))%N :: utf8_to_utf16 r'
        | _ => []
        end
      else
        match r with
        | b1 :: b2 :: b3 :: r' =>
            let cp := ((b - 240) * 262144 + (b1 - 128) * 4096
                       + (b2 - 128) * 64 + (b3 - 128))%N in
            let v := (cp - 65536)%N in
            (55296 + v / 1024)%N :: (56320 + v mod 1024)%N :: utf8_to_utf16 r'
        | _ => []
        end
  end.

Fixpoint bytes_of (s : string) : list N :=
  match s with
  | EmptyString => []
  | String a r => N_of_ascii a :: bytes_of r
  end.

Definition s16 (s : string) : str := utf8_to_utf16 (bytes_of s).

Definition dq : char := 34%N.   (* the double quote *)
Definition sq : char := 39%N.   (* the single quote *)
Definition nl : char := 10%N.   (* line feed *)

Definition str_eqb (a b : str) : bool := bool_decide (a = b).

(** [s.slice(a, b)] for [0 <= a], [0 <= b]. *)
Definition slice (a b : nat) (s : str) : str := take (b - a) (drop a s).

(** WhiteSpace and LineTerminator code units: the class [\s] and what
    [String.prototype.trim] removes. *)
Definition isSpace (c : char) : bool :=
  ((9 <=? c) && (c <=? 13) || (c =? 32) || (c =? 160) || (c =? 5760)
   || (8192 <=? c) && (c <=? 8202) || (c =? 8232) || (c =? 8233)
   || (c =? 8239) || (c =? 8287) || (c =? 12288) || (c =? 65279))%N.

Definition isDigit (c : char) : bool := ((48 <=? c) && (c <=? 57))%N.

(** Word characters of [\b] (no unicode flag): [A-Za-z0-9_]. *)
Definition isWordChar (c : char) : bool :=
  ((65 <=? c) && (c <=? 90) || (97 <=? c) && (c <=? 122)
   || (48 <=? c) && (c <=? 57) || (c =? 95))%N.

Fixpoint trimStart (s : str) : str :=
  match s with
  | c :: r => if isSpace c then trimStart r else s
  | [] => []
  end.

Definition trimEnd (s : str) : str := rev (trimStart (rev s)).

Definition trim (s : str) : str := trimEnd (trimStart s).

Fixpoint startsWith (p s : str) : bool :=
  match p, s with
  | [], _ => true
  | a :: p', b :: s' => (a =? b)%N && startsWith p' s'
  | _ :: _, [] => false
  end.

(** [s.indexOf(p)]: offset of the first occurrence, scanning from [i]. *)
Fixpoint indexOf_from (p s : str) (i : nat) : option nat :=
  if startsWith p s then Some i
  else match s with
       | [] => None
       | _ :: s' => indexOf_from p s' (S i)
       end.

Definition indexOf (p s : str) : option nat := indexOf_from p s 0.

Definition includes (p s : str) : bool := bool_decide (is_Some (indexOf p s)).

(** [s.split(sep)] for a one-unit separator. *)
Fixpoint split_on (sep : char) (s : str) : list str :=
  match s with
  | [] => [[]]
  | c :: r =>
      if (c =? sep)%N then [] :: split_on sep r
      else match split_on sep r with
           | p :: ps => (c :: p) :: ps
           | [] => [[c]]
           end
  end.

(** [xs.join(sep)]. *)
Fixpoint join (sep : str) (xs : list str) : str :=
  match xs with
  | [] => []
  | [x] => x
  | x :: r => x ++ sep ++ join sep r
  end.

(** ** Regular expressions *)

(** Items of a character class. *)
Inductive citem :=
| IChr (c : char)          (* a literal unit *)
| IDigit                   (* \d *)
| ISpace                   (* \s *)
| INSpace.                 (* \S *)

(** [negated?, items]: [[...]] or [[^...]]. *)
Record cls := Cls { cls_neg : bool; cls_items : list citem }.

(** Every quantifier of the engine's patterns applies to one character
    class, so repetition is over a class. *)
Inductive regex :=
| Eps
| Set_ (c : cls)
| Seq (r1 r2 : regex)
| Alt (r1 r2 : regex)
| Star (greedy : bool) (c : cls)      (* c* and c*? *)
| Grp (i : nat) (r : regex)           (* capture group number i *)
| Bol                                 (* ^ *)
| Eol                                 (* $ *)
| WordB.                              (* \b *)

(** Canonicalisation of the [i] flag.  All cased characters of the engine's
    patterns are ASCII letters, and without the unicode flag a non-ASCII
    unit never canonicalises to an ASCII one, so folding [a-z] onto [A-Z]
    is the whole of it. *)
Definition canon (c : char) : char :=
  if ((97 <=? c) && (c <=? 122))%N then (c - 32)%N else c.

Definition item_mem (ic : bool) (c : char) (it : citem) : bool :=
  match it with
  | IChr a => if ic then (canon a =? canon c)%N else (a =? c)%N
  | IDigit => isDigit c
  | ISpace => isSpace c
  | INSpace => negb (isSpace c)
  end.

Definition cls_mem (ic : bool) (k : cls) (c : char) : bool :=
  xorb (cls_neg k) (existsb (item_mem ic c) (cls_items k)).

(** State of the matcher: the unit before the cursor, the units after it,
    the cursor offset, and the spans captured so far. *)
Record mstate := MState {
  ms_prev : option char;
  ms_rest : str;
  ms_pos : nat;
  ms_caps : gmap nat (nat * nat)
}.

Definition advance (c : char) (r : str) (x : mstate) : mstate :=
  MState (Some c) r (S (ms_pos x)) (ms_caps x).

Definition orElse {A} (a b : option A) : option A :=
  match a with Some _ => a | None => b end.

Definition wordAt (o : option char) : bool :=
  match o with Some c => isWordChar c | None => false end.

(** Repetition of a class: greedy takes a unit first and falls back to the
    continuation, lazy tries the continuation first. *)
Fixpoint star_loop (ic greedy : bool) (k : cls) (cont : mstate -> option mstate)
    (rest : str) (x : mstate) : option mstate :=
  match rest with
  | [] => cont x
  | c :: r =>
      if cls_mem ic k c then
        if greedy
        then orElse (star_loop ic greedy k cont r (advance c r x)) (cont x)
        else orElse (cont x) (star_loop ic greedy k cont r (advance c r x))
      else cont x
  end.

(** The backtracking matcher, in continuation-passing style. *)
Fixpoint rmatch (ic : bool) (r : regex) (cont : mstate -> option mstate)
    (x : mstate) : option mstate :=
  match r with
  | Eps => cont x
  | Set_ k =>
      match ms_rest x with
      | c :: rest => if cls_mem ic k c then cont (advance c rest x) else None
      | [] => None
      end
  | Seq r1 r2 => rmatch ic r1 (rmatch ic r2 cont) x
  | Alt r1 r2 => orElse (rmatch ic r1 cont x) (rmatch ic r2 cont x)
  | Star g k => star_loop ic g k cont (ms_rest x) x
  | Grp i r1 =>
      rmatch ic r1
        (fun y => cont (MState (ms_prev y) (ms_rest y) (ms_pos y)
                          (<[i := (ms_pos x, ms_pos y)]> (ms_caps y)))) x
  | Bol => match ms_prev x with None => cont x | Some _ => None end
  | Eol => match ms_rest x with [] => cont x | _ :: _ => None end
  | WordB =>
      if xorb (wordAt (ms_prev x)) (wordAt (head (ms_rest x)))
      then cont x else None
  end.

(** A compiled pattern: the [i] flag and the term. *)
Record pattern := Pat { pat_icase : bool; pat_re : regex }.

(** A match: its span in the subject and its captures. *)
Record mres := MRes {
  m_start : nat;
  m_end : nat;
  m_caps : gmap nat (nat * nat)
}.

Definition mtext (s : str) (m : mres) : str := slice (m_start m) (m_end m) s.

(** [m[i]]: the text of group [i], [None] when the group did not take part. *)
Definition mgroup (s : str) (m : mres) (i : nat) : option str :=
  (fun ab => slice (fst ab) (snd ab) s) <$> (m_caps m !! i).

(** Leftmost match at or after the cursor. *)
Fixpoint search (p : pattern) (prev : option char) (rest : str) (pos : nat)
    : option mres :=
  match rmatch (pat_icase p) (pat_re p) Some (MState prev rest pos ∅) with
  | Some y => Some (MRes pos (ms_pos y) (ms_caps y))
  | None =>
      match rest with
      | [] => None
      | c :: rest' => search p (Some c) rest' (S pos)
      end
  end.

(** [re.exec(s)] with [lastIndex = from]. *)
Definition exec (p : pattern) (s : str) (from : nat) : option mres :=
  if decide (from <= length s)
  then search p (last (take from s)) (drop from s) from
  else None.

(** [re.test(s)] and [s.match(re)] for a pattern without the [g] flag. *)
Definition test (p : pattern) (s : str) : bool :=
  bool_decide (is_Some (exec p s 0)).

Definition match_ (p : pattern) (s : str) : option mres := exec p s 0.

(** The successive matches of a global replace: after an empty match the
    scan resumes one unit further. *)
Fixpoint matches_from (fuel : nat) (p : pattern) (s : str) (from : nat)
    : list mres :=
  match fuel with
  | 0 => []
  | S n =>
      match exec p s from with
      | None => []
      | Some m =>
          m :: matches_from n p s
                 (if decide (m_end m = m_start m) then S (m_end m) else m_end m)
      end
  end.

Definition matches (p : pattern) (s : str) : list mres :=
  matches_from (S (length s)) p s 0.

(** The result of a replace: the text outside the matches is kept, each
    match is replaced by its replacement. *)
Fixpoint splice (s : str) (cur : nat) (ms : list (mres * str)) : str :=
  match ms with
  | [] => drop cur s
  | (m, r) :: ms' => slice cur (m_start m) s ++ r ++ splice s (m_end m) ms'
  end.

(** [GetSubstitution] for a pattern without capture groups: in a replacement
    string, [$$] is a dollar, [$&] the match, [$`] the text before it and
    [$'] the text after it; any other dollar is kept. *)
Fixpoint getSubstitution (matched before after repl : str) : str :=
  match repl with
  | [] => []
  | c :: r =>
      if (c =? 36)%N then
        match r with
        | d :: r' =>
            if (d =? 36)%N then 36%N :: getSubstitution matched before after r'
            else if (d =? 38)%N then matched ++ getSubstitution matched before after r'
            else if (d =? 96)%N then before ++ getSubstitution matched before after r'
            else if (d =? 39)%N then after ++ getSubstitution matched before after r'
            else c :: getSubstitution matched before after r
        | [] => [c]
        end
      else c :: getSubstitution matched before after r
  end.

Definition substFor (s : str) (m : mres) (repl : str) : str :=
  getSubstitution (mtext s m) (take (m_start m) s) (drop (m_end m) s) repl.

(** [s.replace(re, fn)] for a pattern with the [g] flag. *)
Definition replaceAllFn (p : pattern) (f : mres -> str) (s : str) : str :=
  splice s 0 (map (fun m => (m, f m)) (matches p s)).

(** [s.replace(re, fn)] for a pattern without the [g] flag. *)
Definition replaceFirstFn (p : pattern) (f : mres -> str) (s : str) : str :=
  match match_ p s with
  | None => s
  | Some m => splice s 0 [(m, f m)]
  end.

(** [s.replace(re, repl)] with a replacement string, for patterns without
    capture groups (or replacements without a dollar). *)
Definition replaceAllStr (p : pattern) (repl : str) (s : str) : str :=
  replaceAllFn p (fun m => substFor s m repl) s.

Definition replaceFirstStr (p : pattern) (repl : str) (s : str) : str :=
  replaceFirstFn p (fun m => substFor s m repl) s.

(** [s.replace(pat, repl)] with a string pattern: the first occurrence. *)
Definition replaceText (pat repl : str) (s : str) : str :=
  match indexOf pat s with
  | None => s
  | Some i =>
      let e := i + length pat in
      take i s ++ getSubstitution pat (take i s) (drop e s) repl ++ drop e s
  end.

(** *** Pattern combinators *)

Definition chr (c : char) : regex := Set_ (Cls false [IChr c]).

Definition lit (s : string) : regex :=
  foldr (fun c r => Seq (chr c) r) Eps (s16 s).

Definition neg (cs : list char) : cls := Cls true (map IChr cs).
Definition oneOf (cs : list char) : cls := Cls false (map IChr cs).
Definition space : cls := Cls false [ISpace].
Definition anyUnit : cls := Cls false [ISpace; INSpace].      (* [\s\S] *)
Definition notSpaceGt : cls := Cls true [ISpace; IChr 62%N].  (* [^\s>] *)
Definition digitDot : cls := Cls false [IDigit; IChr 46%N].   (* [\d.] *)
Definition notGt : cls := neg [62%N].                         (* [^>] *)

Definition plus (k : cls) : regex := Seq (Set_ k) (Star true k).

Declare Scope re_scope.
Delimit Scope re_scope with re.
Infix "⋅" := Seq (at level 41, right associativity) : re_scope.
Infix "∣" := Alt (at level 42, right associativity) : re_scope.
Bind Scope re_scope with regex.

(** ** Results, exceptions and state *)

(** Outcome of a computation: a value, a raised [TypeError] (the only
    exception the engine can raise), or a loop that did not finish within
    its fuel. *)
Inductive Res (A : Type) :=
| Ok (a : A)
| Throw
| NoFuel.
Arguments Ok {A} a.
Arguments Throw {A}.
Arguments NoFuel {A}.

Definition M (S A : Type) : Type := S -> Res (A * S).

Definition ret {S A} (a : A) : M S A := fun st => Ok (a, st).

Definition bind {S A B} (m : M S A) (f : A -> M S B) : M S B :=
  fun st => match m st with
            | Ok (a, st') => f a st'
            | Throw => Throw
            | NoFuel => NoFuel
            end.

Definition lift {S A} (r : Res A) : M S A :=
  fun st => match r with
            | Ok a => Ok (a, st)
            | Throw => Throw
            | NoFuel => NoFuel
            end.

Definition rbind {A B} (r : Res A) (f : A -> Res B) : Res B :=
  match r with Ok a => f a | Throw => Throw | NoFuel => NoFuel end.

Definition put {S} (st : S) : M S unit := fun _ => Ok (tt, st).

Declare Scope js_scope.
Delimit Scope js_scope with js.
Notation "x <- m ;; k" := (bind m (fun x => k))
  (at level 100, m at next level, k at level 200, right associativity) : js_scope.
Notation "x <~ r ;; k" := (rbind r (fun x => k))
  (at level 100, r at next level, k at level 200, right associativity) : js_scope.
Local Open Scope js_scope.

Fixpoint mapM {S A B} (f : A -> M S B) (l : list A) : M S (list B) :=
  match l with
  | [] => ret []
  | a :: l' => b <- f a ;; bs <- mapM f l' ;; ret (b :: bs)
  end.

(** [s.replace(re, fn)] where the callback has effects: the callback runs
    on the successive matches, in order. *)
Definition replaceAllM {S} (p : pattern) (f : mres -> M S str) (s : str)
    : M S str :=
  ms <- mapM (fun m => r <- f m ;; ret (m, r)) (matches p s) ;;
  ret (splice s 0 ms).

Definition replaceFirstM {S} (p : pattern) (f : mres -> M S str) (s : str)
    : M S str :=
  match match_ p s with
  | None => ret s
  | Some m => r <- f m ;; ret (splice s 0 [(m, r)])
  end.

(** [while ((m = re.exec(s)) !== null) body]: the successive results of
    [exec] on a pattern with the [g] flag, [lastIndex] being the end of the
    previous match.  [None] when the fuel runs out. *)
Fixpoint execAll (fuel : nat) (p : pattern) (s : str) (lastIndex : nat)
    : option (list mres) :=
  match fuel with
  | 0 => None
  | S n =>
      match exec p s lastIndex with
      | None => Some []
      | Some m => cons m <$> execAll n p s (m_end m)
      end
  end.

(** ** The numbers and case mappings of the host language

    IEEE-754 arithmetic, the printing and parsing of numbers and the Unicode
    lower-case mapping are those of the JavaScript engine.  They are taken
    as an interface; everything below holds for any implementation of it. *)
Record JsEnv := {
  num : Type;
  numNaN : num;
  numOfNat : nat -> num;
  parseFloat : str -> num;             (* parseFloat(s) *)
  stringToNumber : str -> num;         (* Number(s) *)
  numToString : num -> str;            (* String(n) *)
  numTruthy : num -> bool;             (* !!n *)
  roundedQuot : num -> num -> str;     (* (Math.round(a / b * 10000) / 10000).toString() *)
  rounded : num -> str;                (* (Math.round(a * 10000) / 10000).toString() *)
  toLowerCase : str -> str             (* s.toLowerCase() *)
}.

Inductive Level := A | AA | AAA.

(** [AccessibilityIssue] of the shared schema. *)
Record AccessibilityIssue := {
  ruleId : str;
  wcagCode : str;
  taiwanCode : str;
  level : Level;
  message : str;
  line : nat;
  column : nat;
  startOffset : nat;
  endOffset : nat;
  originalSnippet : str;
  fixedSnippet : option str;
  autoFixed : bool;
  needsManualReview : bool;
  suggestion : option str
}.

Record Summary := {
  totalIssues : nat;
  sum_autoFixed : nat;
  sum_needsManualReview : nat
}.

(** [RepairResult] of the shared schema. *)
Record RepairResult := {
  originalHtml : str;
  repairedHtml : str;
  issues : list AccessibilityIssue;
  summary : Summary
}.

(** The argument of [createIssue]: an issue without its location. *)
Record IssueInit := {
  i_ruleId : str;
  i_wcagCode : str;
  i_taiwanCode : str;
  i_level : Level;
  i_message : str;
  i_originalSnippet : str;
  i_fixedSnippet : option str;
  i_autoFixed : bool;
  i_needsManualReview : bool;
  i_suggestion : option str
}.

Definition createIssue (p : IssueInit) : AccessibilityIssue :=
  {| ruleId := i_ruleId p; wcagCode := i_wcagCode p;
     taiwanCode := i_taiwanCode p; level := i_level p;
     message := i_message p;
     line := 0; column := 0; startOffset := 0; endOffset := 0;
     originalSnippet := i_originalSnippet p;
     fixedSnippet := i_fixedSnippet p;
     autoFixed := i_autoFixed p;
     needsManualReview := i_needsManualReview p;
     suggestion := i_suggestion p |}.

(** [issues.push(i)] *)
Definition push (i : AccessibilityIssue) : M (list AccessibilityIssue) unit :=
  fun st => Ok (tt, st ++ [i]).

(** ** Patterns of the engine

    Each pattern is given with its source text; there [\x22] is written for
    the double quote and a space separates a star from a closing parenthesis. *)

Definition eq_ : char := 61%N.   (* the equals sign *)

Definition litS (s : str) : regex := foldr (fun c r => Seq (chr c) r) Eps s.

Section Patterns.
Local Open Scope re_scope.

(** [/<!--[\s\S]*?-->/g] *)
Definition re_comment : pattern :=
  Pat false (lit "<!--" ⋅ Star false anyUnit ⋅ lit "-->").
(** [/<script[\s\S]*?<\/script>/gi] *)
Definition re_script : pattern :=
  Pat true (lit "<script" ⋅ Star false anyUnit ⋅ lit "</script>").
(** [/<style[\s\S]*?<\/style>/gi] *)
Definition re_styleElem : pattern :=
  Pat true (lit "<style" ⋅ Star false anyUnit ⋅ lit "</style>").
(** [/<[^>]+>/g] *)
Definition re_anyTag : pattern := Pat false (lit "<" ⋅ plus notGt ⋅ lit ">").
(** [/&nbsp;/gi] *)
Definition re_nbsp : pattern := Pat true (lit "&nbsp;").
(** [/\s+/g] *)
Definition re_spaces : pattern := Pat false (plus space).

(** [/([\d.]+)\s*px\b/gi], and the same for [pt] and [rem] *)
Definition re_unit (u : string) : pattern :=
  Pat true (Grp 1 (plus digitDot) ⋅ Star true space ⋅ lit u ⋅ WordB).

(** A name that stands for itself when it is interpolated into the source
    of a pattern: ASCII letters, digits, underscores and hyphens only.  Any
    other unit may be read as pattern syntax by [new RegExp], or, being a
    cased letter outside ASCII, match more than itself under the [i]
    flag. *)
Definition plainName (attrName : string) : bool :=
  forallb (fun c => isWordChar c || (c =? 45)%N) (s16 attrName).

(** The attribute names the engine passes ([title], [alt], [scope], [style],
    [target], [type], [id], [aria-label], [aria-labelledby]) have no
    character that is special in a pattern, so a name stands for itself.
    [re_attrSet] and [re_attrGet] take the name as a literal: they are the
    patterns of the source for a [plainName], and for no other name; a
    statement about an arbitrary name assumes [plainName].

    The value of an attribute:
    [(\x22([^\x22]* )\x22|'([^']* )'|[^\s>]+)], the last alternative being group 4
    in [getAttr]. *)
Definition re_attrValue (unquoted : regex) : regex :=
  Grp 1 ((chr dq ⋅ Grp 2 (Star true (neg [dq])) ⋅ chr dq)
         ∣ (chr sq ⋅ Grp 3 (Star true (neg [sq])) ⋅ chr sq)
         ∣ unquoted).

(** [new RegExp(`\\s${attrName}\\s*=\\s*(\x22([^\x22]* )\x22|'([^']* )'|[^\\s>]+)`, \x22i\x22)] *)
Definition re_attrSet (attrName : str) : pattern :=
  Pat true (Set_ space ⋅ litS attrName ⋅ Star true space ⋅ chr eq_
            ⋅ Star true space ⋅ re_attrValue (plus notSpaceGt)).

(** [new RegExp(`\\s${attrName}\\s*=\\s*(\x22([^\x22]* )\x22|'([^']* )'|([^\\s>]+))`, \x22i\x22)] *)
Definition re_attrGet (attrName : str) : pattern :=
  Pat true (Set_ space ⋅ litS attrName ⋅ Star true space ⋅ chr eq_
            ⋅ Star true space ⋅ re_attrValue (Grp 4 (plus notSpaceGt))).

(** [/^[\x22']|[\x22']$/g] *)
Definition re_quotes : pattern :=
  Pat false ((Bol ⋅ Set_ (oneOf [dq; sq])) ∣ (Set_ (oneOf [dq; sq]) ⋅ Eol)).
(** [/>$/] *)
Definition re_gtEnd : pattern := Pat false (lit ">" ⋅ Eol).

(** [/<(iframe|frame)\b[^>]*>/gi] *)
Definition re_frame : pattern :=
  Pat true (lit "<" ⋅ Grp 1 (lit "iframe" ∣ lit "frame") ⋅ WordB
            ⋅ Star true notGt ⋅ lit ">").

(** [/<img\b[^>]*>/gi] (and [/i]), likewise [a], [td], [th] *)
Definition re_startTag (name : string) : pattern :=
  Pat true (lit "<" ⋅ lit name ⋅ WordB ⋅ Star true notGt ⋅ lit ">").

(** [/<a\b[^>]*>[\s\S]*?<\/a>/gi], likewise [tr] and [td] *)
Definition re_element (name : string) : pattern :=
  Pat true (lit "<" ⋅ lit name ⋅ WordB ⋅ Star true notGt ⋅ lit ">"
            ⋅ Star false anyUnit ⋅ lit "</" ⋅ lit name ⋅ lit ">").

(** [/<\/a>/i], likewise [td] *)
Definition re_endTag (name : string) : pattern :=
  Pat true (lit "</" ⋅ lit name ⋅ lit ">").

(** [/<a\b[^>]*\bhref\s*=/i] *)
Definition re_aHref : pattern :=
  Pat true (lit "<a" ⋅ WordB ⋅ Star true notGt ⋅ WordB ⋅ lit "href"
            ⋅ Star true space ⋅ lit "=").

(** [/\{text\}/g] *)
Definition re_textSlot : pattern := Pat false (lit "{text}").

(** [/新視窗|新窗口|另開|另開視窗|new window/i] *)
Definition re_newWindow : pattern :=
  Pat true (lit "新視窗" ∣ lit "新窗口" ∣ lit "另開" ∣ lit "另開視窗"
            ∣ lit "new window").

(** [/^<td\b/i] *)
Definition re_tdHead : pattern := Pat true (Bol ⋅ lit "<td" ⋅ WordB).

(** [/\bstyle\s*=\s*(\x22([^\x22]* )\x22|'([^']* )')/gi] *)
Definition re_styleAttr : pattern :=
  Pat true (WordB ⋅ lit "style" ⋅ Star true space ⋅ lit "=" ⋅ Star true space
            ⋅ Grp 1 ((chr dq ⋅ Grp 2 (Star true (neg [dq])) ⋅ chr dq)
                     ∣ (chr sq ⋅ Grp 3 (Star true (neg [sq])) ⋅ chr sq))).

(** [/<style\b[^>]*>([\s\S]*?)<\/style>/gi] *)
Definition re_styleBlock : pattern :=
  Pat true (lit "<style" ⋅ WordB ⋅ Star true notGt ⋅ lit ">"
            ⋅ Grp 1 (Star false anyUnit) ⋅ lit "</style>").

(** [/font-size\s*:\s*([\d.]+)\s*px\s*;/gi], and the same for [pt], [rem] *)
Definition re_fontSize (u : string) : pattern :=
  Pat true (lit "font-size" ⋅ Star true space ⋅ lit ":" ⋅ Star true space
            ⋅ Grp 1 (plus digitDot) ⋅ Star true space ⋅ lit u
            ⋅ Star true space ⋅ lit ";").

(** [/<label\b[^>]*\bfor\s*=\s*(\x22([^\x22\n]+)\x22|'([^'\n]+)'|([^\s>]+))/gi] *)
Definition re_labelFor : pattern :=
  Pat true (lit "<label" ⋅ WordB ⋅ Star true notGt ⋅ WordB ⋅ lit "for"
            ⋅ Star true space ⋅ lit "=" ⋅ Star true space
            ⋅ Grp 1 ((chr dq ⋅ Grp 2 (plus (neg [dq; nl])) ⋅ chr dq)
                     ∣ (chr sq ⋅ Grp 3 (plus (neg [sq; nl])) ⋅ chr sq)
                     ∣ Grp 4 (plus notSpaceGt))).

(** [/<(input|select|textarea)\b[^>]*>/gi] *)
Definition re_control : pattern :=
  Pat true (lit "<" ⋅ Grp 1 (lit "input" ∣ lit "select" ∣ lit "textarea")
            ⋅ WordB ⋅ Star true notGt ⋅ lit ">").

(** [/<(nav|header)\b/i] and [/<main\b/i] *)
Definition re_navHeader : pattern :=
  Pat true (lit "<" ⋅ Grp 1 (lit "nav" ∣ lit "header") ⋅ WordB).
Definition re_main : pattern := Pat true (lit "<main" ⋅ WordB).

(** [\x22#main\x22|'#main'|\x22#content\x22|'#content'|\x22#main-content\x22|'#main-content'] *)
Definition re_mainTargets : regex :=
  (chr dq ⋅ lit "#main" ⋅ chr dq) ∣ (chr sq ⋅ lit "#main" ⋅ chr sq)
  ∣ (chr dq ⋅ lit "#content" ⋅ chr dq) ∣ (chr sq ⋅ lit "#content" ⋅ chr sq)
  ∣ (chr dq ⋅ lit "#main-content" ⋅ chr dq)
  ∣ (chr sq ⋅ lit "#main-content" ⋅ chr sq).

(** [/<a\b[^>]*\bhref\s*=\s*(\x22#main\x22|...|'#main-content'|[^\s>]+)\b[^>]*>\s*(跳到主要內容|跳至主要內容|Skip to main|skip to main|skip)\s*<\/a>/i] *)
Definition re_skipAnchor : pattern :=
  Pat true (lit "<a" ⋅ WordB ⋅ Star true notGt ⋅ WordB ⋅ lit "href"
            ⋅ Star true space ⋅ lit "=" ⋅ Star true space
            ⋅ Grp 1 (re_mainTargets ∣ plus notSpaceGt) ⋅ WordB
            ⋅ Star true notGt ⋅ lit ">" ⋅ Star true space
            ⋅ Grp 2 (lit "跳到主要內容" ∣ lit "跳至主要內容" ∣ lit "Skip to main"
                     ∣ lit "skip to main" ∣ lit "skip")
            ⋅ Star true space ⋅ lit "</a>").

(** [/<a\b[^>]*\bhref\s*=\s*(\x22#main\x22|...|'#main-content')/i] *)
Definition re_skipHref : pattern :=
  Pat true (lit "<a" ⋅ WordB ⋅ Star true notGt ⋅ WordB ⋅ lit "href"
            ⋅ Star true space ⋅ lit "=" ⋅ Star true space
            ⋅ Grp 1 re_mainTargets).

(** [/style\s*=\s*(\x22[^\x22]*\bcolor\s*:\s*[^;\x22]+[^\x22]*\x22|'[^']*\bcolor\s*:\s*[^;']+[^']*')/gi] *)
Definition re_colorStyle : pattern :=
  Pat true (lit "style" ⋅ Star true space ⋅ lit "=" ⋅ Star true space
            ⋅ Grp 1 ((chr dq ⋅ Star true (neg [dq]) ⋅ WordB ⋅ lit "color"
                      ⋅ Star true space ⋅ lit ":" ⋅ Star true space
                      ⋅ plus (neg [59%N; dq]) ⋅ Star true (neg [dq]) ⋅ chr dq)
                     ∣ (chr sq ⋅ Star true (neg [sq]) ⋅ WordB ⋅ lit "color"
                        ⋅ Star true space ⋅ lit ":" ⋅ Star true space
                        ⋅ plus (neg [59%N; sq]) ⋅ Star true (neg [sq]) ⋅ chr sq))).

(** [/background-color\s*:/i] *)
Definition re_background : pattern :=
  Pat true (lit "background-color" ⋅ Star true space ⋅ lit ":").

(** [/<(div|span)\b[^>]*\bonclick\s*=\s*(\x22[^\x22]*\x22|'[^']*'|[^\s>]+)[^>]*>/gi] *)
Definition fakeBtnRe : pattern :=
  Pat true (lit "<" ⋅ Grp 1 (lit "div" ∣ lit "span") ⋅ WordB
            ⋅ Star true notGt ⋅ WordB ⋅ lit "onclick"
            ⋅ Star true space ⋅ lit "=" ⋅ Star true space
            ⋅ Grp 2 ((chr dq ⋅ Star true (neg [dq]) ⋅ chr dq)
                     ∣ (chr sq ⋅ Star true (neg [sq]) ⋅ chr sq)
                     ∣ plus notSpaceGt)
            ⋅ Star true notGt ⋅ lit ">").

(** [/\brole\s*=\s*(\x22button\x22|'button')/i] *)
Definition re_roleButton : pattern :=
  Pat true (WordB ⋅ lit "role" ⋅ Star true space ⋅ lit "=" ⋅ Star true space
            ⋅ Grp 1 ((chr dq ⋅ lit "button" ⋅ chr dq)
                     ∣ (chr sq ⋅ lit "button" ⋅ chr sq))).

(** [/\btabindex\s*=\s*(\x220\x22|'0'|0)\b/i] *)
Definition re_tabindex0 : pattern :=
  Pat true (WordB ⋅ lit "tabindex" ⋅ Star true space ⋅ lit "=" ⋅ Star true space
            ⋅ Grp 1 ((chr dq ⋅ lit "0" ⋅ chr dq) ∣ (chr sq ⋅ lit "0" ⋅ chr sq)
                     ∣ lit "0")
            ⋅ WordB).

End Patterns.

Definition stripTags (html : str) : str :=
  trim
    (replaceAllStr re_spaces (s16 " ")
      (replaceAllStr re_nbsp (s16 " ")
        (replaceAllStr re_anyTag []
          (replaceAllStr re_styleElem []
            (replaceAllStr re_script []
              (replaceAllStr re_comment [] html)))))).

(** ** The engine *)

Section Engine.
Context (E : JsEnv).

(** *** Configuration values

    [config?: any] is whatever [JSON.parse] produced, or [undefined].  An
    object is the list of its own properties; a property is read from its
    first binding. *)
Inductive value :=
| VUndef
| VNull
| VBool (b : bool)
| VNum (n : num E)
| VStr (s : str)
| VArr (l : list value)
| VObj (l : list (str * value)).

Fixpoint assoc (k : str) (l : list (str * value)) : option value :=
  match l with
  | [] => None
  | (k', v) :: l' => if str_eqb k' k then Some v else assoc k l'
  end.

(** [v?.k] and, for a [v] that is neither [null] nor [undefined], [v.k]:
    the properties read by the engine exist on no prototype, so only an
    object can have them. *)
Definition prop (v : value) (k : string) : value :=
  match v with
  | VObj l => default VUndef (assoc (s16 k) l)
  | _ => VUndef
  end.

(** Truthiness. *)
Definition truthy (v : value) : bool :=
  match v with
  | VUndef | VNull => false
  | VBool b => b
  | VNum n => numTruthy E n
  | VStr s => negb (str_eqb s [])
  | VArr _ | VObj _ => true
  end.

Definition nullish (v : value) : bool :=
  match v with VUndef | VNull => true | _ => false end.

(** [a ?? b] and [a || b] *)
Definition orNullish (a b : value) : value := if nullish a then b else a.
Definition orFalsy (a b : value) : value := if truthy a then a else b.

(** [ToString]: string concatenation and template literals.  An object
    made by [JSON.parse] prints as [[object Object]] unless it has an own
    property [toString], which is then not callable and the conversion
    raises; an array joins the strings of its elements. *)
Fixpoint toStringV (v : value) : Res str :=
  match v with
  | VUndef => Ok (s16 "undefined")
  | VNull => Ok (s16 "null")
  | VBool b => Ok (if b then s16 "true" else s16 "false")
  | VNum n => Ok (numToString E n)
  | VStr s => Ok s
  | VArr l =>
      ss <~ (fix elems (l : list value) : Res (list str) :=
               match l with
               | [] => Ok []
               | x :: r =>
                   s <~ (if nullish x then Ok [] else toStringV x) ;;
                   ss <~ elems r ;;
                   Ok (s :: ss)
               end) l ;;
      Ok (join (s16 ",") ss)
  | VObj l =>
      match assoc (s16 "toString") l with
      | Some _ => Throw
      | None => Ok (s16 "[object Object]")
      end
  end.

(** [ToNumber], as applied to the divisor [basePx]. *)
Definition toNumberV (v : value) : Res (num E) :=
  match v with
  | VUndef => Ok (numNaN E)
  | VNull => Ok (numOfNat E 0)
  | VBool b => Ok (numOfNat E (if b then 1 else 0))
  | VNum n => Ok n
  | VStr s => Ok (stringToNumber E s)
  | VArr _ | VObj _ => s <~ toStringV v ;; Ok (stringToNumber E s)
  end.

(** [arr.includes(s)] for a string [s]. *)
Definition arrIncludes (l : list value) (s : str) : bool :=
  existsb (fun v => match v with VStr t => str_eqb t s | _ => false end) l.

Definition ruleEnabled (config : value) (ruleId : str) : bool :=
  let rules := prop config "rules" in
  if negb (truthy rules) then true
  else
    let disabled :=
      match prop rules "disabled" with VArr l => l | _ => [] end in
    if arrIncludes disabled ruleId then false
    else
      match prop rules "enabled" with
      | VArr l => arrIncludes l ruleId
      | _ => true
      end.

(** *** Unit conversion *)

(** A parameter with a default value: the default stands for
    [undefined]. *)
Definition orDefault (v d : value) : value :=
  match v with VUndef => d | _ => v end.

(** [emFromPx(px, basePx = 16)] *)
Definition emFromPx (px : num E) (basePx : value) : Res str :=
  b <~ toNumberV (orDefault basePx (VNum (numOfNat E 16))) ;;
  Ok (roundedQuot E px b ++ s16 "em").

(** [emFromPt(pt, basePt = 12)], always called without [basePt] *)
Definition emFromPt (pt : num E) : str :=
  roundedQuot E pt (numOfNat E 12) ++ s16 "em".

Definition remToEm (n : num E) : str := rounded E n ++ s16 "em".

(** The first capture of a match, as the callbacks of the unit conversions
    receive it. *)
Definition group1 (s : str) (m : mres) : str := default [] (mgroup s m 1).

(** *** Inline styles *)

Record decl := Decl { d_prop : str; d_value : str }.

(** The declarations of an inline style: the parts between semicolons
    that contain a colon. *)
Definition parseDecls (style : str) : list decl :=
  omap (fun part =>
          let p := trim part in
          if str_eqb p [] then None
          else match indexOf (s16 ":") p with
               | None => None
               | Some idx =>
                   Some (Decl (toLowerCase E (trim (take idx p)))
                              (trim (drop (S idx) p)))
               end)
       (split_on 59%N style).

(** The callbacks set [changed]; the state is that flag. *)
Definition setChanged : M bool unit := put true.

Definition convertPx (basePx : value) (v : str) : M bool str :=
  replaceAllM (re_unit "px")
    (fun m => _ <- setChanged ;; lift (emFromPx (parseFloat E (group1 v m)) basePx)) v.

Definition convertPt (v : str) : M bool str :=
  replaceAllM (re_unit "pt")
    (fun m => _ <- setChanged ;; ret (emFromPt (parseFloat E (group1 v m)))) v.

Definition convertRem (v : str) : M bool str :=
  replaceAllM (re_unit "rem")
    (fun m => _ <- setChanged ;; ret (remToEm (parseFloat E (group1 v m)))) v.

Definition convertDecl (basePx removeWidth : value) (d : decl)
    : M bool (option decl) :=
  if truthy removeWidth && str_eqb (d_prop d) (s16 "width")
  then _ <- setChanged ;; ret None
  else
    v <- (if str_eqb (d_prop d) (s16 "font-size")
          then v1 <- convertPx basePx (d_value d) ;;
               v2 <- convertPt v1 ;;
               convertRem v2
          else ret (d_value d)) ;;
    v <- convertPx basePx v ;;
    v <- convertPt v ;;
    ret (Some (Decl (d_prop d) v)).

Definition convertDecls (basePx removeWidth : value) (ds : list decl)
    : M bool (list decl) :=
  os <- mapM (convertDecl basePx removeWidth) ds ;;
  ret (omap id os).

Definition isPaddingSide (d : decl) : bool :=
  startsWith (s16 "padding-") (d_prop d).

Definition padKeys : list str :=
  [s16 "padding-top"; s16 "padding-right"; s16 "padding-bottom";
   s16 "padding-left"].

(** [pad]: the map filled by the loop over the converted declarations. *)
Definition padMap (converted : list decl) : gmap str str :=
  foldl (fun pad d =>
           if isPaddingSide d then <[d_prop d := d_value d]> pad else pad)
        ∅ converted.

(** [padKeys.map(k => pad.get(k)).filter(Boolean)] *)
Definition presentVals (converted : list decl) : list str :=
  omap (fun k => match padMap converted !! k with
                 | Some v => if str_eqb v [] then None else Some v
                 | None => None
                 end) padKeys.

Definition allEqual (vals : list str) : bool :=
  forallb (fun v => str_eqb v (default [] (head vals))) vals.

(** The loop that builds [compressed]; the state is ([inserted],
    [changed]). *)
Fixpoint compressLoop (v0 : str) (ds : list decl) (inserted changed : bool)
    : list decl * bool :=
  match ds with
  | [] => ([], changed)
  | d :: ds' =>
      if isPaddingSide d then
        let '(out, ch) := compressLoop v0 ds' true true in
        (if inserted then out else Decl (s16 "padding") v0 :: out, ch)
      else
        let '(out, ch) := compressLoop v0 ds' inserted changed in
        (d :: out, ch)
  end.

Definition renderDecls (ds : list decl) : str :=
  join (s16 "; ") (map (fun d => d_prop d ++ s16 ":" ++ d_value d) ds).

(** The padding compaction, on the converted declarations. *)
Definition compactPadding (converted : list decl) (changed : bool)
    : list decl * bool :=
  let vals := presentVals converted in
  if decide (3 <= length vals) then
    if allEqual vals
    then compressLoop (default [] (head vals)) converted false changed
    else (converted, changed)
  else (converted, changed).

(** [converted], with the value of [changed] after the conversion, for
    [normalizeInlineStyle(style, basePx = 16, removeWidth = true)]. *)
Definition convertedDecls (style : str) (basePx removeWidth : value)
    : Res (list decl * bool) :=
  convertDecls (orDefault basePx (VNum (numOfNat E 16)))
    (orDefault removeWidth (VBool true)) (parseDecls style) false.

Definition normalizeInlineStyle (style : str) (basePx removeWidth : value)
    : Res (str * bool) :=
  if str_eqb style [] then Ok (style, false)
  else
    match convertedDecls style basePx removeWidth with
    | Ok (converted, changed) =>
        let '(ds, changed') := compactPadding converted changed in
        Ok (renderDecls ds, changed')
    | Throw => Throw
    | NoFuel => NoFuel
    end.

(** *** Attributes *)

Definition attrText (attrName : string) (v : str) : str :=
  s16 " " ++ s16 attrName ++ s16 "=" ++ [dq] ++ v ++ [dq].

(** The callback of [addOrUpdateAttr] computes, from the matched text,
    what follows its first equals sign, without one leading and one
    trailing quote. *)
Definition rawValue (m : str) : str :=
  let v := trim (join [eq_] (drop 1 (split_on eq_ m))) in
  replaceAllStr re_quotes [] v.

Definition addOrUpdateAttr (tag : str) (attrName : string) (attrValue : value)
    : Res str :=
  let re := re_attrSet (s16 attrName) in
  if test re tag then
    match match_ re tag with
    | None => Ok tag
    | Some m =>
        let mt := mtext tag m in
        r <~ (if str_eqb (trim (rawValue mt)) []
              then v <~ toStringV attrValue ;; Ok (attrText attrName v)
              else Ok mt) ;;
        Ok (splice tag 0 [(m, r)])
    end
  else
    v <~ toStringV attrValue ;;
    Ok (replaceFirstStr re_gtEnd (attrText attrName v ++ s16 ">") tag).

(** [a ?? b] on captures. *)
Definition orUndef {X} (a b : option X) : option X :=
  match a with Some _ => a | None => b end.

Definition getAttr (tag : str) (attrName : string) : option str :=
  match match_ (re_attrGet (s16 attrName)) tag with
  | None => None
  | Some m =>
      Some (default []
              (orUndef (mgroup tag m 2)
                 (orUndef (mgroup tag m 3) (mgroup tag m 4))))
  end.

(** [!title || title.trim() === ''] *)
Definition blank (o : option str) : bool :=
  match o with
  | None => true
  | Some t => str_eqb t [] || str_eqb (trim t) []
  end.

(** *** The passes of [repairHtml] *)

Definition Ledger := list AccessibilityIssue.

Section Passes.
Variable config : value.

(** [config?.placeholders?.k] *)
Definition pref (k : string) : value := prop (prop config "placeholders") k.

(** [config?.basePx ?? 16] and [config?.removeWidth ?? true] *)
Definition basePxOf : value :=
  orNullish (prop config "basePx") (VNum (numOfNat E 16)).
Definition removeWidthOf : value :=
  orNullish (prop config "removeWidth") (VBool true).

(** [placeholder.includes(s)]: a string or an array has the method,
    anything else raises. *)
Definition includesV (v : value) (s : str) : Res bool :=
  match v with
  | VStr t => Ok (includes s t)
  | VArr l => Ok (arrIncludes l s)
  | _ => Throw
  end.

(** [s.match(re)?.[0] || dflt] *)
Definition firstMatchOr (p : pattern) (s : str) (dflt : str) : str :=
  match match_ p s with
  | Some m => if str_eqb (mtext s m) [] then dflt else mtext s m
  | None => dflt
  end.

(** [config?.placeholders?.newWindowHint || "在新視窗打開鏈結"], then
    [`${hint}：${name}`] *)
Definition mergedHint (name : str) : Res str :=
  h <~ toStringV (orFalsy (pref "newWindowHint") (VStr (s16 "在新視窗打開鏈結"))) ;;
  Ok (h ++ s16 "：" ++ name).

(** 1) [<iframe>]/[<frame>] must have a non-empty title. *)
Definition frameTitleCb (tag : str) : M Ledger str :=
  let title := getAttr tag "title" in
  if blank title then
    let placeholder := orFalsy (pref "iframeTitle") (VStr (s16 "（請補上頁框標題）")) in
    fixed <- lift (addOrUpdateAttr tag "title" placeholder) ;;
    review <- lift (includesV placeholder (s16 "請補上")) ;;
    _ <- push (createIssue
      {| i_ruleId := s16 "frame-title"; i_wcagCode := s16 "4.1.2";
         i_taiwanCode := s16 "HM1410201C"; i_level := A;
         i_message := s16 "頁框/內嵌頁框缺少 title 屬性或為空值";
         i_originalSnippet := tag;
         i_fixedSnippet := Some fixed;
         i_autoFixed := true;
         i_needsManualReview := review;
         i_suggestion := Some (s16 "請提供能描述此頁框用途的 title（例如：廣告、導覽、影片播放器等）") |}) ;;
    lift (addOrUpdateAttr tag "title" placeholder)
  else ret tag.

Definition frameTitlePass (s : str) : M Ledger str :=
  if ruleEnabled config (s16 "frame-title")
  then replaceAllM re_frame (fun m => frameTitleCb (mtext s m)) s
  else ret s.

(** 2) [<img>] must have an alt. *)
Definition imgAltCb (tag : str) : M Ledger str :=
  match getAttr tag "alt" with
  | None =>
      let placeholder := orFalsy (pref "imgAlt") (VStr (s16 "（請補上圖片替代文字）")) in
      fixed <- lift (addOrUpdateAttr tag "alt" placeholder) ;;
      _ <- push (createIssue
        {| i_ruleId := s16 "img-alt"; i_wcagCode := s16 "1.1.1";
           i_taiwanCode := s16 "HM1110101C"; i_level := A;
           i_message := s16 "圖片缺少 alt 屬性";
           i_originalSnippet := tag;
           i_fixedSnippet := Some fixed;
           i_autoFixed := true;
           i_needsManualReview := true;
           i_suggestion := Some (s16 "若為裝飾圖片可使用 alt=" ++ [dq; dq]
             ++ s16 "；若為資訊性/功能性圖片請描述其用途/內容") |}) ;;
      ret fixed
  | Some _ => ret tag
  end.

Definition imgAltPass (s : str) : M Ledger str :=
  if ruleEnabled config (s16 "img-alt")
  then replaceAllM (re_startTag "img") (fun m => imgAltCb (mtext s m)) s
  else ret s.

(** 3) Link purpose. *)

(** An image inside a link must have a non-empty alt. *)
Definition imgInLinkCb (imgTag : str) : M Ledger str :=
  if blank (getAttr imgTag "alt") then
    let placeholder := orFalsy (pref "imgAlt") (VStr (s16 "（請補上圖片替代文字）")) in
    fixed <- lift (addOrUpdateAttr imgTag "alt" placeholder) ;;
    _ <- push (createIssue
      {| i_ruleId := s16 "img-alt"; i_wcagCode := s16 "1.1.1";
         i_taiwanCode := s16 "HM1110101C"; i_level := A;
         i_message := s16 "鏈結中的圖片需提供可描述目的的 alt（不可為空）";
         i_originalSnippet := imgTag;
         i_fixedSnippet := Some fixed;
         i_autoFixed := true;
         i_needsManualReview := true;
         i_suggestion := Some (s16 "若此圖片為鏈結的唯一可讀內容，alt 應描述鏈結目的；避免使用空值 alt="
           ++ [dq; dq] ++ s16 "。") |}) ;;
    ret fixed
  else ret imgTag.

Definition newWindowIssue (msg : string) (full fixedFull : str)
    : AccessibilityIssue :=
  createIssue
    {| i_ruleId := s16 "link-new-window"; i_wcagCode := s16 "2.4.4";
       i_taiwanCode := s16 "HM1240401C"; i_level := A;
       i_message := s16 msg;
       i_originalSnippet := full;
       i_fixedSnippet := Some fixedFull;
       i_autoFixed := true;
       i_needsManualReview := false;
       i_suggestion := None |}.

(** The accessible name of a link: its visible text, else the alt of its
    first image. *)
Definition linkNameOf (text inner : str) : str :=
  if negb (str_eqb text []) then text
  else match match_ (re_startTag "img") inner with
       | Some m =>
           if str_eqb (mtext inner m) [] then text
           else
             let alt := trim (default [] (getAttr (mtext inner m) "alt")) in
             if negb (str_eqb alt []) then alt else text
       | None => text
       end.

Definition linkCb (full : str) : M Ledger str :=
  let open := firstMatchOr (re_startTag "a") full (s16 "<a>") in
  let inner0 :=
    replaceFirstStr (re_endTag "a") [] (replaceFirstStr (re_startTag "a") [] full) in
  let text := stripTags inner0 in
  let hasHref := test re_aHref open in
  if negb hasHref then ret full
  else
    inner <- (if ruleEnabled config (s16 "img-alt")
              then replaceAllM (re_startTag "img")
                     (fun m => imgInLinkCb (mtext inner0 m)) inner0
              else ret inner0) ;;
    let linkName := linkNameOf text inner in
    if str_eqb linkName [] then
      let textPlaceholder := orFalsy (pref "linkText") (VStr (s16 "（請補上鏈結文字）")) in
      let titlePlaceholder := orFalsy (pref "linkEmptyTitle") (VStr (s16 "（請補上鏈結目的）")) in
      fixedOpen <- lift (addOrUpdateAttr open "title" titlePlaceholder) ;;
      tp <- lift (toStringV textPlaceholder) ;;
      let fixedFull := fixedOpen ++ tp ++ s16 "</a>" in
      _ <- (if ruleEnabled config (s16 "link-text")
            then push (createIssue
              {| i_ruleId := s16 "link-text"; i_wcagCode := s16 "2.4.4";
                 i_taiwanCode := s16 "HM1240401C"; i_level := A;
                 i_message := s16 "鏈結文字為空（已補上 placeholder，請人工確認鏈結目的）";
                 i_originalSnippet := full;
                 i_fixedSnippet := Some fixedFull;
                 i_autoFixed := true;
                 i_needsManualReview := true;
                 i_suggestion := Some (s16 "請將 placeholder 改為能描述鏈結目的的文字；若為圖示鏈結，請用 <img alt=...> 描述其用途") |})
            else ret tt) ;;
      ret fixedFull
    else
      let target := getAttr open "target" in
      let isBlank :=
        match target with
        | Some t => str_eqb (toLowerCase E t) (s16 "_blank")
        | None => false
        end in
      let title := getAttr open "title" in
      if isBlank && ruleEnabled config (s16 "link-new-window") && blank title
         && negb (ruleEnabled config (s16 "link-title"))
      then
        merged <- lift (mergedHint linkName) ;;
        fixedOpen <- lift (addOrUpdateAttr open "title" (VStr merged)) ;;
        let fixedFull := fixedOpen ++ inner ++ s16 "</a>" in
        _ <- push (newWindowIssue "鏈結使用 target=_blank，已補充 title 提示另開新視窗" full fixedFull) ;;
        ret fixedFull
      else if ruleEnabled config (s16 "link-title") && blank title
      then
        titleText <-
          (let lt := pref "linkTitle" in
           if truthy lt then
             match lt with
             | VStr t => ret (replaceAllStr re_textSlot linkName t)
             | _ => lift Throw
             end
           else ret linkName) ;;
        fixedOpen <- lift (addOrUpdateAttr open "title" (VStr titleText)) ;;
        let fixedFull := fixedOpen ++ inner ++ s16 "</a>" in
        _ <- push (createIssue
          {| i_ruleId := s16 "link-title"; i_wcagCode := s16 "2.4.4";
             i_taiwanCode := s16 "HM1240401C"; i_level := A;
             i_message := s16 "鏈結缺少 title（已補上）";
             i_originalSnippet := full;
             i_fixedSnippet := Some fixedFull;
             i_autoFixed := true;
             i_needsManualReview := false;
             i_suggestion := Some (s16 "title 應能補充鏈結目的；若鏈結文字已足夠，可視情況保留或移除 title。") |}) ;;
        if isBlank && ruleEnabled config (s16 "link-new-window") then
          merged <- lift (mergedHint titleText) ;;
          mergedOpen <- lift (addOrUpdateAttr open "title" (VStr merged)) ;;
          ret (mergedOpen ++ inner ++ s16 "</a>")
        else ret fixedFull
      else if isBlank && ruleEnabled config (s16 "link-new-window") && blank title
      then
        merged <- lift (mergedHint linkName) ;;
        fixedOpen <- lift (addOrUpdateAttr open "title" (VStr merged)) ;;
        let fixedFull := fixedOpen ++ inner ++ s16 "</a>" in
        _ <- push (newWindowIssue "鏈結使用 target=_blank，已補上 title 提示另開新視窗" full fixedFull) ;;
        ret fixedFull
      else if isBlank && ruleEnabled config (s16 "link-new-window")
      then
        let currentTitle := match title with Some t => trim t | None => [] end in
        if negb (str_eqb currentTitle []) && negb (test re_newWindow currentTitle)
        then
          merged <- lift (mergedHint currentTitle) ;;
          fixedOpen <- lift (addOrUpdateAttr open "title" (VStr merged)) ;;
          let fixedFull := fixedOpen ++ inner ++ s16 "</a>" in
          _ <- push (newWindowIssue "鏈結使用 target=_blank，已補充 title 提示另開新視窗" full fixedFull) ;;
          ret fixedFull
        else ret full
      else ret full.

Definition linkPass (s : str) : M Ledger str :=
  replaceAllM (re_element "a") (fun m => linkCb (mtext s m)) s.

(** 4) Table semantics: the first [<td>] of a row becomes a row header. *)
Definition rowHeaderCb (tr : str) : M Ledger str :=
  match match_ (re_element "td") tr with
  | None => ret tr
  | Some m =>
      let firstTd := mtext tr m in
      let inner :=
        replaceFirstStr (re_endTag "td") []
          (replaceFirstStr (re_startTag "td") [] firstTd) in
      let text := stripTags inner in
      if str_eqb text [] then ret tr
      else
        let open := firstMatchOr (re_startTag "td") firstTd (s16 "<td>") in
        let thOpen0 := replaceFirstStr re_tdHead (s16 "<th") open in
        thOpen1 <- lift (addOrUpdateAttr thOpen0 "scope" (VStr (s16 "row"))) ;;
        thOpen <-
          (match getAttr thOpen1 "style" with
           | Some style =>
               if str_eqb style [] then ret thOpen1
               else
                 nc <- lift (normalizeInlineStyle style basePxOf removeWidthOf) ;;
                 if snd nc
                 then lift (addOrUpdateAttr thOpen1 "style" (VStr (fst nc)))
                 else ret thOpen1
           | None => ret thOpen1
           end) ;;
        let th := thOpen ++ inner ++ s16 "</th>" in
        let fixed := replaceText firstTd th tr in
        _ <- push (createIssue
          {| i_ruleId := s16 "table-row-header"; i_wcagCode := s16 "1.3.1";
             i_taiwanCode := s16 "HM1310101C"; i_level := A;
             i_message := s16 "表格列標題建議使用 th（已將第一欄 td 轉為 th scope="
               ++ [dq] ++ s16 "row" ++ [dq] ++ s16 "）";
             i_originalSnippet := firstTd;
             i_fixedSnippet := Some th;
             i_autoFixed := true;
             i_needsManualReview := false;
             i_suggestion := Some (s16 "若此欄位確實為列/行標題，使用 th + scope 可提升輔助科技朗讀正確性。") |}) ;;
        ret fixed
  end.

Definition rowHeaderPass (s : str) : M Ledger str :=
  if ruleEnabled config (s16 "table-row-header")
  then replaceAllM (re_element "tr") (fun m => rowHeaderCb (mtext s m)) s
  else ret s.

(** 4.5) [<th>] should have a scope. *)
Definition thScopeCb (tag : str) : M Ledger str :=
  if negb (blank (getAttr tag "scope")) then ret tag
  else
    fixed <- lift (addOrUpdateAttr tag "scope" (VStr (s16 "col"))) ;;
    _ <- push (createIssue
      {| i_ruleId := s16 "th-scope"; i_wcagCode := s16 "1.3.1";
         i_taiwanCode := s16 "HM1310101C"; i_level := A;
         i_message := s16 "<th> 缺少 scope（已補上 scope=" ++ [dq] ++ s16 "col"
           ++ [dq] ++ s16 "）";
         i_originalSnippet := tag;
         i_fixedSnippet := Some fixed;
         i_autoFixed := true;
         i_needsManualReview := false;
         i_suggestion := Some (s16 "若此 th 為列標題請改為 scope=" ++ [dq] ++ s16 "row"
           ++ [dq] ++ s16 "；若為欄標題則 scope=" ++ [dq] ++ s16 "col" ++ [dq]) |}) ;;
    ret fixed.

Definition thScopePass (s : str) : M Ledger str :=
  if ruleEnabled config (s16 "th-scope")
  then replaceAllM (re_startTag "th") (fun m => thScopeCb (mtext s m)) s
  else ret s.

(** 5) Inline styles. *)
Definition inlineStyleCb (s : str) (m : mres) : M Ledger str :=
  let mt := mtext s m in
  let raw := default [] (orUndef (mgroup s m 2) (mgroup s m 3)) in
  nc <- lift (normalizeInlineStyle raw basePxOf removeWidthOf) ;;
  let newStyle := fst nc in
  if negb (snd nc) then ret mt
  else
    _ <- push (createIssue
      {| i_ruleId := s16 "css-relative-units"; i_wcagCode := s16 "1.4.4";
         i_taiwanCode := s16 "CS2140401C"; i_level := AA;
         i_message := s16 "已將 inline style 中的 px/pt 單位轉為相對單位（em），並移除固定 width";
         i_originalSnippet := s16 "style=" ++ [dq] ++ raw ++ [dq];
         i_fixedSnippet := Some (s16 "style=" ++ [dq] ++ newStyle ++ [dq]);
         i_autoFixed := true;
         i_needsManualReview := false;
         i_suggestion := Some (s16 "建議使用 em/rem/% 等相對單位以支援文字縮放與可讀性。") |}) ;;
    let quote := if startsWith (s16 "style='") mt then [sq] else [dq] in
    ret (s16 "style=" ++ quote ++ newStyle ++ quote).

Definition inlineStylePass (s : str) : M Ledger str :=
  if ruleEnabled config (s16 "css-relative-units")
  then replaceAllM re_styleAttr (inlineStyleCb s) s
  else ret s.

(** 6) [<style>] blocks: font-size only. *)
Definition convertCss (css : str) : Res str :=
  c1 <~ (match replaceAllM (re_fontSize "px")
                 (fun m => v <- lift (emFromPx (parseFloat E (group1 css m)) basePxOf) ;;
                           ret (s16 "font-size: " ++ v ++ s16 ";")) css tt with
         | Ok (r, _) => Ok r
         | Throw => Throw
         | NoFuel => NoFuel
         end) ;;
  let c2 := replaceAllFn (re_fontSize "pt")
              (fun m => s16 "font-size: " ++ emFromPt (parseFloat E (group1 c1 m))
                        ++ s16 ";") c1 in
  Ok (replaceAllFn (re_fontSize "rem")
        (fun m => s16 "font-size: " ++ remToEm (parseFloat E (group1 c2 m))
                  ++ s16 ";") c2).

Definition styleBlockCb (s : str) (m : mres) : M Ledger str :=
  let css := group1 s m in
  converted <- lift (convertCss css) ;;
  _ <- (if negb (str_eqb converted css)
        then push (createIssue
          {| i_ruleId := s16 "css-style-tag"; i_wcagCode := s16 "1.4.4";
             i_taiwanCode := s16 "CS2140401C"; i_level := AA;
             i_message := s16 "已將 <style> 內 font-size 的 px/pt/rem 單位轉為 em";
             i_originalSnippet := s16 "<style>…</style>";
             i_fixedSnippet := Some (s16 "<style>…</style>");
             i_autoFixed := true;
             i_needsManualReview := false;
             i_suggestion := None |})
        else ret tt) ;;
  ret (s16 "<style>" ++ converted ++ s16 "</style>").

Definition styleBlockPass (s : str) : M Ledger str :=
  if ruleEnabled config (s16 "css-style-tag")
  then replaceAllM re_styleBlock (styleBlockCb s) s
  else ret s.

(** 7) Form fields should have a programmatic label. *)

(** The [while] loop over [labelRe.exec(repaired)] filling [labelForSet]. *)
Definition labelForSet (ms : list mres) (s : str) : gset str :=
  foldl (fun acc m =>
           let v := trim (default []
                      (orUndef (mgroup s m 2)
                         (orUndef (mgroup s m 3) (mgroup s m 4)))) in
           if negb (str_eqb v []) then acc ∪ {[v]} else acc)
        ∅ ms.

Definition formLabelCb (labels : gset str) (tag : str) : M Ledger str :=
  let type := toLowerCase E (match getAttr tag "type" with
                             | Some t => if str_eqb t [] then [] else t
                             | None => []
                             end) in
  if str_eqb type (s16 "hidden") then ret tag
  else
    let nonBlank o :=
      match o with
      | Some t => negb (str_eqb t []) && negb (str_eqb (trim t) [])
      | None => false
      end in
    let id := match getAttr tag "id" with Some t => trim t | None => [] end in
    let hasLabel :=
      nonBlank (getAttr tag "aria-label")
      || nonBlank (getAttr tag "aria-labelledby")
      || (negb (str_eqb id []) && bool_decide (id ∈ labels)) in
    if hasLabel then ret tag
    else
      _ <- push (createIssue
        {| i_ruleId := s16 "form-label"; i_wcagCode := s16 "1.3.1";
           i_taiwanCode := s16 "HM1330201C"; i_level := A;
           i_message := s16 "表單欄位缺少可被輔助科技辨識的標籤（label/aria-label）";
           i_originalSnippet := tag;
           i_fixedSnippet := None;
           i_autoFixed := false;
           i_needsManualReview := true;
           i_suggestion := Some
             (if negb (str_eqb id [])
              then s16 "請確認是否有 <label for=" ++ [dq] ++ id ++ [dq]
                   ++ s16 ">...；或補 aria-label/aria-labelledby（注意：placeholder 不是 label）"
              else s16 "建議補 id 並搭配 <label for=...>，或使用 aria-label/aria-labelledby（注意：placeholder 不是 label）") |}) ;;
      ret tag.

Definition formLabelPass (s : str) : M Ledger str :=
  if ruleEnabled config (s16 "form-label") then
    match execAll (S (length s)) re_labelFor s 0 with
    | None => lift NoFuel
    | Some ms =>
        replaceAllM re_control
          (fun m => formLabelCb (labelForSet ms s) (mtext s m)) s
    end
  else ret s.

(** 8) Skip link detection: report only. *)
Definition skipLinkPass (s : str) : M Ledger unit :=
  if ruleEnabled config (s16 "skip-link") then
    let hasNavOrHeader := test re_navHeader s in
    let hasMain := test re_main s in
    let hasSkip := test re_skipAnchor s || test re_skipHref s in
    if (hasNavOrHeader || hasMain) && negb hasSkip then
      push (createIssue
        {| i_ruleId := s16 "skip-link"; i_wcagCode := s16 "2.4.1";
           i_taiwanCode := s16 "HM1240101C"; i_level := A;
           i_message := s16 "建議提供跳至主要內容（Skip Link），以利鍵盤/輔助科技快速略過導覽";
           i_originalSnippet := s16 "(document)";
           i_fixedSnippet := None;
           i_autoFixed := false;
           i_needsManualReview := true;
           i_suggestion := Some (s16 "建議在頁面最前方加入 <a href=" ++ [dq] ++ s16 "#main"
             ++ [dq] ++ s16 ">跳到主要內容</a> 並確保 main 區塊具對應 id。") |})
    else ret tt
  else ret tt.

(** 9) Color contrast hint: report only, at most 5 warnings. *)
Definition colorIssue (styleAttr : str) : AccessibilityIssue :=
  createIssue
    {| i_ruleId := s16 "color-contrast"; i_wcagCode := s16 "1.4.3";
       i_taiwanCode := s16 "CS2140301C"; i_level := AA;
       i_message := s16 "偵測到文字顏色設定，需人工確認與背景之對比（Freego AA 常見檢查）";
       i_originalSnippet := styleAttr;
       i_fixedSnippet := None;
       i_autoFixed := false;
       i_needsManualReview := true;
       i_suggestion := Some (s16 "請用 Freego/對比檢測工具確認一般文字對比 >= 4.5:1（大字 >= 3:1），必要時調整 color/background-color。") |}.

(** The body of the [while] loop, over the successive results of [exec];
    [warned] is the counter, leaving the recursion is the [break]. *)
Fixpoint colorLoop (s : str) (ms : list mres) (warned : nat) : M Ledger unit :=
  match ms with
  | [] => ret tt
  | m :: ms' =>
      let styleAttr := mtext s m in
      if test re_background styleAttr then colorLoop s ms' warned
      else
        let warned := S warned in
        if decide (5 < warned) then ret tt
        else _ <- push (colorIssue styleAttr) ;; colorLoop s ms' warned
  end.

Definition colorContrastPass (s : str) : M Ledger unit :=
  if ruleEnabled config (s16 "color-contrast") then
    match execAll (S (length s)) re_colorStyle s 0 with
    | None => lift NoFuel
    | Some ms => colorLoop s ms 0
    end
  else ret tt.

(** 10) Fake button detection: report only, at most 10 issues. *)
Definition fakeButtonIssue (tag : str) : AccessibilityIssue :=
  createIssue
    {| i_ruleId := s16 "fake-button"; i_wcagCode := s16 "2.1.1";
       i_taiwanCode := s16 "HM2110101C"; i_level := A;
       i_message := s16 "偵測到非語意互動元件（div/span + onclick），可能無法鍵盤操作";
       i_originalSnippet := tag;
       i_fixedSnippet := None;
       i_autoFixed := false;
       i_needsManualReview := true;
       i_suggestion := Some (s16 "建議改用 <button>；或補 role=" ++ [dq] ++ s16 "button"
         ++ [dq] ++ s16 "、tabindex=" ++ [dq] ++ s16 "0" ++ [dq]
         ++ s16 " 並加入 keydown/keyup 以支援 Enter/Space。") |}.

(** The test that makes the loop skip a tag. *)
Definition keyboardReady (tag : str) : bool :=
  test re_roleButton tag && test re_tabindex0 tag.

Fixpoint fakeButtonLoop (s : str) (ms : list mres) (count : nat)
    : M Ledger unit :=
  match ms with
  | [] => ret tt
  | fm :: ms' =>
      let tag := mtext s fm in
      if keyboardReady tag then fakeButtonLoop s ms' count
      else
        let count := S count in
        if decide (10 < count) then ret tt
        else _ <- push (fakeButtonIssue tag) ;; fakeButtonLoop s ms' count
  end.

Definition fakeButtonPass (s : str) : M Ledger unit :=
  if ruleEnabled config (s16 "fake-button") then
    match execAll (S (length s)) fakeBtnRe s 0 with
    | None => lift NoFuel
    | Some ms => fakeButtonLoop s ms 0
    end
  else ret tt.

(** The passes 1 to 9, in order. *)
Definition passes1to9 (html : str) : M Ledger str :=
  r <- frameTitlePass html ;;
  r <- imgAltPass r ;;
  r <- linkPass r ;;
  r <- rowHeaderPass r ;;
  r <- thScopePass r ;;
  r <- inlineStylePass r ;;
  r <- styleBlockPass r ;;
  r <- formLabelPass r ;;
  _ <- skipLinkPass r ;;
  _ <- colorContrastPass r ;;
  ret r.

(** All the passes, in order. *)
Definition passes (html : str) : M Ledger str :=
  r <- passes1to9 html ;;
  _ <- fakeButtonPass r ;;
  ret r.

End Passes.

(** *** Locations and the result *)

Definition computeLineCol (s : str) (idx : nat) : nat * nat :=
  if decide (idx <= 0) then (1, 1)
  else
    let before := take idx s in
    let lines := split_on nl before in
    (length lines, length (default [] (last lines)) + 1).

(** The body of the loop over the issues, which fills a location in
    place. *)
Definition fillLocation (html : str) (issue : AccessibilityIssue)
    : AccessibilityIssue :=
  if negb (bool_decide (startOffset issue = 0)) || negb (bool_decide (line issue = 0))
  then issue
  else
    let snippet := originalSnippet issue in
    if str_eqb snippet [] || str_eqb snippet (s16 "(document)") then issue
    else match indexOf snippet html with
         | None => issue
         | Some idx =>
             let lc := computeLineCol html idx in
             {| ruleId := ruleId issue; wcagCode := wcagCode issue;
                taiwanCode := taiwanCode issue; level := level issue;
                message := message issue;
                line := fst lc; column := snd lc;
                startOffset := idx; endOffset := idx + length snippet;
                originalSnippet := originalSnippet issue;
                fixedSnippet := fixedSnippet issue;
                autoFixed := autoFixed issue;
                needsManualReview := needsManualReview issue;
                suggestion := suggestion issue |}
         end.

Definition repairHtml (html : str) (config : value) : Res RepairResult :=
  match passes config html [] with
  | Ok (repaired, ledger) =>
      let issues := map (fillLocation html) ledger in
      Ok {| originalHtml := html;
            repairedHtml := repaired;
            issues := issues;
            summary :=
              {| totalIssues := length issues;
                 sum_autoFixed := length (filter (fun i => autoFixed i = true) issues);
                 sum_needsManualReview :=
                   length (filter (fun i => needsManualReview i = true) issues) |} |}
  | Throw => Throw
  | NoFuel => NoFuel
  end.

End Engine.

Arguments VUndef {E}.
Arguments VNull {E}.
Arguments VBool {E} b.
Arguments VNum {E} n.
Arguments VStr {E} s.
Arguments VArr {E} l.
Arguments VObj {E} l.

(** ** A reference implementation of the host interface

    Numbers are exact rationals with the two infinities and NaN; parsing
    and printing are decimal; the lower-case mapping is the ASCII one.  On
    the inputs evaluated in this file (short decimal literals, ASCII and
    uncased text) this is what the JavaScript engine computes.  It serves
    to run the engine on concrete inputs; the general theorems do not
    depend on it. *)
Module RefEnv.

Inductive rnum :=
| RNaN
| RInf (negative : bool)
| RFin (q : Q).

Definition digitVal (c : char) : Z := Z.of_N (c - 48)%N.

Fixpoint digitsVal (acc : Z) (s : str) : Z * str :=
  match s with
  | c :: r => if isDigit c then digitsVal (acc * 10 + digitVal c)%Z r else (acc, s)
  | [] => (acc, [])
  end.

Fixpoint countDigits (s : str) : nat :=
  match s with
  | c :: r => if isDigit c then S (countDigits r) else 0
  | [] => 0
  end.

(** The longest prefix [digits [. digits]] or [. digits] of the text. *)
Definition parseDecimal (s : str) : option (Q * str) :=
  let ni := countDigits s in
  let '(ip, r) := digitsVal 0%Z s in
  match r with
  | c :: r' =>
      if (c =? 46)%N then
        let nf := countDigits r' in
        let '(fp, r'') := digitsVal 0%Z r' in
        if (ni =? 0) && (nf =? 0) then None
        else Some ((inject_Z ip + inject_Z fp / inject_Z (10 ^ Z.of_nat nf))%Q, r'')
      else if ni =? 0 then None else Some (inject_Z ip, r)
  | [] => if ni =? 0 then None else Some (inject_Z ip, [])
  end.

Definition parseFloat (s : str) : rnum :=
  match parseDecimal (trimStart s) with
  | Some (q, _) => RFin q
  | None => RNaN
  end.

Definition stringToNumber (s : str) : rnum :=
  let t := trim s in
  if str_eqb t [] then RFin 0%Q
  else match parseDecimal t with
       | Some (q, []) => RFin q
       | _ => RNaN
       end.

Fixpoint natDigits (fuel : nat) (n : N) (acc : str) : str :=
  match fuel with
  | 0 => acc
  | S f =>
      let acc' := (48 + n mod 10)%N :: acc in
      if (n / 10 =? 0)%N then acc' else natDigits f (n / 10)%N acc'
  end.

Definition showN (n : N) : str := natDigits (S (N.to_nat (N.log2 n))) n [].

(** The digits of [k / 10000] for [0 <= k]: at most four decimals, without
    trailing zeros. *)
Fixpoint dropZeros (rev_digits : str) : str :=
  match rev_digits with
  | c :: r => if (c =? 48)%N then dropZeros r else rev_digits
  | [] => []
  end.

Definition pad4 (d : str) : str := replicate (4 - length d) 48%N ++ d.

Definition showTenThousandths (k : Z) : str :=
  let a := Z.to_N (Z.abs k) in
  let frac := rev (dropZeros (rev (pad4 (showN (a mod 10000)%N)))) in
  (if (k <? 0)%Z then s16 "-" else [])
  ++ showN (a / 10000)%N
  ++ (if str_eqb frac [] then [] else s16 "." ++ frac).

(** [Math.round(x * 10000)] on a rational. *)
Definition roundScaled (q : Q) : Z :=
  let x := (q * 10000 + (1 # 2))%Q in
  (Qnum x / Zpos (Qden x))%Z.

Definition showRounded (x : rnum) : str :=
  match x with
  | RNaN => s16 "NaN"
  | RInf n => if n then s16 "-Infinity" else s16 "Infinity"
  | RFin q => showTenThousandths (roundScaled q)
  end.

Definition quot (a b : rnum) : rnum :=
  match a, b with
  | RNaN, _ | _, RNaN => RNaN
  | RInf _, RInf _ => RNaN
  | RInf n, RFin q => RInf (xorb n (Qnum q <? 0)%Z)
  | RFin _, RInf _ => RFin 0%Q
  | RFin p, RFin q =>
      if (Qnum q =? 0)%Z then
        if (Qnum p =? 0)%Z then RNaN else RInf (Qnum p <? 0)%Z
      else RFin (p / q)%Q
  end.

(** Printing of a number of the configuration: integers and numbers of
    ten-thousandths print as they are written. *)
Definition numToString (x : rnum) : str := showRounded x.

Definition numTruthy (x : rnum) : bool :=
  match x with
  | RNaN => false
  | RInf _ => true
  | RFin q => negb (Qnum q =? 0)%Z
  end.

Definition lowerUnit (c : char) : char :=
  if ((65 <=? c) && (c <=? 90))%N then (c + 32)%N else c.

Definition env : JsEnv :=
  Build_JsEnv rnum RNaN (fun n => RFin (inject_Z (Z.of_nat n)))
    parseFloat stringToNumber numToString numTruthy
    (fun a b => showRounded (quot a b)) showRounded (map lowerUnit).

End RefEnv.

(** ** Concrete inputs *)

(** A literal in which the backtick stands for the double quote. *)
Definition txt (s : string) : str :=
  map (fun c => if (c =? 96)%N then dq else c) (s16 s).

Definition obj1 {E} (k : string) (v : value E) : value E := VObj [(s16 k, v)].

Definition strings {E} (l : list string) : value E :=
  VArr (map (fun s => VStr (s16 s)) l).

(** [{ rules: { enabled, disabled } }] *)
Definition rulesConfig {E} (enabled disabled : list string) : value E :=
  obj1 "rules" (VObj [(s16 "enabled", strings enabled);
                      (s16 "disabled", strings disabled)]).

(** Scenario E of the specification. *)
Definition scenarioE : str :=
  txt "<a href=`/x` target=`_blank` title=`說明`>連結</a>".

(** What an issue shows of itself in the examples. *)
Definition brief (i : AccessibilityIssue) : str * bool * option str :=
  (ruleId i, autoFixed i, fixedSnippet i).

(** ** Notions used in the statements *)

(** [reach x y]: the cursor [y] is the cursor [x] moved forward. *)
Definition reach (x y : mstate) : Prop :=
  exists w, ms_rest x = w ++ ms_rest y /\ ms_pos y = ms_pos x + length w.

(** A term that cannot match the empty string. *)
Fixpoint consuming (r : regex) : bool :=
  match r with
  | Set_ _ => true
  | Seq r1 r2 => consuming r1 || consuming r2
  | Alt r1 r2 => consuming r1 && consuming r2
  | Grp _ r1 => consuming r1
  | _ => false
  end.

(** [preserves P m]: the issues pushed by [m] satisfy [P]. *)
Definition preserves {X} (P : AccessibilityIssue -> Prop) (m : M Ledger X)
    : Prop :=
  forall st, Forall P st ->
    match m st with
    | Ok (_, st') => Forall P st'
    | _ => True
    end.

(** [total m]: [m] returns, whatever the state. *)
Definition total {S X} (m : M S X) : Prop :=
  forall st, exists a st', m st = Ok (a, st').

Definition returns {X} (r : Res X) : Prop := exists a, r = Ok a.

(** What every pushed issue satisfies: it has no location yet, its rule is
    enabled, and if it is marked as fixed it carries the fixed snippet. *)
Definition sound {E} (config : value E) (i : AccessibilityIssue) : Prop :=
  line i = 0 /\ column i = 0 /\ startOffset i = 0 /\ endOffset i = 0
  /\ ruleEnabled E config (ruleId i) = true
  /\ (autoFixed i = true -> is_Some (fixedSnippet i)).

(** The issues of the passes that come before the fake-button pass. *)
Definition early {E} (config : value E) (i : AccessibilityIssue) : Prop :=
  sound config i /\ ruleId i <> s16 "fake-button".

Arguments s16 : simpl never.

(** The sets of rule ids a configuration gives. *)
Definition disabledSet {E} (config : value E) : list (value E) :=
  match prop E (prop E config "rules") "disabled" with
  | VArr l => l
  | _ => []
  end.

Definition enabledSet {E} (config : value E) : option (list (value E)) :=
  match prop E (prop E config "rules") "enabled" with
  | VArr l => Some l
  | _ => None
  end.

(** A pass that is skipped: the text and the ledger are as before. *)
Definition skipped {X} (m : M Ledger X) (a : X) : Prop :=
  forall st, m st = Ok (a, st).

(** The accessible name of an anchor whose images are left as they are. *)
Definition anchorInner (full : str) : str :=
  replaceFirstStr (re_endTag "a") []
    (replaceFirstStr (re_startTag "a") [] full).

Definition anchorName (full : str) : str :=
  linkNameOf (stripTags (anchorInner full)) (anchorInner full).

(** The start tags found by the scan of the fake-button pass, in order. *)
Definition clickableTags (s : str) : list str :=
  map (mtext s) (matches fakeBtnRe s).

(** [occursAt p s i]: the text [p] occurs in [s] at offset [i]. *)
Definition occursAt (p s : str) (i : nat) : Prop :=
  exists a b, s = a ++ p ++ b /\ length a = i.

Definition occurs (p s : str) : Prop := exists i, occursAt p s i.

Definition firstOccurrence (p s : str) (i : nat) : Prop :=
  occursAt p s i /\ forall j, j < i -> ~ occursAt p s j.

(** [lineCol s idx l c]: offset [idx] of [s] is on the 1-based line [l], one
    more than the number of newlines before it, at the 1-based column [c],
    one more than the number of units since the last of them. *)
Definition lineCol (s : str) (idx l c : nat) : Prop :=
  exists pre post,
    take idx s = pre ++ post
    /\ (nl ∉ post)
    /\ (pre = [] \/ exists pre', pre = pre' ++ [nl])
    /\ l = S (length (filter (fun u => u = nl) pre))
    /\ c = S (length post).

(** The issue [i] of a result is the emitted issue [e], up to its
    location. *)
Definition sameReport (e i : AccessibilityIssue) : Prop :=
  ruleId i = ruleId e /\ wcagCode i = wcagCode e
  /\ taiwanCode i = taiwanCode e /\ level i = level e
  /\ message i = message e /\ originalSnippet i = originalSnippet e
  /\ fixedSnippet i = fixedSnippet e /\ autoFixed i = autoFixed e
  /\ needsManualReview i = needsManualReview e
  /\ suggestion i = suggestion e.

(** What the location resolver guarantees for an issue. *)
Definition located (html : str) (i : AccessibilityIssue) : Prop :=
  let snippet := originalSnippet i in
  (snippet <> [] -> snippet <> s16 "(document)" ->
   forall idx, firstOccurrence snippet html idx ->
     startOffset i = idx
     /\ endOffset i = idx + length snippet
     /\ lineCol html idx (line i) (column i))
  /\ (snippet = s16 "(document)" \/ ~ occurs snippet html ->
      line i = 0 /\ column i = 0 /\ startOffset i = 0 /\ endOffset i = 0).

(** The value given to a padding side: that of its last declaration. *)
Fixpoint sideValue (k : str) (ds : list decl) : option str :=
  match ds with
  | [] => None
  | d :: ds' =>
      match sideValue k ds' with
      | Some v => Some v
      | None => if str_eqb (d_prop d) k then Some (d_value d) else None
      end
  end.

(** The non-empty values given to the four sides, in the order top, right,
    bottom, left. *)
Definition sideValues (ds : list decl) : list str :=
  omap (fun k => match sideValue k ds with
                 | Some v => if str_eqb v [] then None else Some v
                 | None => None
                 end) padKeys.

(** The number of sides that have a non-empty value. *)
Definition sidesPresent (ds : list decl) : nat := length (sideValues ds).

(** The guard of the compaction: at least three of the four sides have a
    non-empty value, and these values are all the text [v]. *)
Definition collapsible (ds : list decl) (v : str) : Prop :=
  3 <= length (sideValues ds) /\ Forall (fun w => w = v) (sideValues ds).

(** One [padding] declaration with value [v] in place of the first
    padding-* declaration, the other padding-* declarations removed. *)
Fixpoint collapse (v : str) (ds : list decl) : list decl :=
  match ds with
  | [] => []
  | d :: ds' =>
      if isPaddingSide d
      then Decl (s16 "padding") v
             :: filter (fun x => isPaddingSide x = false) ds'
      else d :: collapse v ds'
  end.

(** A placeholder is a string or absent; the base size is a number or
    absent. *)
Definition strOrAbsent {E} (v : value E) : bool :=
  match v with
  | VStr _ | VUndef | VNull => true
  | _ => false
  end.

Definition numOrAbsent {E} (v : value E) : bool :=
  match v with
  | VNum _ | VUndef | VNull => true
  | _ => false
  end.

(** A configuration whose recognised values have the types the engine
    declares for them. *)
Definition typedConfig {E} (config : value E) : bool :=
  strOrAbsent (pref E config "linkTitle")
  && strOrAbsent (pref E config "linkText")
  && strOrAbsent (pref E config "linkEmptyTitle")
  && strOrAbsent (pref E config "imgAlt")
  && strOrAbsent (pref E config "iframeTitle")
  && strOrAbsent (pref E config "newWindowHint")
  && numOrAbsent (prop E config "basePx").

(** ** The rule catalogue

    [BuiltInRuleMeta] and [BUILT_IN_RULES], the table served by
    [GET /api/rules]; [taiwanCode] is optional there. *)
Record BuiltInRuleMeta := {
  rule_id : str;
  rule_taiwanCode : option str;
  rule_wcagCode : str;
  rule_level : Level;
  rule_title : str;
  rule_canAutoFix : bool
}.

Definition BUILT_IN_RULES : list BuiltInRuleMeta :=
  [ {| rule_id := s16 "frame-title"; rule_taiwanCode := Some (s16 "HM1410201C");
       rule_wcagCode := s16 "4.1.2"; rule_level := A;
       rule_title := s16 "<frame>/<iframe> 需有非空 title";
       rule_canAutoFix := true |};
    {| rule_id := s16 "img-alt"; rule_taiwanCode := Some (s16 "HM1110101C");
       rule_wcagCode := s16 "1.1.1"; rule_level := A;
       rule_title := txt "<img> 需有 alt（裝飾圖可 alt=``）";
       rule_canAutoFix := true |};
    {| rule_id := s16 "link-text"; rule_taiwanCode := Some (s16 "HM1240401C");
       rule_wcagCode := s16 "2.4.4"; rule_level := A;
       rule_title := s16 "<a> 鏈結文字不得為空/空白";
       rule_canAutoFix := true |};
    {| rule_id := s16 "link-title"; rule_taiwanCode := Some (s16 "HM1240401C");
       rule_wcagCode := s16 "2.4.4"; rule_level := A;
       rule_title := s16 "必要時補 <a> title 以補充鏈結目的";
       rule_canAutoFix := true |};
    {| rule_id := s16 "link-new-window"; rule_taiwanCode := Some (s16 "HM1240401C");
       rule_wcagCode := s16 "2.4.4"; rule_level := A;
       rule_title := s16 "target=_blank 需提示另開新視窗（以 title/文字補充）";
       rule_canAutoFix := true |};
    {| rule_id := s16 "table-row-header"; rule_taiwanCode := Some (s16 "HM1310101C");
       rule_wcagCode := s16 "1.3.1"; rule_level := A;
       rule_title := txt "表格列標題：第一欄 td → th scope=`row`";
       rule_canAutoFix := true |};
    {| rule_id := s16 "css-relative-units"; rule_taiwanCode := Some (s16 "CS2140401C");
       rule_wcagCode := s16 "1.4.4"; rule_level := AA;
       rule_title := s16 "字型/長度單位使用相對單位（em/rem/%；避免 px/pt）";
       rule_canAutoFix := true |};
    {| rule_id := s16 "css-style-tag"; rule_taiwanCode := Some (s16 "CS2140401C");
       rule_wcagCode := s16 "1.4.4"; rule_level := AA;
       rule_title := s16 "<style> 內 font-size 單位轉換為相對單位";
       rule_canAutoFix := true |};
    {| rule_id := s16 "th-scope"; rule_taiwanCode := Some (s16 "HM1310101C");
       rule_wcagCode := s16 "1.3.1"; rule_level := A;
       rule_title := s16 "<th> 建議提供 scope（col/row）";
       rule_canAutoFix := true |};
    {| rule_id := s16 "form-label"; rule_taiwanCode := Some (s16 "HM1330201C");
       rule_wcagCode := s16 "1.3.1"; rule_level := A;
       rule_title := s16 "表單欄位需可被標籤辨識（label/aria-label）";
       rule_canAutoFix := false |};
    {| rule_id := s16 "skip-link"; rule_taiwanCode := None;
       rule_wcagCode := s16 "2.4.1"; rule_level := A;
       rule_title := s16 "建議提供跳至主要內容（Skip Link）";
       rule_canAutoFix := false |};
    {| rule_id := s16 "color-contrast"; rule_taiwanCode := None;
       rule_wcagCode := s16 "1.4.3"; rule_level := AA;
       rule_title := s16 "文字/背景色彩對比（需人工確認）";
       rule_canAutoFix := false |};
    {| rule_id := s16 "fake-button"; rule_taiwanCode := None;
       rule_wcagCode := s16 "2.1.1"; rule_level := A;
       rule_title := s16 "非語意互動元件需可鍵盤操作（role/tabindex/keydown）";
       rule_canAutoFix := false |} ].

(** ** The template

    [parseTemplate] reads the preferred wording of three placeholders from
    a template.

    [/<a\b[^>]*\btitle\s*=\s*[\x22']([^\x22']+)[\x22']/i], and the same for
    [img] with [alt] and [iframe] with [title]. *)
Definition re_templateAttr (tag attr : string) : pattern :=
  Pat true (lit "<" ⋅ lit tag ⋅ WordB ⋅ Star true notGt ⋅ WordB ⋅ lit attr
            ⋅ Star true space ⋅ lit "=" ⋅ Star true space
            ⋅ Set_ (oneOf [dq; sq]) ⋅ Grp 1 (plus (neg [dq; sq]))
            ⋅ Set_ (oneOf [dq; sq]))%re.

Record TemplatePrefs := {
  t_linkTitle : option str;
  t_imgAlt : option str;
  t_iframeTitle : option str
}.

(** [const m = template.match(re); if (m?.[1]) out.k = m[1].trim()] *)
Definition templateField (p : pattern) (template : str) : option str :=
  match match_ p template with
  | Some m =>
      match mgroup template m 1 with
      | Some g => if str_eqb g [] then None else Some (trim g)
      | None => None
      end
  | None => None
  end.

(** [parseTemplate(template?: string)]: [None] is [undefined]. *)
Definition parseTemplate (template : option str) : TemplatePrefs :=
  match template with
  | None => {| t_linkTitle := None; t_imgAlt := None; t_iframeTitle := None |}
  | Some t =>
      if str_eqb t []
      then {| t_linkTitle := None; t_imgAlt := None; t_iframeTitle := None |}
      else {| t_linkTitle := templateField (re_templateAttr "a" "title") t;
              t_imgAlt := templateField (re_templateAttr "img" "alt") t;
              t_iframeTitle := templateField (re_templateAttr "iframe" "title") t |}
  end.

(** ** Further notions used in the statements *)

(** [emits P m]: [m] only appends to the ledger, and what it appends
    satisfies [P]. *)
Definition emits {X} (P : AccessibilityIssue -> Prop) (m : M Ledger X) : Prop :=
  forall st,
    match m st with
    | Ok (_, st') => exists new, st' = st ++ new /\ Forall P new
    | _ => True
    end.

(** What a computation pushes on an empty ledger. *)
Definition pushedBy {X} (m : M Ledger X) : list AccessibilityIssue :=
  match m [] with
  | Ok (_, l) => l
  | _ => []
  end.

(** The place of a rule in the order of the passes: the image pass and the
    link pass, which both report [img-alt], count as one. *)
Definition stageOf (id : str) : nat :=
  if str_eqb id (s16 "frame-title") then 1
  else if str_eqb id (s16 "img-alt") || str_eqb id (s16 "link-text")
          || str_eqb id (s16 "link-title") || str_eqb id (s16 "link-new-window")
  then 2
  else if str_eqb id (s16 "table-row-header") then 3
  else if str_eqb id (s16 "th-scope") then 4
  else if str_eqb id (s16 "css-relative-units") then 5
  else if str_eqb id (s16 "css-style-tag") then 6
  else if str_eqb id (s16 "form-label") then 7
  else if str_eqb id (s16 "skip-link") then 8
  else if str_eqb id (s16 "color-contrast") then 9
  else if str_eqb id (s16 "fake-button") then 10
  else 0.

(** A ledger whose issues come in the order of the passes. *)
Definition inPassOrder (l : list AccessibilityIssue) : Prop :=
  forall i j a b,
    l !! i = Some a -> l !! j = Some b -> i < j ->
    stageOf (ruleId a) <= stageOf (ruleId b).

Definition level_eqb (a b : Level) : bool :=
  match a, b with
  | A, A | AA, AA | AAA, AAA => true
  | _, _ => false
  end.

(** The entry of the catalogue for a rule id. *)
Definition ruleMeta (id : str) : option BuiltInRuleMeta :=
  List.find (fun m => str_eqb (rule_id m) id) BUILT_IN_RULES.

(** An issue agrees with the catalogue: its rule is listed, with the same
    success criterion and level, the same Taiwan code when the catalogue
    gives one, and it is marked as fixed exactly when the rule can be fixed
    automatically. *)
Definition conforms (i : AccessibilityIssue) : bool :=
  match ruleMeta (ruleId i) with
  | Some m =>
      str_eqb (rule_wcagCode m) (wcagCode i)
      && level_eqb (rule_level m) (level i)
      && Bool.eqb (rule_canAutoFix m) (autoFixed i)
      && match rule_taiwanCode m with
         | Some c => str_eqb c (taiwanCode i)
         | None => true
         end
  | None => false
  end.

(** A fixed issue carries its fixed snippet; an issue that is not fixed
    carries none and is marked for review. *)
Definition reportShape (i : AccessibilityIssue) : bool :=
  match fixedSnippet i with
  | Some _ => autoFixed i
  | None => negb (autoFixed i) && needsManualReview i
  end.

(** What the passes guarantee for an issue of stage [k]. *)
Definition pushed (k : nat) (i : AccessibilityIssue) : Prop :=
  stageOf (ruleId i) = k /\ conforms i = true /\ reportShape i = true.

(** The passes that rewrite the text: 1 to 6. *)
Definition rewritingPasses {E} (config : value E) (html : str) : M Ledger str :=
  r <- frameTitlePass E config html ;;
  r <- imgAltPass E config r ;;
  r <- linkPass E config r ;;
  r <- rowHeaderPass E config r ;;
  r <- thScopePass E config r ;;
  r <- inlineStylePass E config r ;;
  styleBlockPass E config r.

(** The form controls found by the scan of the form-label pass, and the
    ids the labels of the text point to. *)
Definition controlTags (s : str) : list str :=
  map (mtext s) (matches re_control s).

Definition labelTargets (s : str) : gset str :=
  labelForSet (matches re_labelFor s) s.

Definition fieldId (tag : str) : str :=
  match getAttr tag "id" with Some t => trim t | None => [] end.

(** A control the form-label pass reports: it is not hidden, has no
    non-blank [aria-label] or [aria-labelledby], and no label points to its
    id. *)
Definition unlabelled {E : JsEnv} (labels : gset str) (tag : str) : bool :=
  negb (str_eqb (toLowerCase E (default [] (getAttr tag "type"))) (s16 "hidden"))
  && blank (getAttr tag "aria-label")
  && blank (getAttr tag "aria-labelledby")
  && negb (negb (str_eqb (fieldId tag) []) && bool_decide (fieldId tag ∈ labels)).

(** The condition of the skip-link pass. *)
Definition lacksSkipLink (s : str) : bool :=
  (test re_navHeader s || test re_main s)
  && negb (test re_skipAnchor s || test re_skipHref s).

(** The style attributes found by the scan of the color-contrast pass. *)
Definition colorStyles (s : str) : list str :=
  map (mtext s) (matches re_colorStyle s).

(** Locations. *)
Definition unlocated (i : AccessibilityIssue) : Prop :=
  line i = 0 /\ column i = 0 /\ startOffset i = 0 /\ endOffset i = 0.

Definition spansSnippet (html : str) (i : AccessibilityIssue) : Prop :=
  1 <= line i /\ 1 <= column i
  /\ startOffset i < endOffset i /\ endOffset i <= length html
  /\ slice (startOffset i) (endOffset i) html = originalSnippet i.

Definition location (i : AccessibilityIssue) : nat * nat * nat * nat :=
  (line i, column i, startOffset i, endOffset i).

(** A term without its capture groups, and two cursors at the same place. *)
Fixpoint ungroup (r : regex) : regex :=
  match r with
  | Seq r1 r2 => Seq (ungroup r1) (ungroup r2)
  | Alt r1 r2 => Alt (ungroup r1) (ungroup r2)
  | Grp _ r1 => ungroup r1
  | _ => r
  end.

Definition sameCursor (x y : mstate) : Prop :=
  ms_prev x = ms_prev y /\ ms_rest x = ms_rest y /\ ms_pos x = ms_pos y.

Definition sameOutcome (a b : option mstate) : Prop :=
  match a, b with
  | Some x, Some y => sameCursor x y
  | None, None => True
  | _, _ => False
  end.

Definition sameSpan (a b : option mres) : Prop :=
  match a, b with
  | Some m, Some m' => m_start m = m_start m' /\ m_end m = m_end m'
  | None, None => True
  | _, _ => False
  end.

(** A ledger in pass order whose issues are of the stages 1 to [k]. *)
Definition upto (k : nat) (st : Ledger) : Prop :=
  inPassOrder st /\ Forall (fun i => exists j, 1 <= j <= k /\ pushed j i) st.

(** [hoare Pre m Post]: from a ledger in [Pre], [m] leaves one in [Post]. *)
Definition hoare {X} (Pre : Ledger -> Prop) (m : M Ledger X)
    (Post : Ledger -> Prop) : Prop :=
  forall st, Pre st ->
    match m st with
    | Ok (_, st') => Post st'
    | _ => True
    end.

(** The issues the form-label callback pushes on the controls [tags]. *)
Definition formLabelIssues {E : JsEnv} (labels : gset str) (tags : list str)
    : list AccessibilityIssue :=
  concat (map (fun t => pushedBy (formLabelCb E labels t)) tags).

(** What the four report-only passes push on the text [s]. *)
Definition reportOnlyIssues {E} (config : value E) (s : str)
    : list AccessibilityIssue :=
  (if ruleEnabled E config (s16 "form-label")
   then formLabelIssues (E:=E) (labelTargets s) (controlTags s) else [])
  ++ pushedBy (skipLinkPass E config s)
  ++ (if ruleEnabled E config (s16 "color-contrast")
      then map colorIssue
             (take 5 (filter (fun t => test re_background t = false)
                        (colorStyles s)))
      else [])
  ++ (if ruleEnabled E config (s16 "fake-button")
      then map fakeButtonIssue
             (take 10 (filter (fun t => keyboardReady t = false)
                         (clickableTags s)))
      else []).

(** Two continuations that agree on cursors at the same place. *)
Definition sameCont (c c' : mstate -> option mstate) : Prop :=
  forall x y, sameCursor x y -> sameOutcome (c x) (c' y).

(** A continuation that succeeds on every cursor with [rest] left to
    read. *)
Definition accepts (cont : mstate -> option mstate) (rest : str) : Prop :=
  forall x, ms_rest x = rest -> cont x <> None.

(** On the flag [changed]: a computation that returns [a0] and leaves the
    flag as it is, or sets it; and one that never resets it. *)
Definition steady {X} (m : M bool X) (a0 : X) : Prop :=
  forall st a st', m st = Ok (a, st') -> (a = a0 /\ st' = st) \/ st' = true.

Definition rising {X} (m : M bool X) : Prop :=
  forall st a st', m st = Ok (a, st') -> st = true -> st' = true.

(** The declarations a conversion keeps: all but [width] when it is to be
    removed. *)
Definition keptProp {E} (removeWidth : value E) (p : str) : bool :=
  negb (truthy E removeWidth && str_eqb p (s16 "width")).

(** The fixed snippet of an issue carries the attribute [name]. *)
Definition fixedHasAttr (name : string) (i : AccessibilityIssue) : Prop :=
  exists f, fixedSnippet i = Some f /\ getAttr f name <> None.

(** A placeholder of the configuration, as a replacement text, has no
    dollar sign. *)
Definition plainPlaceholder {E} (config : value E) (k : string) (dflt : string)
    : Prop :=
  forall v,
    toStringV E (orFalsy E (pref E config k) (VStr (s16 dflt))) = Ok v ->
    (36%N : char) ∉ v.

(** What the fixes of the three attribute rules achieve. *)
Definition attrFixed {E} (config : value E) (i : AccessibilityIssue) : Prop :=
  (ruleId i = s16 "th-scope" -> fixedHasAttr "scope" i)
  /\ (ruleId i = s16 "img-alt" ->
      plainPlaceholder config "imgAlt" "（請補上圖片替代文字）" ->
      fixedHasAttr "alt" i)
  /\ (ruleId i = s16 "frame-title" ->
      plainPlaceholder config "iframeTitle" "（請補上頁框標題）" ->
      fixedHasAttr "title" i).

(** A text in which every whitespace unit is a plain space that is not
    followed by another whitespace unit. *)
Fixpoint singleSpaced (l : str) : bool :=
  match l with
  | [] => true
  | c :: r =>
      (if isSpace c
       then (c =? 32)%N
            && match r with d :: _ => negb (isSpace d) | [] => true end
       else true)
      && singleSpaced r
  end.

(** The first unit of a text, if any, is not whitespace. *)
Definition startsClean (l : str) : bool :=
  match l with c :: _ => negb (isSpace c) | [] => true end.

Definition endsClean (l : str) : bool := startsClean (rev l).

(** The wordings a template gave. *)
Definition templateFields (p : TemplatePrefs) : list str :=
  omap id [t_linkTitle p; t_imgAlt p; t_iframeTitle p].

(** [accounted s m]: the step [m] only appends to the ledger, and it returns
    the text [s] unless it appends. *)
Definition accounted (s : str) (m : M Ledger str) : Prop :=
  forall st,
    match m st with
    | Ok (r, st') => exists new, st' = st ++ new /\ (new = [] -> r = s)
    | _ => True
    end.

(** [announces m]: [m] appends at least one issue. *)
Definition announces {X} (m : M Ledger X) : Prop :=
  forall st,
    match m st with
    | Ok (_, st') => exists new, st' = st ++ new /\ new <> []
    | _ => True
    end.

(** [appends m]: [m] only appends to the ledger. *)
Definition appends {X} (m : M Ledger X) : Prop := emits (fun _ => True) m.

(** ** The report panel of the client

    [src/client/src/pages/home.tsx] groups the issues of a result by rule
    and flags, and lists the groups with their counts. *)

(** A boolean in a template literal. *)
Definition boolText (b : bool) : str :=
  if b then s16 "true" else s16 "false".

(** The key of the group of an issue: its rule id and its two flags, joined
    by hyphens. *)
Definition groupKey (issue : AccessibilityIssue) : str :=
  ruleId issue ++ s16 "-" ++ boolText (autoFixed issue)
  ++ s16 "-" ++ boolText (needsManualReview issue).

(** [AccessibilityIssue & { count: number }] *)
Record CountedIssue := {
  c_issue : AccessibilityIssue;
  c_count : nat
}.

(** The accumulator object of the [reduce]: its own properties in insertion
    order, which is the order of [Object.values].  A key ends in a boolean,
    so it is neither an array index nor a name that an empty object
    inherits. *)
Definition Groups := list (str * CountedIssue).

(** [acc[key]] *)
Fixpoint groupOf (key : str) (acc : Groups) : option CountedIssue :=
  match acc with
  | [] => None
  | (k, c) :: acc' => if str_eqb k key then Some c else groupOf key acc'
  end.

(** [acc[key].count++] *)
Fixpoint bumpCount (key : str) (acc : Groups) : Groups :=
  match acc with
  | [] => []
  | (k, c) :: acc' =>
      if str_eqb k key
      then (k, {| c_issue := c_issue c; c_count := S (c_count c) |}) :: acc'
      else (k, c) :: bumpCount key acc'
  end.

(** The callback of the [reduce]. *)
Definition groupStep (acc : Groups) (issue : AccessibilityIssue) : Groups :=
  let key := groupKey issue in
  let acc1 :=
    match groupOf key acc with
    | None => acc ++ [(key, {| c_issue := issue; c_count := 0 |})]
    | Some _ => acc
    end in
  bumpCount key acc1.

Definition groupedIssues (issues : list AccessibilityIssue) : Groups :=
  foldl groupStep [] issues.

(** [Object.values(groupedIssues).filter(i => i.autoFixed)] and the same
    for [needsManualReview]. *)
Definition fixedIssues (issues : list AccessibilityIssue) : list CountedIssue :=
  filter (fun c => autoFixed (c_issue c) = true) (map snd (groupedIssues issues)).

Definition manualIssues (issues : list AccessibilityIssue) : list CountedIssue :=
  filter (fun c => needsManualReview (c_issue c) = true)
    (map snd (groupedIssues issues)).

(** The counts of a list of groups, added up. *)
Definition countSum (l : list CountedIssue) : nat :=
  foldr (fun c n => c_count c + n) 0 l.

(** The counts of the groups whose issue satisfies [p], added up. *)
Definition tally (p : AccessibilityIssue -> bool) (acc : Groups) : nat :=
  countSum (filter (fun c => p (c_issue c) = true) (map snd acc)).

(** Every group is stored under the key of its issue. *)
Definition keyed (acc : Groups) : Prop :=
  Forall (fun kc => fst kc = groupKey (c_issue (snd kc))) acc.

(** A text without a tag, as [stripTags] sees tags: every [<] of the text
    is followed at once by [>], or by no [>] at all. *)
Fixpoint tagFree (l : str) : bool :=
  match l with
  | [] => true
  | c :: r =>
      (if (c =? 60)%N
       then match r with d :: _ => (d =? 62)%N | [] => false end
            || negb (bool_decide ((62%N : char) ∈ r))
       else true)
      && tagFree r
  end.

(** Every [<] of the text is followed at once by [>]. *)
Fixpoint paired (l : str) : bool :=
  match l with
  | [] => true
  | c :: r =>
      (if (c =? 60)%N
       then match r with d :: _ => (d =? 62)%N | [] => false end
       else true)
      && paired r
  end.

(** A text without angle brackets. *)
Definition angleFree (l : str) : Prop :=
  ((60%N : char) ∉ l) /\ ((62%N : char) ∉ l).

(** * Properties *)

(** ** The engine on concrete inputs *)

(** The scenarios A to D of the specification, run through the embedding. *)
Example scenarioA :
  exists r,
    repairHtml RefEnv.env (txt "<img src=`logo.png`>") VUndef = Ok r
    /\ repairedHtml r = txt "<img src=`logo.png` alt=`（請補上圖片替代文字）`>"
    /\ map (fun i => (ruleId i, autoFixed i, needsManualReview i)) (issues r)
       = [(s16 "img-alt", true, true)].
Proof. eexists. split; [|split]; vm_compute; reflexivity. Qed.

Example scenarioB :
  exists r,
    repairHtml RefEnv.env (txt "<a href=`/home`></a>") VUndef = Ok r
    /\ repairedHtml r
       = txt "<a href=`/home` title=`（請補上鏈結目的）`>（請補上鏈結文字）</a>"
    /\ map (fun i => (ruleId i, autoFixed i, needsManualReview i)) (issues r)
       = [(s16 "link-text", true, true)].
Proof. eexists. split; [|split]; vm_compute; reflexivity. Qed.

Example scenarioC :
  exists r,
    repairHtml RefEnv.env (txt "<p style=`font-size:16px;width:200px`>x</p>")
      VUndef = Ok r
    /\ repairedHtml r = txt "<p style=`font-size:1em`>x</p>"
    /\ map (fun i => (ruleId i, autoFixed i, needsManualReview i)) (issues r)
       = [(s16 "css-relative-units", true, false)].
Proof. eexists. split; [|split]; vm_compute; reflexivity. Qed.

Example scenarioD :
  exists r,
    repairHtml RefEnv.env (s16 "<th>Name</th>") VUndef = Ok r
    /\ repairedHtml r = txt "<th scope=`col`>Name</th>"
    /\ map (fun i => (ruleId i, autoFixed i, needsManualReview i)) (issues r)
       = [(s16 "th-scope", true, false)].
Proof. eexists. split; [|split]; vm_compute; reflexivity. Qed.

(** C1 (the code departs from the statement).  On scenario E with the default
    configuration the link pass reports one [link-new-window] issue marked
    as fixed, but the repaired text is the input: [addOrUpdateAttr] does not
    overwrite the non-empty title, which stays [說明] instead of becoming
    [在新視窗打開鏈結：說明]. *)
Theorem scenarioE_title_not_prepended :
  exists r,
    repairHtml RefEnv.env scenarioE VUndef = Ok r
    /\ repairedHtml r = scenarioE
    /\ getAttr (repairedHtml r) "title" = Some (s16 "說明")
    /\ map brief (issues r) = [(s16 "link-new-window", true, Some scenarioE)]
    /\ addOrUpdateAttr RefEnv.env
         (txt "<a href=`/x` target=`_blank` title=`說明`>") "title"
         (VStr (s16 "在新視窗打開鏈結：說明"))
       = Ok (txt "<a href=`/x` target=`_blank` title=`說明`>").
Proof.
  eexists. split; [vm_compute; reflexivity|].
  repeat split; vm_compute; reflexivity.
Qed.

(** C4 (the code departs from the statement).  Running the engine on its own
    output for scenario E: the rule [link-new-window], which emitted a fixed
    issue in the first run, emits the same fixed issue again in the second
    run, because the first run never wrote the hint. *)
Theorem scenarioE_rerun_fires_again :
  exists r r',
    repairHtml RefEnv.env scenarioE VUndef = Ok r
    /\ repairHtml RefEnv.env (repairedHtml r) VUndef = Ok r'
    /\ map brief (issues r) = [(s16 "link-new-window", true, Some scenarioE)]
    /\ map brief (issues r') = [(s16 "link-new-window", true, Some scenarioE)]
    /\ sum_autoFixed (summary r) = 1
    /\ sum_autoFixed (summary r') = 1.
Proof.
  do 2 eexists. split; [vm_compute; reflexivity|].
  split; [vm_compute; reflexivity|].
  repeat split; vm_compute; reflexivity.
Qed.

(** A second run can also fix more than the first one, with the default
    configuration: the title written by [link-title] is the link text, in
    which [$&] is expanded by the replacement, and the new attribute holds
    two image tags for the [img-alt] pass of the next run. *)
Example rerun_can_fix_more :
  let html := txt "<a href=`/x`><im<!---->g y$& <im<!---->g z</a>" in
  exists r r',
    repairHtml RefEnv.env html VUndef = Ok r
    /\ repairHtml RefEnv.env (repairedHtml r) VUndef = Ok r'
    /\ map ruleId (issues r) = [s16 "link-title"]
    /\ map ruleId (issues r') = [s16 "img-alt"; s16 "img-alt"]
    /\ sum_autoFixed (summary r) = 1
    /\ sum_autoFixed (summary r') = 2.
Proof.
  do 2 eexists. split; [vm_compute; reflexivity|].
  split; [vm_compute; reflexivity|].
  repeat split; vm_compute; reflexivity.
Qed.

(** The row pass promotes the next cell of a row on each run. *)
Example rerun_promotes_next_cell :
  let html := txt "<tr><td>A</td><td>B</td></tr>" in
  exists r r',
    repairHtml RefEnv.env html VUndef = Ok r
    /\ repairHtml RefEnv.env (repairedHtml r) VUndef = Ok r'
    /\ repairedHtml r = txt "<tr><th scope=`row`>A</th><td>B</td></tr>"
    /\ repairedHtml r' = txt "<tr><th scope=`row`>A</th><th scope=`row`>B</th></tr>"
    /\ map ruleId (issues r) = [s16 "table-row-header"]
    /\ map ruleId (issues r') = [s16 "table-row-header"].
Proof.
  do 2 eexists. split; [vm_compute; reflexivity|].
  split; [vm_compute; reflexivity|].
  repeat split; vm_compute; reflexivity.
Qed.

(** C6 (the code departs from the statement).  The tag [<a title='>] carries
    the attribute with the one-unit value ['] ([getAttr] reads it so), yet
    [addOrUpdateAttr] overwrites it: the callback removes a leading and a
    trailing quote from the matched value whether or not the value was
    quoted, and takes what is left for empty. *)
Theorem addOrUpdateAttr_overwrites_quote_value :
  getAttr (s16 "<a title='>") "title" = Some (s16 "'")
  /\ trim (s16 "'") <> []
  /\ addOrUpdateAttr RefEnv.env (s16 "<a title='>") "title" (VStr (s16 "X"))
     = Ok (txt "<a title=`X`>")
  /\ exists r,
       repairHtml RefEnv.env (s16 "<tr><td scope='>x</td></tr>") VUndef = Ok r
       /\ repairedHtml r = txt "<tr><th scope=`row`>x</th></tr>".
Proof.
  split; [vm_compute; reflexivity|].
  split; [vm_compute; discriminate|].
  split; [vm_compute; reflexivity|].
  eexists. split; vm_compute; reflexivity.
Qed.

(** ** The matcher *)

Section MatcherFacts.

Lemma reach_refl x : reach x x.
Proof. exists []. simpl. split; [done | lia]. Qed.

Lemma reach_trans x y z : reach x y -> reach y z -> reach x z.
Proof.
  intros (w1 & H1 & P1) (w2 & H2 & P2). exists (w1 ++ w2).
  rewrite H1, H2, <- app_assoc, length_app. split; [done | lia].
Qed.

Lemma reach_advance c r x : ms_rest x = c :: r -> reach x (advance c r x).
Proof. intros H. exists [c]. simpl. rewrite H. split; [done | lia]. Qed.

Lemma reach_pos x y : reach x y -> ms_pos x <= ms_pos y.
Proof. intros (w & _ & ->). lia. Qed.

Lemma reach_end x y : reach x y ->
  ms_pos y + length (ms_rest y) = ms_pos x + length (ms_rest x).
Proof. intros (w & -> & ->). rewrite length_app. lia. Qed.

Lemma orElse_Some {X} (a b : option X) y :
  orElse a b = Some y -> a = Some y \/ b = Some y.
Proof. destruct a; simpl; intros; [left | right]; done. Qed.

(** A successful repetition hands a later cursor to its continuation. *)
Lemma star_loop_reach ic g k cont rest : forall x y,
  ms_rest x = rest ->
  star_loop ic g k cont rest x = Some y ->
  exists x', cont x' = Some y /\ reach x x'.
Proof.
  induction rest as [|c r IH]; intros x y Hx H; simpl in H.
  - exists x. split; [done | apply reach_refl].
  - destruct (cls_mem ic k c).
    + assert (Hadv : reach x (advance c r x)) by by apply reach_advance.
      destruct g; apply orElse_Some in H as [H | H].
      * apply IH in H as (x' & ? & ?); [|done].
        exists x'. split; [done | by eapply reach_trans].
      * exists x. split; [done | apply reach_refl].
      * exists x. split; [done | apply reach_refl].
      * apply IH in H as (x' & ? & ?); [|done].
        exists x'. split; [done | by eapply reach_trans].
    + exists x. split; [done | apply reach_refl].
Qed.

(** A successful match hands a later cursor to its continuation. *)
Lemma rmatch_reach ic r : forall cont x y,
  rmatch ic r cont x = Some y ->
  exists x', cont x' = Some y /\ reach x x'.
Proof.
  induction r as [|k|r1 IH1 r2 IH2|r1 IH1 r2 IH2|g k|i r1 IH1| | |];
    intros cont x y H; simpl in H.
  - exists x. split; [done | apply reach_refl].
  - destruct (ms_rest x) as [|c rest] eqn:Hr; [done|].
    destruct (cls_mem ic k c); [|done].
    exists (advance c rest x). split; [done | by apply reach_advance].
  - apply IH1 in H as (x1 & H & R1). apply IH2 in H as (x2 & H & R2).
    exists x2. split; [done | by eapply reach_trans].
  - apply orElse_Some in H as [H | H]; [by apply IH1 | by apply IH2].
  - by eapply star_loop_reach.
  - apply IH1 in H as (x1 & H & R1).
    eexists. split; [exact H|].
    destruct R1 as (w & ? & ?). by exists w.
  - destruct (ms_prev x); [done|]. exists x. split; [done | apply reach_refl].
  - destruct (ms_rest x); [|done]. exists x. split; [done | apply reach_refl].
  - destruct (xorb _ _); [|done]. exists x. split; [done | apply reach_refl].
Qed.

(** A consuming term moves the cursor. *)
Lemma rmatch_consuming ic r : consuming r = true -> forall cont x y,
  rmatch ic r cont x = Some y ->
  exists x', cont x' = Some y /\ reach x x' /\ ms_pos x < ms_pos x'.
Proof.
  induction r as [|k|r1 IH1 r2 IH2|r1 IH1 r2 IH2|g k|i r1 IH1| | |];
    simpl; intros Hc cont x y H; try done.
  - destruct (ms_rest x) as [|c rest] eqn:Hr; [done|].
    destruct (cls_mem ic k c); [|done].
    exists (advance c rest x). split; [done|].
    split; [by apply reach_advance | simpl; lia].
  - destruct (consuming r1) eqn:C1.
    + apply IH1 in H as (x1 & H & R1 & L1); [|done].
      apply rmatch_reach in H as (x2 & H & R2).
      exists x2. split; [done|]. split; [by eapply reach_trans|].
      apply reach_pos in R2. lia.
    + simpl in Hc. apply rmatch_reach in H as (x1 & H & R1).
      apply IH2 in H as (x2 & H & R2 & L2); [|done].
      exists x2. split; [done|]. split; [by eapply reach_trans|].
      apply reach_pos in R1. lia.
  - apply andb_true_iff in Hc as [C1 C2].
    apply orElse_Some in H as [H | H]; [by apply IH1 | by apply IH2].
  - apply IH1 in H as (x1 & H & R1 & L1); [|done].
    eexists. split; [exact H|]. split; [|done].
    destruct R1 as (w & ? & ?). by exists w.
Qed.

(** The span of a match found by [search] lies in the scanned text. *)
Lemma search_bounds p : forall rest prev pos m,
  search p prev rest pos = Some m ->
  pos <= m_start m /\ m_start m <= m_end m /\ m_end m <= pos + length rest.
Proof.
  induction rest as [|c rest IH]; intros prev pos m H; simpl in H.
  - destruct (rmatch _ _ _ _) as [y|] eqn:Hm; [|done].
    injection H as <-. simpl.
    apply rmatch_reach in Hm as (x' & Hx & R). injection Hx as ->.
    pose proof (reach_pos _ _ R). pose proof (reach_end _ _ R).
    simpl in *. lia.
  - destruct (rmatch _ _ _ _) as [y|] eqn:Hm.
    + injection H as <-. simpl.
      apply rmatch_reach in Hm as (x' & Hx & R). injection Hx as ->.
      pose proof (reach_pos _ _ R). pose proof (reach_end _ _ R).
      simpl in *. lia.
    + apply IH in H. simpl. lia.
Qed.

Lemma search_nonempty p : consuming (pat_re p) = true ->
  forall rest prev pos m,
  search p prev rest pos = Some m -> m_start m < m_end m.
Proof.
  intros Hc. induction rest as [|c rest IH]; intros prev pos m H; simpl in H.
  - destruct (rmatch _ _ _ _) as [y|] eqn:Hm; [|done].
    injection H as <-. simpl.
    apply rmatch_consuming in Hm as (x' & Hx & R & L); [|done].
    by injection Hx as ->.
  - destruct (rmatch _ _ _ _) as [y|] eqn:Hm.
    + injection H as <-. simpl.
      apply rmatch_consuming in Hm as (x' & Hx & R & L); [|done].
      by injection Hx as ->.
    + by eapply IH.
Qed.

Lemma exec_bounds p s from m :
  exec p s from = Some m ->
  from <= m_start m /\ m_start m <= m_end m /\ m_end m <= length s.
Proof.
  unfold exec. destruct (decide (from <= length s)); [|done].
  intros H. apply search_bounds in H. rewrite length_drop in H. lia.
Qed.

Lemma exec_nonempty p s from m :
  consuming (pat_re p) = true -> exec p s from = Some m -> m_start m < m_end m.
Proof.
  unfold exec. destruct (decide (from <= length s)); [|done].
  intros Hc H. by eapply search_nonempty.
Qed.

(** The [exec] loop of a consuming pattern ends within the length of the
    subject. *)
Lemma execAll_terminates p s : consuming (pat_re p) = true ->
  forall fuel from,
  1 <= fuel -> length s + 1 <= from + fuel ->
  is_Some (execAll fuel p s from).
Proof.
  intros Hc. induction fuel as [|n IH]; intros from H1 H2; [lia|].
  simpl. destruct (exec p s from) as [m|] eqn:He; [|done].
  pose proof (exec_bounds _ _ _ _ He) as (? & ? & ?).
  pose proof (exec_nonempty _ _ _ _ Hc He).
  destruct (IH (m_end m)) as [l Hl]; [lia | lia|].
  rewrite Hl. done.
Qed.

Lemma execAll_total p s : consuming (pat_re p) = true ->
  is_Some (execAll (S (length s)) p s 0).
Proof. intros Hc. apply execAll_terminates; [done | lia | lia]. Qed.

(** The scan of a global replace needs no more fuel than the length of the
    subject plus one. *)
Lemma matches_from_fuel p s : forall n from,
  length s + 1 <= from + n ->
  forall m, n <= m -> matches_from m p s from = matches_from n p s from.
Proof.
  induction n as [|n IH]; intros from Hn m Hm.
  - assert (He : exec p s from = None).
    { unfold exec. destruct (decide (from <= length s)); [lia | done]. }
    destruct m; simpl; [done | by rewrite He].
  - destruct m as [|m]; [lia|]. simpl.
    destruct (exec p s from) as [r|] eqn:He; [|done].
    pose proof (exec_bounds _ _ _ _ He) as (? & ? & ?).
    f_equal. apply IH; [|lia].
    destruct (decide (m_end r = m_start r)); lia.
Qed.

Lemma matches_enough_fuel p s m :
  S (length s) <= m -> matches_from m p s 0 = matches p s.
Proof. intros H. apply matches_from_fuel; [lia | done]. Qed.

Lemma slice_app (s : str) a b c :
  a <= b -> b <= c -> slice a b s ++ slice b c s = slice a c s.
Proof.
  intros H1 H2. unfold slice.
  replace (drop b s) with (drop (b - a) (drop a s))
    by (rewrite drop_drop; f_equal; lia).
  rewrite take_take_drop. f_equal. lia.
Qed.

(** Replacing a match by its own text changes nothing. *)
Lemma splice_same (s : str) m :
  m_start m <= m_end m -> splice s 0 [(m, mtext s m)] = s.
Proof.
  intros H. simpl. unfold mtext. rewrite app_assoc, slice_app by lia.
  unfold slice. rewrite drop_0, Nat.sub_0_r. apply take_drop.
Qed.

End MatcherFacts.

(** ** The ledger through the passes *)

Section LedgerFacts.
Context {E : JsEnv}.
Variable P : AccessibilityIssue -> Prop.

Lemma preserves_ret {X} (a : X) : preserves P (ret a).
Proof. by intros st H. Qed.

Lemma preserves_lift {X} (r : Res X) : preserves P (lift r).
Proof. intros st H. unfold lift. by destruct r. Qed.

Lemma preserves_push i : P i -> preserves P (push i).
Proof.
  intros Hi st H. simpl. apply Forall_app. split; [done|]. by constructor.
Qed.

Lemma preserves_bind {X Y} (m : M Ledger X) (f : X -> M Ledger Y) :
  preserves P m -> (forall a, preserves P (f a)) -> preserves P (bind m f).
Proof.
  intros Hm Hf st H. unfold bind. specialize (Hm st H).
  destruct (m st) as [[a st']| |]; [|done|done]. by apply Hf.
Qed.

Lemma preserves_mapM {X Y} (f : X -> M Ledger Y) l :
  (forall a, preserves P (f a)) -> preserves P (mapM f l).
Proof.
  intros Hf. induction l as [|a l IH]; simpl.
  - apply preserves_ret.
  - apply preserves_bind; [apply Hf|]. intros b.
    apply preserves_bind; [apply IH|]. intros bs. apply preserves_ret.
Qed.

Lemma preserves_replaceAllM p (f : mres -> M Ledger str) s :
  (forall m, preserves P (f m)) -> preserves P (replaceAllM p f s).
Proof.
  intros Hf. unfold replaceAllM. apply preserves_bind.
  - apply preserves_mapM. intros m. apply preserves_bind; [apply Hf|].
    intros r. apply preserves_ret.
  - intros ms. apply preserves_ret.
Qed.

End LedgerFacts.

(** One step of a proof that a computation keeps the ledger within [P]. *)
Ltac preserve_step :=
  match goal with
  | |- preserves _ (bind _ _) => apply preserves_bind; [|intro]
  | |- preserves _ (ret _) => apply preserves_ret
  | |- preserves _ (lift _) => apply preserves_lift
  | |- preserves _ (replaceAllM _ _ _) => apply preserves_replaceAllM; intro
  | |- preserves _ (if ?b then _ else _) => destruct b eqn:?
  | |- preserves _ (match ?x with _ => _ end) => destruct x eqn:?
  | |- preserves _ (let _ := _ in _) => cbv zeta
  end.

Section PassFacts.
Context {E : JsEnv}.
Variable config : value E.

Lemma early_createIssue p :
  ruleEnabled E config (i_ruleId p) = true ->
  (i_autoFixed p = true -> is_Some (i_fixedSnippet p)) ->
  i_ruleId p <> s16 "fake-button" ->
  early config (createIssue p).
Proof. intros H1 H2 H3. repeat split; done. Qed.

Lemma sound_createIssue p :
  ruleEnabled E config (i_ruleId p) = true ->
  (i_autoFixed p = true -> is_Some (i_fixedSnippet p)) ->
  sound config (createIssue p).
Proof. intros H1 H2. repeat split; done. Qed.

(** A push of an issue of an enabled rule other than fake-button. *)
Ltac push_early :=
  apply preserves_push; try unfold newWindowIssue;
  apply early_createIssue; cbn [i_ruleId i_autoFixed i_fixedSnippet];
  [ assumption
  | first [ by intros _; eexists | by intros ? ]
  | let H := fresh in intros H; vm_compute in H; discriminate H ].

Ltac split_andb :=
  repeat match goal with
         | H : _ && _ = true |- _ => apply andb_true_iff in H as [? ?]
         end.

Lemma frameTitleCb_early tag :
  ruleEnabled E config (s16 "frame-title") = true ->
  preserves (early config) (frameTitleCb E config tag).
Proof.
  intros He. unfold frameTitleCb.
  repeat first [push_early | preserve_step].
Qed.

Lemma imgAltCb_early tag :
  ruleEnabled E config (s16 "img-alt") = true ->
  preserves (early config) (imgAltCb E config tag).
Proof.
  intros He. unfold imgAltCb.
  repeat first [push_early | preserve_step].
Qed.

Lemma imgInLinkCb_early tag :
  ruleEnabled E config (s16 "img-alt") = true ->
  preserves (early config) (imgInLinkCb E config tag).
Proof.
  intros He. unfold imgInLinkCb.
  repeat first [push_early | preserve_step].
Qed.

Lemma linkCb_early full : preserves (early config) (linkCb E config full).
Proof.
  unfold linkCb.
  repeat first
    [ apply imgInLinkCb_early; assumption
    | split_andb; push_early
    | preserve_step ].
Qed.

Lemma rowHeaderCb_early tr :
  ruleEnabled E config (s16 "table-row-header") = true ->
  preserves (early config) (rowHeaderCb E config tr).
Proof.
  intros He. unfold rowHeaderCb.
  repeat first [push_early | preserve_step].
Qed.

Lemma thScopeCb_early tag :
  ruleEnabled E config (s16 "th-scope") = true ->
  preserves (early config) (thScopeCb E tag).
Proof.
  intros He. unfold thScopeCb.
  repeat first [push_early | preserve_step].
Qed.

Lemma inlineStyleCb_early s m :
  ruleEnabled E config (s16 "css-relative-units") = true ->
  preserves (early config) (inlineStyleCb E config s m).
Proof.
  intros He. unfold inlineStyleCb.
  repeat first [push_early | preserve_step].
Qed.

Lemma styleBlockCb_early s m :
  ruleEnabled E config (s16 "css-style-tag") = true ->
  preserves (early config) (styleBlockCb E config s m).
Proof.
  intros He. unfold styleBlockCb.
  repeat first [push_early | preserve_step].
Qed.

Lemma formLabelCb_early labels tag :
  ruleEnabled E config (s16 "form-label") = true ->
  preserves (early config) (formLabelCb E labels tag).
Proof.
  intros He. unfold formLabelCb.
  repeat first [push_early | preserve_step].
Qed.

Lemma colorLoop_early s ms : forall warned,
  ruleEnabled E config (s16 "color-contrast") = true ->
  preserves (early config) (colorLoop s ms warned).
Proof.
  induction ms as [|m ms IH]; intros warned He; simpl.
  - apply preserves_ret.
  - repeat first [apply IH; assumption | unfold colorIssue; push_early
                 | preserve_step].
Qed.

(** The ledger after the passes that come before the fake-button pass. *)
Lemma passes1to9_early html :
  preserves (early config) (passes1to9 E config html).
Proof.
  unfold passes1to9, frameTitlePass, imgAltPass, linkPass, rowHeaderPass,
    thScopePass, inlineStylePass, styleBlockPass, formLabelPass, skipLinkPass,
    colorContrastPass.
  repeat first
    [ apply frameTitleCb_early; assumption
    | apply imgAltCb_early; assumption
    | apply linkCb_early
    | apply rowHeaderCb_early; assumption
    | apply thScopeCb_early; assumption
    | apply inlineStyleCb_early; assumption
    | apply styleBlockCb_early; assumption
    | apply formLabelCb_early; assumption
    | apply colorLoop_early; assumption
    | push_early
    | preserve_step ].
Qed.

End PassFacts.

(** ** The result of [repairHtml] *)

(** The loop of the fake-button pass pushes an issue for each tag that is
    not skipped, up to the tenth. *)
Lemma fakeButtonLoop_pushes s ms : forall count st,
  fakeButtonLoop s ms count st
  = Ok (tt, st ++ map fakeButtonIssue
                    (take (10 - count)
                       (filter (fun t => keyboardReady t = false)
                          (map (mtext s) ms)))).
Proof.
  induction ms as [|m ms IH]; intros count st; simpl.
  - rewrite filter_nil, take_nil. simpl. by rewrite app_nil_r.
  - rewrite filter_cons. destruct (keyboardReady (mtext s m)) eqn:Hk.
    + destruct (decide (true = false)) as [?|_]; [done|]. apply IH.
    + destruct (decide (false = false)) as [_|?]; [|done].
      destruct (decide (10 < S count)) as [Hc|Hc].
      * replace (10 - count) with 0 by lia. simpl. by rewrite app_nil_r.
      * unfold bind, push. rewrite IH.
        replace (10 - count) with (S (10 - S count)) by lia.
        simpl. by rewrite <- app_assoc.
Qed.

(** For a consuming pattern the [exec] loop visits the matches of a global
    scan. *)
Lemma execAll_matches_from p s : consuming (pat_re p) = true ->
  forall fuel from,
  1 <= fuel -> length s + 1 <= from + fuel ->
  execAll fuel p s from = Some (matches_from fuel p s from).
Proof.
  intros Hc. induction fuel as [|n IH]; intros from H1 H2; [lia|].
  simpl. destruct (exec p s from) as [m|] eqn:He; [|done].
  pose proof (exec_bounds _ _ _ _ He) as (? & ? & ?).
  pose proof (exec_nonempty _ _ _ _ Hc He).
  destruct (decide (m_end m = m_start m)); [lia|].
  rewrite IH by lia. done.
Qed.

Lemma execAll_matches p s : consuming (pat_re p) = true ->
  execAll (S (length s)) p s 0 = Some (matches p s).
Proof. intros Hc. apply execAll_matches_from; [done | lia | lia]. Qed.

Section ResultFacts.
Context {E : JsEnv}.
Variables (html : str) (config : value E).

Lemma fillLocation_ruleId i : ruleId (fillLocation html i) = ruleId i.
Proof. unfold fillLocation. repeat case_match; done. Qed.

Lemma fillLocation_autoFixed i : autoFixed (fillLocation html i) = autoFixed i.
Proof. unfold fillLocation. repeat case_match; done. Qed.

Lemma fillLocation_fixedSnippet i :
  fixedSnippet (fillLocation html i) = fixedSnippet i.
Proof. unfold fillLocation. repeat case_match; done. Qed.

Lemma fakeButtonPass_pushes s st :
  fakeButtonPass E config s st
  = Ok (tt, st ++ (if ruleEnabled E config (s16 "fake-button")
                   then map fakeButtonIssue
                          (take 10 (filter (fun t => keyboardReady t = false)
                                      (map (mtext s) (matches fakeBtnRe s))))
                   else [])).
Proof.
  unfold fakeButtonPass. destruct (ruleEnabled _ _ _).
  - rewrite execAll_matches by reflexivity. apply fakeButtonLoop_pushes.
  - unfold ret. by rewrite app_nil_r.
Qed.

Lemma fakeButtonIssue_sound t :
  ruleEnabled E config (s16 "fake-button") = true ->
  sound config (fakeButtonIssue t).
Proof. intros He. by apply sound_createIssue. Qed.

(** The shape of a result: the ledger of the passes 1 to 9, then the
    issues of the fake-button pass, each with its location filled. *)
Lemma repairHtml_inv r :
  repairHtml E html config = Ok r ->
  exists early_ledger,
    passes1to9 E config html [] = Ok (repairedHtml r, early_ledger)
    /\ Forall (early config) early_ledger
    /\ originalHtml r = html
    /\ issues r
       = map (fillLocation html)
           (early_ledger
            ++ (if ruleEnabled E config (s16 "fake-button")
                then map fakeButtonIssue
                       (take 10 (filter (fun t => keyboardReady t = false)
                                   (map (mtext (repairedHtml r))
                                      (matches fakeBtnRe (repairedHtml r)))))
                else []))
    /\ summary r
       = {| totalIssues := length (issues r);
            sum_autoFixed := length (filter (fun i => autoFixed i = true) (issues r));
            sum_needsManualReview :=
              length (filter (fun i => needsManualReview i = true) (issues r)) |}.
Proof.
  unfold repairHtml, passes. unfold bind at 1.
  pose proof (passes1to9_early config html [] (Forall_nil_2 _)) as Hearly.
  destruct (passes1to9 E config html []) as [[rep l1]| |]; [|done|done].
  unfold bind. rewrite fakeButtonPass_pushes. unfold ret.
  intros [= <-]. simpl. exists l1. done.
Qed.

End ResultFacts.

Section ResultProperties.
Context (E : JsEnv).

Lemma repairHtml_sound html (config : value E) r :
  repairHtml E html config = Ok r ->
  exists ledger,
    issues r = map (fillLocation html) ledger /\ Forall (sound config) ledger.
Proof.
  intros H. apply repairHtml_inv in H as (l1 & _ & He & _ & Hi & _).
  eexists. split; [exact Hi|]. apply Forall_app. split.
  - eapply Forall_impl; [exact He|]. by intros i [? _].
  - destruct (ruleEnabled E config (s16 "fake-button")) eqn:Hf; [|constructor].
    apply Forall_map, Forall_forall. intros t _. by apply fakeButtonIssue_sound.
Qed.

(** C8.  Every issue of a result that is marked as fixed carries its fixed
    snippet. *)
Theorem autoFixed_has_fixedSnippet html (config : value E) r :
  repairHtml E html config = Ok r ->
  Forall (fun i => autoFixed i = true -> is_Some (fixedSnippet i)) (issues r).
Proof.
  intros H. apply repairHtml_sound in H as (ledger & -> & Hs).
  apply Forall_map. eapply Forall_impl; [exact Hs|].
  intros i (_ & _ & _ & _ & _ & Hi). simpl.
  by rewrite fillLocation_autoFixed, fillLocation_fixedSnippet.
Qed.

(** C10.  The result keeps the input as [originalHtml], and its summary
    counts the issues, those marked as fixed and those marked for review. *)
Theorem result_summary_counts html (config : value E) r :
  repairHtml E html config = Ok r ->
  originalHtml r = html
  /\ totalIssues (summary r) = length (issues r)
  /\ sum_autoFixed (summary r)
     = length (filter (fun i => autoFixed i = true) (issues r))
  /\ sum_needsManualReview (summary r)
     = length (filter (fun i => needsManualReview i = true) (issues r)).
Proof.
  intros H. apply repairHtml_inv in H as (l1 & _ & _ & Ho & _ & ->). done.
Qed.

Lemma filter_early_fakeButton html (config : value E) l :
  Forall (early config) l ->
  filter (fun i => ruleId i = s16 "fake-button") (map (fillLocation html) l) = [].
Proof.
  induction 1 as [|i l [_ Hi] _ IH]; [done|].
  simpl. rewrite filter_cons, fillLocation_ruleId.
  by destruct (decide (ruleId i = s16 "fake-button")).
Qed.

Lemma filter_fakeButton_all html ts :
  filter (fun i => ruleId i = s16 "fake-button")
    (map (fillLocation html) (map fakeButtonIssue ts))
  = map (fun t => fillLocation html (fakeButtonIssue t)) ts.
Proof.
  induction ts as [|t ts IH]; [done|].
  simpl. rewrite filter_cons, fillLocation_ruleId.
  destruct (decide _) as [_|Hn]; [by rewrite IH | done].
Qed.

(** The fake-button issues of a result, as the loop computes them: those
    of the start tags found by the scan of the repaired text, in order,
    except the tags on which both the [role] test and the [tabindex] test
    succeed, and only the first ten of them; a tag on which one of the two
    tests fails is not skipped. *)
Theorem fake_button_issues html (config : value E) r :
  repairHtml E html config = Ok r ->
  let reported :=
    filter (fun i => ruleId i = s16 "fake-button") (issues r) in
  reported
  = (if ruleEnabled E config (s16 "fake-button")
     then map (fun t => fillLocation html (fakeButtonIssue t))
            (take 10 (filter (fun t => keyboardReady t = false)
                        (clickableTags (repairedHtml r))))
     else [])
  /\ length reported <= 10
  /\ (forall t, test re_roleButton t = false \/ test re_tabindex0 t = false ->
                keyboardReady t = false).
Proof.
  intros H reported. subst reported.
  apply repairHtml_inv in H as (l1 & _ & He & _ & -> & _).
  rewrite map_app, filter_app, (filter_early_fakeButton _ config) by done.
  simpl. split; [|split].
  - destruct (ruleEnabled E config (s16 "fake-button")); [|done].
    apply filter_fakeButton_all.
  - destruct (ruleEnabled E config (s16 "fake-button")); [|simpl; lia].
    rewrite filter_fakeButton_all, length_map, length_take. lia.
  - intros t [Ht | Ht]; unfold keyboardReady; rewrite Ht; [done|].
    apply andb_false_r.
Qed.

Lemma ruleEnabled_iff (config : value E) id :
  ruleEnabled E config id = true <->
  truthy E (prop E config "rules") = false
  \/ (arrIncludes E (disabledSet config) id = false
      /\ match enabledSet config with
         | Some l => arrIncludes E l id = true
         | None => True
         end).
Proof.
  unfold ruleEnabled, disabledSet, enabledSet.
  destruct (truthy E (prop E config "rules")); simpl; [|by split; auto].
  destruct (arrIncludes E _ id); simpl.
  - split; [done | by intros [? | [? _]]].
  - destruct (prop E (prop E config "rules") "enabled");
      split; intros; auto; by destruct H as [? | [_ ?]].
Qed.

Local Opaque stripTags linkNameOf test getAttr replaceFirstStr firstMatchOr
  blank replaceAllM addOrUpdateAttr mergedHint.

Lemma linkCb_skipped (config : value E) full :
  ruleEnabled E config (s16 "img-alt") = false ->
  ruleEnabled E config (s16 "link-title") = false ->
  ruleEnabled E config (s16 "link-new-window") = false ->
  anchorName full <> [] ->
  skipped (linkCb E config full) full.
Proof.
  intros H1 H2 H3 Hn st. unfold anchorName, anchorInner in Hn.
  unfold linkCb. cbv zeta. rewrite H1, H2, H3.
  destruct (negb (test re_aHref _)); [done|].
  unfold bind at 1. unfold ret at 1.
  destruct (str_eqb _ []) eqn:Hs.
  - apply bool_decide_eq_true in Hs. done.
  - rewrite !andb_false_r. simpl. reflexivity.
Qed.

Local Transparent stripTags linkNameOf test getAttr replaceFirstStr
  firstMatchOr blank replaceAllM addOrUpdateAttr mergedHint.


End ResultProperties.

(** ** Locations *)

Lemma startsWith_prefix p : forall s,
  startsWith p s = true <-> exists t, s = p ++ t.
Proof.
  induction p as [|a p IH]; intros s; simpl.
  - split; [by exists s | done].
  - destruct s as [|b s].
    + split; [done | by intros (t & ?)].
    + rewrite andb_true_iff, N.eqb_eq, IH. split.
      * intros [-> (t & ->)]. by exists t.
      * intros (t & [= -> ->]). split; [done | by exists t].
Qed.

Lemma occursAt_drop p s i :
  occursAt p s i <-> i <= length s /\ startsWith p (drop i s) = true.
Proof.
  rewrite startsWith_prefix. split.
  - intros (a & b & -> & <-). rewrite length_app. split; [lia|].
    exists b. by rewrite drop_app_length.
  - intros (Hi & t & Ht). exists (take i s), t. split.
    + by rewrite <- Ht, take_drop.
    + rewrite length_take. lia.
Qed.

Lemma indexOf_from_Some p : forall s i k,
  indexOf_from p s i = Some k ->
  exists j, k = i + j /\ j <= length s /\ startsWith p (drop j s) = true
            /\ forall j', j' < j -> startsWith p (drop j' s) = false.
Proof.
  induction s as [|c s IH]; intros i k H; simpl in H.
  - destruct (startsWith p []) eqn:Hp; [|done]. injection H as <-.
    exists 0. repeat split; [lia | simpl; lia | done | lia].
  - destruct (startsWith p (c :: s)) eqn:Hp.
    + injection H as <-. exists 0. repeat split; [lia | simpl; lia | done | lia].
    + apply IH in H as (j & -> & Hj & Hs & Hmin).
      exists (S j). repeat split; [lia | simpl; lia | done |].
      intros [|j'] Hlt; [done|]. simpl. apply Hmin. lia.
Qed.

Lemma indexOf_from_None p : forall s i,
  indexOf_from p s i = None ->
  forall j, j <= length s -> startsWith p (drop j s) = false.
Proof.
  induction s as [|c s IH]; intros i H j Hj; simpl in H.
  - destruct (startsWith p []) eqn:Hp; [done|].
    simpl in Hj. by replace j with 0 by lia.
  - destruct (startsWith p (c :: s)) eqn:Hp; [done|].
    destruct j as [|j]; [done|]. simpl. eapply IH; [done|]. simpl in Hj. lia.
Qed.

(** [indexOf] finds the first occurrence, and fails only when there is
    none. *)
Lemma indexOf_first p s k : indexOf p s = Some k -> firstOccurrence p s k.
Proof.
  intros H. apply indexOf_from_Some in H as (j & -> & Hj & Hs & Hmin).
  simpl. split.
  - apply occursAt_drop. done.
  - intros j' Hlt [_ Ho]%occursAt_drop. rewrite Hmin in Ho; done.
Qed.

Lemma indexOf_none p s : indexOf p s = None -> ~ occurs p s.
Proof.
  intros H (i & [Hi Ho]%occursAt_drop).
  by rewrite (indexOf_from_None _ _ _ H) in Ho.
Qed.

Lemma firstOccurrence_unique p s i j :
  firstOccurrence p s i -> firstOccurrence p s j -> i = j.
Proof.
  intros [Hi Hmi] [Hj Hmj].
  destruct (Nat.lt_trichotomy i j) as [?|[?|?]]; [|done|].
  - by destruct (Hmj i).
  - by destruct (Hmi j).
Qed.

Lemma split_on_nonempty sep s : split_on sep s <> [].
Proof. destruct s as [|c s]; simpl; [done|]. repeat case_match; done. Qed.

(** The lines of a text: the last one has no newline and follows the last
    newline. *)
Lemma split_on_last (l : str) :
  exists pre post,
    l = pre ++ post
    /\ (nl ∉ post)
    /\ (pre = [] \/ exists pre', pre = pre' ++ [nl])
    /\ last (split_on nl l) = Some post
    /\ length (split_on nl l) = S (length (filter (fun u => u = nl) pre)).
Proof.
  induction l as [|c r (pre & post & Hr & Hn & Hpre & Hlast & Hlen)]; simpl.
  - exists [], []. split_and!; [done | apply not_elem_of_nil | by left | done | done].
  - subst r.
    destruct (split_on nl (pre ++ post)) as [|p ps] eqn:Hs;
      [by destruct (split_on_nonempty nl (pre ++ post))|].
    destruct (c =? nl)%N eqn:Hc.
    + apply N.eqb_eq in Hc as ->.
      exists (nl :: pre), post. split_and!; [done | done | | done |].
      * right. destruct Hpre as [-> | (pre' & ->)];
          [by exists [] | by exists (nl :: pre')].
      * rewrite filter_cons, decide_True by done. simpl in Hlen |- *. lia.
    + apply N.eqb_neq in Hc.
      destruct ps as [|p' ps].
      * simpl in Hlast, Hlen. injection Hlast as <-.
        assert (pre = []) as ->.
        { destruct Hpre as [-> | (pre' & ->)]; [done|].
          rewrite filter_app, length_app, filter_cons, decide_True in Hlen
            by done.
          simpl in Hlen. lia. }
        exists [], (c :: p). split_and!; [done | | by left | done | done].
        intros [?|?]%elem_of_cons; [congruence | done].
      * exists (c :: pre), post. split_and!; [done | done | | done |].
        -- right. destruct Hpre as [-> | (pre' & ->)]; [|by exists (c :: pre')].
           simpl in Hlen. lia.
        -- rewrite filter_cons, decide_False by congruence.
           simpl in Hlen |- *. lia.
Qed.

Lemma computeLineCol_lineCol s idx :
  lineCol s idx (fst (computeLineCol s idx)) (snd (computeLineCol s idx)).
Proof.
  unfold computeLineCol. destruct (decide (idx <= 0)) as [H0|H0].
  - replace idx with 0 by lia. exists [], []. simpl.
    split_and!; [done | apply not_elem_of_nil | by left | done | done].
  - destruct (split_on_last (take idx s))
      as (pre & post & Hr & Hn & Hpre & Hlast & Hlen).
    exists pre, post. simpl. rewrite Hlast, Hlen. simpl.
    split_and!; [done.. | lia].
Qed.

Lemma fillLocation_fields html i :
  ruleId (fillLocation html i) = ruleId i
  /\ wcagCode (fillLocation html i) = wcagCode i
  /\ taiwanCode (fillLocation html i) = taiwanCode i
  /\ level (fillLocation html i) = level i
  /\ message (fillLocation html i) = message i
  /\ originalSnippet (fillLocation html i) = originalSnippet i
  /\ fixedSnippet (fillLocation html i) = fixedSnippet i
  /\ autoFixed (fillLocation html i) = autoFixed i
  /\ needsManualReview (fillLocation html i) = needsManualReview i
  /\ suggestion (fillLocation html i) = suggestion i.
Proof. unfold fillLocation. repeat case_match; done. Qed.

Lemma fillLocation_located html i :
  line i = 0 -> column i = 0 -> startOffset i = 0 -> endOffset i = 0 ->
  located html (fillLocation html i).
Proof.
  intros Hl Hc Hs He. unfold located, fillLocation.
  rewrite Hs, Hl. simpl.
  destruct (str_eqb (originalSnippet i) []) eqn:H1; simpl.
  { apply bool_decide_eq_true in H1. split; [done|].
    intros [Hd | Ho]; [done|]. destruct Ho. exists 0, [], html.
    rewrite H1. done. }
  destruct (str_eqb (originalSnippet i) (s16 "(document)")) eqn:H2; simpl.
  { apply bool_decide_eq_true in H2. split; [done | done]. }
  apply bool_decide_eq_false in H2.
  destruct (indexOf (originalSnippet i) html) as [k|] eqn:Hk; simpl.
  - apply indexOf_first in Hk. split.
    + intros _ _ idx Hidx.
      rewrite (firstOccurrence_unique _ _ _ _ Hidx Hk).
      repeat split. apply computeLineCol_lineCol.
    + intros [Hd | Ho]; [done|]. destruct Ho. exists k. apply Hk.
  - apply indexOf_none in Hk. split; [|done].
    intros _ _ idx [Ho _]. destruct Hk. by exists idx.
Qed.

Section Locations.
Context (E : JsEnv).

Lemma passes_sound html (config : value E) repaired ledger :
  passes E config html [] = Ok (repaired, ledger) ->
  Forall (sound config) ledger.
Proof.
  unfold passes. unfold bind at 1.
  pose proof (passes1to9_early config html [] (Forall_nil_2 _)) as He.
  destruct (passes1to9 E config html []) as [[rep l1]| |]; [|done|done].
  unfold bind. rewrite fakeButtonPass_pushes. unfold ret.
  intros [= <- <-]. apply Forall_app. split.
  - eapply Forall_impl; [exact He|]. by intros i [? _].
  - destruct (ruleEnabled E config (s16 "fake-button")) eqn:Hf; [|constructor].
    apply Forall_map, Forall_forall. intros t _. by apply fakeButtonIssue_sound.
Qed.

(** C9.  Once the passes have run, the call returns, and the issues of its
    result are the emitted issues, one for one and in order, each with its
    other fields as emitted and with its location resolved: an issue whose
    snippet is non-empty, is not [(document)] and occurs in the input has
    the offsets of the first occurrence of the snippet and the 1-based line
    and column of that offset; an issue whose snippet is [(document)] or
    does not occur has its location fields at zero. *)
Theorem locations_resolved html (config : value E) repaired ledger :
  passes E config html [] = Ok (repaired, ledger) ->
  exists r,
    repairHtml E html config = Ok r
    /\ repairedHtml r = repaired
    /\ Forall2 (fun e i => sameReport e i /\ located html i)
         ledger (issues r).
Proof.
  intros H. pose proof (passes_sound _ _ _ _ H) as Hs.
  unfold repairHtml. rewrite H. eexists. split; [done|].
  split; [done|]. cbn [issues].
  apply Forall2_fmap_r, Forall_Forall2_diag.
  eapply Forall_impl; [exact Hs|].
  intros e (? & ? & ? & ? & _). split; [apply fillLocation_fields|].
  by apply fillLocation_located.
Qed.

End Locations.

(** ** Padding compaction *)

Lemma str_eqb_eq (a b : str) : str_eqb a b = true <-> a = b.
Proof. apply bool_decide_eq_true. Qed.

Lemma str_eqb_neq (a b : str) : str_eqb a b = false <-> a <> b.
Proof. apply bool_decide_eq_false. Qed.

(** The map filled by the loop holds, for a padding side, its last
    declaration. *)
Lemma padMap_lookup k : startsWith (s16 "padding-") k = true ->
  forall ds (m : gmap str str),
  foldl (fun pad d =>
           if isPaddingSide d then <[d_prop d := d_value d]> pad else pad)
        m ds !! k
  = match sideValue k ds with Some v => Some v | None => m !! k end.
Proof.
  intros Hk. induction ds as [|d ds IH]; intros m; simpl; [done|].
  rewrite IH. destruct (sideValue k ds); [done|].
  destruct (str_eqb (d_prop d) k) eqn:Hd.
  - apply str_eqb_eq in Hd. unfold isPaddingSide. rewrite Hd, Hk.
    by rewrite lookup_insert_eq.
  - apply str_eqb_neq in Hd. destruct (isPaddingSide d); [|done].
    by rewrite lookup_insert_ne.
Qed.

Lemma presentVals_sideValues ds : presentVals ds = sideValues ds.
Proof.
  unfold presentVals, sideValues, padMap, padKeys.
  apply list_omap_ext.
  repeat (constructor;
          [rewrite padMap_lookup by (vm_compute; reflexivity);
           rewrite lookup_empty; by destruct (sideValue _ ds)|]).
  constructor.
Qed.

Lemma sideValue_has_side k ds :
  startsWith (s16 "padding-") k = true -> sideValue k ds <> None ->
  existsb isPaddingSide ds = true.
Proof.
  intros Hk. induction ds as [|d ds IH]; simpl; [done|].
  destruct (sideValue k ds).
  - intros _. rewrite IH by done. apply orb_true_r.
  - destruct (str_eqb (d_prop d) k) eqn:Hd; [|done].
    apply str_eqb_eq in Hd. intros _. unfold isPaddingSide at 1.
    by rewrite Hd, Hk.
Qed.

Lemma sideValues_has_side ds :
  sideValues ds <> [] -> existsb isPaddingSide ds = true.
Proof.
  unfold sideValues, padKeys. intros H.
  destruct (sideValue (s16 "padding-top") ds) eqn:H1;
    [apply (sideValue_has_side (s16 "padding-top")); [done | by rewrite H1]|].
  destruct (sideValue (s16 "padding-right") ds) eqn:H2;
    [apply (sideValue_has_side (s16 "padding-right")); [done | by rewrite H2]|].
  destruct (sideValue (s16 "padding-bottom") ds) eqn:H3;
    [apply (sideValue_has_side (s16 "padding-bottom")); [done | by rewrite H3]|].
  destruct (sideValue (s16 "padding-left") ds) eqn:H4;
    [apply (sideValue_has_side (s16 "padding-left")); [done | by rewrite H4]|].
  destruct H. simpl. by rewrite H1, H2, H3, H4.
Qed.

Lemma compressLoop_inserted v ds ch :
  compressLoop v ds true ch
  = (filter (fun x => isPaddingSide x = false) ds,
     ch || existsb isPaddingSide ds).
Proof.
  revert ch. induction ds as [|d ds IH]; intros ch; simpl.
  - by rewrite orb_false_r.
  - rewrite filter_cons. destruct (isPaddingSide d) eqn:Hd; simpl.
    + rewrite IH. destruct (decide (true = false)); [done|].
      by rewrite orb_true_r.
    + rewrite IH. by destruct (decide (false = false)).
Qed.

Lemma compressLoop_collapse v ds ch :
  compressLoop v ds false ch
  = (collapse v ds, ch || existsb isPaddingSide ds).
Proof.
  revert ch. induction ds as [|d ds IH]; intros ch; simpl.
  - by rewrite orb_false_r.
  - destruct (isPaddingSide d) eqn:Hd; simpl.
    + rewrite compressLoop_inserted. by rewrite orb_true_r.
    + by rewrite IH.
Qed.

Lemma allEqual_Forall vals :
  allEqual vals = true <-> Forall (fun w => w = default [] (head vals)) vals.
Proof.
  unfold allEqual. rewrite forallb_forall, Forall_forall.
  split; intros H w Hw.
  - apply str_eqb_eq, H. by apply list_elem_of_In.
  - apply str_eqb_eq, H. by apply list_elem_of_In.
Qed.

Lemma compactPadding_collapsible ds ch v :
  collapsible ds v -> compactPadding ds ch = (collapse v ds, true).
Proof.
  intros [Hlen Hall]. unfold compactPadding.
  rewrite presentVals_sideValues.
  destruct (decide (3 <= length (sideValues ds))); [|done].
  destruct (sideValues ds) as [|w ws] eqn:Hs; [simpl in Hlen; lia|].
  assert (w = v) as -> by by inversion Hall.
  assert (Ha : allEqual (v :: ws) = true) by by apply allEqual_Forall.
  rewrite Ha. simpl. rewrite compressLoop_collapse.
  rewrite sideValues_has_side by by rewrite Hs.
  by rewrite orb_true_r.
Qed.

Lemma compactPadding_kept ds ch :
  (forall v, ~ collapsible ds v) -> compactPadding ds ch = (ds, ch).
Proof.
  intros Hno. unfold compactPadding. rewrite presentVals_sideValues.
  destruct (decide (3 <= length (sideValues ds))) as [Hlen|]; [|done].
  destruct (allEqual (sideValues ds)) eqn:Ha; [|done].
  apply allEqual_Forall in Ha. by destruct (Hno _ (conj Hlen Ha)).
Qed.

Section Compaction.
Context (E : JsEnv).

(** C3, as the code has it.  After the unit conversion,
    [normalizeInlineStyle] replaces the padding-* declarations by a single
    [padding] declaration, put where the first padding-* declaration was,
    when the four sides have a non-empty value and these values are the same
    text; when fewer than three sides are present, or the values present
    are not all the same text, the declarations are kept as they are. *)
Theorem padding_compaction style (basePx removeWidth : value E) converted changed :
  style <> [] ->
  convertedDecls E style basePx removeWidth = Ok (converted, changed) ->
  (forall v,
     sidesPresent converted = 4 ->
     Forall (fun w => w = v) (sideValues converted) ->
     normalizeInlineStyle E style basePx removeWidth
     = Ok (renderDecls (collapse v converted), true))
  /\ (sidesPresent converted < 3
      \/ ~ (exists v, Forall (fun w => w = v) (sideValues converted)) ->
      normalizeInlineStyle E style basePx removeWidth
      = Ok (renderDecls converted, changed)).
Proof.
  intros Hs Hc. unfold normalizeInlineStyle, sidesPresent.
  apply str_eqb_neq in Hs. rewrite Hs, Hc.
  split.
  - intros v Hlen Hall.
    rewrite (compactPadding_collapsible _ _ v); [done|].
    split; [lia | done].
  - intros Hno. rewrite compactPadding_kept; [done|].
    intros v [Hlen Hall]. destruct Hno as [Hlt | Hne]; [lia|].
    apply Hne. by exists v.
Qed.

End Compaction.

(** ** Totality *)

Section TotalFacts.
Context {S : Type}.

Lemma total_ret {X} (a : X) : total (S:=S) (ret a).
Proof. intros st. by exists a, st. Qed.

Lemma total_lift {X} (r : Res X) : returns r -> total (S:=S) (lift r).
Proof. intros [a ->] st. by exists a, st. Qed.

Lemma total_bind {X Y} (m : M S X) (f : X -> M S Y) :
  total m -> (forall a, total (f a)) -> total (bind m f).
Proof.
  intros Hm Hf st. destruct (Hm st) as (a & st' & Ha).
  unfold bind. rewrite Ha. apply Hf.
Qed.

Lemma total_mapM {X Y} (f : X -> M S Y) l :
  (forall a, total (f a)) -> total (mapM f l).
Proof.
  intros Hf. induction l as [|a l IH]; simpl.
  - apply total_ret.
  - apply total_bind; [apply Hf|]. intros b.
    apply total_bind; [apply IH|]. intros bs. apply total_ret.
Qed.

Lemma total_replaceAllM p (f : mres -> M S str) s :
  (forall m, total (f m)) -> total (replaceAllM p f s).
Proof.
  intros Hf. unfold replaceAllM. apply total_bind.
  - apply total_mapM. intros m. apply total_bind; [apply Hf|].
    intros r. apply total_ret.
  - intros ms. apply total_ret.
Qed.

End TotalFacts.

Lemma total_push i : total (push i).
Proof. intros st. by eexists _, _. Qed.

Lemma total_put (b : bool) : total (put b).
Proof. intros st. by eexists _, _. Qed.

Lemma returns_Ok {X} (a : X) : returns (Ok a).
Proof. by exists a. Qed.

Lemma returns_rbind {X Y} (r : Res X) (f : X -> Res Y) :
  returns r -> (forall a, returns (f a)) -> returns (rbind r f).
Proof. intros [a ->] Hf. apply Hf. Qed.

Ltac total_step :=
  match goal with
  | |- total (bind _ _) => apply total_bind; [|intro]
  | |- total (ret _) => apply total_ret
  | |- total (push _) => apply total_push
  | |- total setChanged => apply total_put
  | |- total (lift _) => apply total_lift
  | |- total (replaceAllM _ _ _) => apply total_replaceAllM; intro
  | |- total (if ?b then _ else _) => destruct b eqn:?
  | |- total (match ?x with _ => _ end) => destruct x eqn:?
  | |- returns (Ok _) => apply returns_Ok
  | |- returns (rbind _ _) => apply returns_rbind; [|intro]
  | |- returns (if ?b then _ else _) => destruct b eqn:?
  | |- returns (match ?x with _ => _ end) => destruct x eqn:?
  end.

Section Typed.
Context {E : JsEnv}.
Variable config : value E.
Hypothesis Htyped : typedConfig config = true.

Lemma typed_facts :
  strOrAbsent (pref E config "linkTitle") = true
  /\ strOrAbsent (pref E config "linkText") = true
  /\ strOrAbsent (pref E config "linkEmptyTitle") = true
  /\ strOrAbsent (pref E config "imgAlt") = true
  /\ strOrAbsent (pref E config "iframeTitle") = true
  /\ strOrAbsent (pref E config "newWindowHint") = true
  /\ numOrAbsent (prop E config "basePx") = true.
Proof using Htyped.
  pose proof Htyped as H. unfold typedConfig in H.
  rewrite !andb_true_iff in H. by destruct H as [[[[[[? ?] ?] ?] ?] ?] ?].
Qed.

Lemma orFalsy_string (v : value E) d :
  strOrAbsent v = true -> exists s, orFalsy E v (VStr d) = VStr s.
Proof.
  unfold orFalsy. destruct v; simpl; try done; intros _; eauto.
  destruct (negb _); eauto.
Qed.

Lemma basePxOf_number : exists n, basePxOf E config = VNum n.
Proof using Htyped.
  destruct typed_facts as (_ & _ & _ & _ & _ & _ & H).
  unfold basePxOf, orNullish. destruct (prop E config "basePx"); simpl in *;
    try done; eauto.
Qed.

Lemma returns_toStringV_string s : returns (toStringV E (VStr s)).
Proof. by exists s. Qed.

Lemma returns_addOrUpdateAttr tag name (v : value E) :
  returns (toStringV E v) -> returns (addOrUpdateAttr E tag name v).
Proof.
  intros [s Hs]. unfold addOrUpdateAttr. rewrite Hs. simpl.
  repeat total_step.
Qed.

Lemma returns_emFromPx px n : returns (emFromPx E px (VNum n)).
Proof. unfold emFromPx. simpl. apply returns_Ok. Qed.

Lemma total_convertDecls n removeWidth ds :
  total (convertDecls E (VNum n) removeWidth ds).
Proof.
  unfold convertDecls. apply total_bind; [|intro; apply total_ret].
  apply total_mapM. intros d. unfold convertDecl, convertPx, convertPt, convertRem.
  repeat first [apply returns_emFromPx | total_step].
Qed.

Lemma returns_normalizeInlineStyle style n removeWidth :
  returns (normalizeInlineStyle E style (VNum n) removeWidth).
Proof.
  unfold normalizeInlineStyle. destruct (str_eqb style []); [apply returns_Ok|].
  unfold convertedDecls. simpl.
  destruct (total_convertDecls n (orDefault E removeWidth (VBool true))
              (parseDecls E style) false)
    as (ds & ch & ->).
  destruct (compactPadding ds ch). apply returns_Ok.
Qed.

Lemma returns_convertCss css : returns (convertCss E config css).
Proof using Htyped.
  unfold convertCss. destruct basePxOf_number as [n ->].
  match goal with
  | |- context [replaceAllM ?p ?f ?s ?st] =>
      assert (Ht : total (replaceAllM p f s))
  end.
  { repeat first [apply returns_emFromPx | total_step]. }
  destruct (Ht tt) as (r & st' & ->). simpl. apply returns_Ok.
Qed.

Lemma returns_mergedHint name : returns (mergedHint E config name).
Proof using Htyped.
  destruct typed_facts as (_ & _ & _ & _ & _ & H & _).
  unfold mergedHint.
  destruct (orFalsy_string _ (s16 "在新視窗打開鏈結") H) as [s ->].
  simpl. apply returns_Ok.
Qed.

Local Opaque stripTags linkNameOf test getAttr replaceFirstStr firstMatchOr
  blank addOrUpdateAttr mergedHint normalizeInlineStyle convertCss
  replaceText matches splice labelForSet.

(** The placeholder read at the head of the goal is a string. *)
Ltac placeholder_string :=
  match goal with
  | |- context [orFalsy E (pref E config ?k) (VStr ?d)] =>
      let s := fresh "s" in
      let Hs := fresh "Hs" in
      destruct (orFalsy_string (pref E config k) d) as [s Hs];
      [assumption | rewrite Hs]
  end.

Ltac returns_step :=
  match goal with
  | |- returns (addOrUpdateAttr _ _ _ (VStr _)) =>
      apply returns_addOrUpdateAttr, returns_toStringV_string
  | |- returns (toStringV _ (VStr _)) => apply returns_toStringV_string
  | |- returns (includesV _ (VStr _) _) => apply returns_Ok
  | |- returns (mergedHint _ _ _) => apply returns_mergedHint
  | |- returns (convertCss _ _ _) => apply returns_convertCss
  | |- returns (normalizeInlineStyle _ _ (basePxOf _ _) _) =>
      let n := fresh "n" in
      let Hn := fresh "Hn" in
      destruct basePxOf_number as [n Hn]; rewrite Hn;
      apply returns_normalizeInlineStyle
  end.

Ltac total_auto := repeat first [placeholder_string | returns_step | total_step].

Lemma total_frameTitleCb tag : total (frameTitleCb E config tag).
Proof using Htyped.
  destruct typed_facts as (? & ? & ? & ? & ? & ? & ?).
  unfold frameTitleCb. cbv zeta. total_auto.
Qed.

Lemma total_imgAltCb tag : total (imgAltCb E config tag).
Proof using Htyped.
  destruct typed_facts as (? & ? & ? & ? & ? & ? & ?).
  unfold imgAltCb. cbv zeta. total_auto.
Qed.

Lemma total_imgInLinkCb tag : total (imgInLinkCb E config tag).
Proof using Htyped.
  destruct typed_facts as (? & ? & ? & ? & ? & ? & ?).
  unfold imgInLinkCb. cbv zeta. total_auto.
Qed.

Lemma total_titleText linkName :
  total (S:=Ledger)
    (let lt := pref E config "linkTitle" in
     if truthy E lt then
       match lt with
       | VStr t => ret (replaceAllStr re_textSlot linkName t)
       | _ => lift Throw
       end
     else ret linkName).
Proof using Htyped.
  destruct typed_facts as (H & _). cbv zeta.
  destruct (pref E config "linkTitle"); simpl in *; try done;
    repeat total_step.
Qed.

Lemma total_linkCb full : total (linkCb E config full).
Proof using Htyped.
  destruct typed_facts as (? & ? & ? & ? & ? & ? & ?).
  unfold linkCb. cbv zeta.
  repeat first
    [ apply total_imgInLinkCb
    | apply (total_titleText)
    | placeholder_string | returns_step | total_step ].
Qed.

Lemma total_rowHeaderCb tr : total (rowHeaderCb E config tr).
Proof using Htyped.
  unfold rowHeaderCb. cbv zeta. total_auto.
Qed.

Lemma total_thScopeCb tag : total (thScopeCb E tag).
Proof. unfold thScopeCb. cbv zeta. total_auto. Qed.

Lemma total_inlineStyleCb s m : total (inlineStyleCb E config s m).
Proof using Htyped. unfold inlineStyleCb. cbv zeta. total_auto. Qed.

Lemma total_styleBlockCb s m : total (styleBlockCb E config s m).
Proof using Htyped. unfold styleBlockCb. cbv zeta. total_auto. Qed.

Lemma total_formLabelCb labels tag : total (formLabelCb E labels tag).
Proof. unfold formLabelCb. cbv zeta. total_auto. Qed.

Lemma total_colorLoop s ms : forall warned, total (colorLoop s ms warned).
Proof.
  induction ms as [|m ms IH]; intros warned; simpl; [apply total_ret|].
  repeat first [apply IH | total_step].
Qed.

Lemma total_fakeButtonLoop s ms : forall count, total (fakeButtonLoop s ms count).
Proof.
  induction ms as [|m ms IH]; intros count; simpl; [apply total_ret|].
  repeat first [apply IH | total_step].
Qed.

(** With a typed configuration the passes return. *)
Lemma total_passes html : total (passes E config html).
Proof using Htyped.
  unfold passes, passes1to9, frameTitlePass, imgAltPass, linkPass,
    rowHeaderPass, thScopePass, inlineStylePass, styleBlockPass,
    formLabelPass, skipLinkPass, colorContrastPass, fakeButtonPass.
  repeat first
    [ apply total_frameTitleCb
    | apply total_imgAltCb
    | apply total_linkCb
    | apply total_rowHeaderCb
    | apply total_thScopeCb
    | apply total_inlineStyleCb
    | apply total_styleBlockCb
    | apply total_formLabelCb
    | apply total_colorLoop
    | apply total_fakeButtonLoop
    | match goal with
      | |- context [execAll (Datatypes.S (length ?s)) ?p ?s 0] =>
          let ms := fresh "ms" in
          let Hms := fresh "Hms" in
          destruct (execAll_total p s eq_refl) as [ms Hms]; rewrite Hms
      end
    | total_step ].
Qed.

End Typed.

Section Totality.
Context (E : JsEnv).


End Totality.

(** ** Attributes *)

Section AttributeFacts.
Context (E : JsEnv).

(** What [addOrUpdateAttr] keeps: when the pattern finds the attribute and
    the matched value, without one leading and one trailing quote, is not
    blank, the tag is returned as it is, whatever the new value. *)
Lemma addOrUpdateAttr_keeps tag name (v : value E) m :
  match_ (re_attrSet (s16 name)) tag = Some m ->
  trim (rawValue (mtext tag m)) <> [] ->
  addOrUpdateAttr E tag name v = Ok tag.
Proof.
  intros Hm Hraw. unfold addOrUpdateAttr, test.
  unfold match_ in Hm |- *. rewrite Hm.
  rewrite bool_decide_eq_true_2 by by eexists.
  unfold str_eqb. rewrite (bool_decide_eq_false_2 _ Hraw). simpl.
  apply exec_bounds in Hm as (_ & Hle & _).
  pose proof (splice_same tag m Hle) as Hs. simpl in Hs. by rewrite Hs.
Qed.

(** When the pattern does not find the attribute, it is appended before
    the closing bracket. *)
Lemma addOrUpdateAttr_appends tag name s :
  match_ (re_attrSet (s16 name)) tag = None ->
  addOrUpdateAttr E tag name (VStr s)
  = Ok (replaceFirstStr re_gtEnd (attrText name s ++ s16 ">") tag).
Proof.
  intros Hm. unfold addOrUpdateAttr, test. unfold match_ in Hm. rewrite Hm.
  rewrite bool_decide_eq_false_2; [done|]. by intros [? ?].
Qed.

End AttributeFacts.

(** ** Instances of the general statements *)

Lemma autoFixed_has_fixedSnippet_witness :
  exists r,
    repairHtml RefEnv.env scenarioE VUndef = Ok r
    /\ Forall (fun i => autoFixed i = true -> is_Some (fixedSnippet i)) (issues r).
Proof.
  eexists. split; [vm_compute; reflexivity|].
  apply (autoFixed_has_fixedSnippet RefEnv.env scenarioE VUndef).
  vm_compute; reflexivity.
Defined.

Lemma result_summary_counts_witness :
  exists r,
    repairHtml RefEnv.env scenarioE VUndef = Ok r
    /\ originalHtml r = scenarioE
    /\ totalIssues (summary r) = length (issues r)
    /\ sum_autoFixed (summary r)
       = length (filter (fun i => autoFixed i = true) (issues r))
    /\ sum_needsManualReview (summary r)
       = length (filter (fun i => needsManualReview i = true) (issues r)).
Proof.
  eexists. split; [vm_compute; reflexivity|].
  apply (result_summary_counts RefEnv.env scenarioE VUndef).
  vm_compute; reflexivity.
Defined.

Lemma locations_resolved_witness :
  let html := s16 "<nav>x</nav>" ++ [nl] ++ txt "<p><img src=`a`></p>" in
  exists repaired ledger r,
    passes RefEnv.env VUndef html [] = Ok (repaired, ledger)
    /\ repairHtml RefEnv.env html VUndef = Ok r
    /\ repairedHtml r = repaired
    /\ Forall2 (fun e i => sameReport e i /\ located html i) ledger (issues r)
    /\ map (fun e => (originalSnippet e, location e)) ledger
       = [(txt "<img src=`a`>", (0, 0, 0, 0)); (s16 "(document)", (0, 0, 0, 0))]
    /\ map (fun i => (originalSnippet i, location i)) (issues r)
       = [(txt "<img src=`a`>", (2, 4, 16, 29)); (s16 "(document)", (0, 0, 0, 0))].
Proof.
  intros html.
  destruct (passes RefEnv.env VUndef html []) as [[repaired ledger]| |] eqn:Hp;
    [|vm_compute in Hp; discriminate Hp|vm_compute in Hp; discriminate Hp].
  destruct (locations_resolved RefEnv.env html VUndef repaired ledger Hp)
    as (r & Hr & Hrep & HF).
  exists repaired, ledger, r.
  split; [reflexivity|]. split; [exact Hr|]. split; [exact Hrep|].
  split; [exact HF|].
  clear HF Hrep. vm_compute in Hp. injection Hp as <- <-.
  vm_compute in Hr. injection Hr as <-.
  split; vm_compute; reflexivity.
Defined.

Lemma fake_button_issues_witness :
  let html := txt "<div onclick=`f()`>x</div><span onclick=f role=`button` tabindex=0>y</span>" in
  exists r,
    repairHtml RefEnv.env html VUndef = Ok r
    /\ filter (fun i => ruleId i = s16 "fake-button") (issues r)
       = map (fun t => fillLocation html (fakeButtonIssue t))
           [txt "<div onclick=`f()`>"]
    /\ length (filter (fun i => ruleId i = s16 "fake-button") (issues r)) <= 10.
Proof.
  intros html. eexists. split; [vm_compute; reflexivity|].
  match goal with
  | |- context [issues ?r] =>
      destruct (fake_button_issues RefEnv.env html VUndef r) as (H1 & H2 & _);
        [vm_compute; reflexivity|]
  end.
  split; [|exact H2]. rewrite H1. vm_compute; reflexivity.
Defined.


Lemma padding_compaction_witness :
  let sixteen : value RefEnv.env := VNum (numOfNat RefEnv.env 16) in
  let style :=
    s16 "color:red;padding-top:16px;padding-right:1em;margin:0;padding-bottom:12pt;padding-left:1em" in
  let converted :=
    [Decl (s16 "color") (s16 "red"); Decl (s16 "padding-top") (s16 "1em");
     Decl (s16 "padding-right") (s16 "1em"); Decl (s16 "margin") (s16 "0");
     Decl (s16 "padding-bottom") (s16 "1em");
     Decl (s16 "padding-left") (s16 "1em")] in
  normalizeInlineStyle RefEnv.env style sixteen (VBool true)
  = Ok (renderDecls (collapse (s16 "1em") converted), true)
  /\ renderDecls (collapse (s16 "1em") converted)
     = s16 "color:red; padding:1em; margin:0".
Proof.
  intros sixteen style converted.
  split; [|vm_compute; reflexivity].
  destruct (padding_compaction RefEnv.env style sixteen (VBool true)
              converted true) as (H & _).
  - vm_compute; discriminate.
  - vm_compute; reflexivity.
  - apply H; [vm_compute; reflexivity | vm_compute; repeat constructor].
Defined.


(** ** Inputs on which the code departs from a statement *)


(** The loop skips a tag only when both tests succeed: a [div] with
    [onclick] and [role="button"] but no [tabindex] is reported. *)
Lemma fake_button_with_role_is_reported :
  let tag := txt "<div onclick=`f()` role=`button`>" in
  test re_roleButton tag = true
  /\ test re_tabindex0 tag = false
  /\ exists r,
       repairHtml RefEnv.env (tag ++ s16 "x</div>") VUndef = Ok r
       /\ map (fun i => (ruleId i, originalSnippet i)) (issues r)
          = [(s16 "fake-button", tag)].
Proof.
  intros tag.
  split; [vm_compute; reflexivity|].
  split; [vm_compute; reflexivity|].
  eexists. split; vm_compute; reflexivity.
Qed.

(** C5 (the code departs from the statement).  A [div] with [onclick] that
    has both [role="button"] and [tabindex="0"], written as the statement
    and the suggestion of the issue write them, is reported all the same:
    the [tabindex] test ends in a word boundary, which never holds between
    a closing quote and the space, the [>] or the end after it, so the test
    fails on the quoted value, double or single, and succeeds on the
    unquoted [tabindex=0] only. *)
Theorem fake_button_quoted_tabindex_is_reported :
  let tag := txt "<div onclick=`f()` role=`button` tabindex=`0`>" in
  test re_roleButton tag = true
  /\ test re_tabindex0 tag = false
  /\ keyboardReady tag = false
  /\ test re_tabindex0 (s16 "<div onclick='f()' role='button' tabindex='0'>")
     = false
  /\ keyboardReady (txt "<div onclick=`f()` role=`button` tabindex=0>") = true
  /\ (exists r,
        repairHtml RefEnv.env (tag ++ s16 "x</div>") VUndef = Ok r
        /\ map (fun i => (ruleId i, originalSnippet i)) (issues r)
           = [(s16 "fake-button", tag)])
  /\ (exists r,
        repairHtml RefEnv.env
          (txt "<div onclick=`f()` role=`button` tabindex=0>x</div>") VUndef
        = Ok r
        /\ issues r = []).
Proof.
  intros tag.
  split; [vm_compute; reflexivity|].
  split; [vm_compute; reflexivity|].
  split; [vm_compute; reflexivity|].
  split; [vm_compute; reflexivity|].
  split; [vm_compute; reflexivity|].
  split; eexists; split; vm_compute; reflexivity.
Qed.


(** C3 (where the statement fails).  Three equal padding declarations are
    collapsed although the fourth is absent; and four declarations whose
    values are equal as numbers but differ as text are not. *)
Lemma three_paddings_are_collapsed :
  let sixteen : value RefEnv.env := VNum (numOfNat RefEnv.env 16) in
  normalizeInlineStyle RefEnv.env
    (s16 "padding-top:1em;padding-right:1em;padding-bottom:1em")
    sixteen (VBool true)
  = Ok (s16 "padding:1em", true)
  /\ normalizeInlineStyle RefEnv.env
       (s16 "padding-top:1em;padding-right:1.0em;padding-bottom:1em;padding-left:1em")
       sixteen (VBool true)
     = Ok (s16 "padding-top:1em; padding-right:1.0em; padding-bottom:1em; padding-left:1em",
           false).
Proof. intros sixteen. split; vm_compute; reflexivity. Qed.

(** * Further properties *)

(** ** What the passes append to the ledger *)

Section EmitFacts.
Variable P : AccessibilityIssue -> Prop.

Lemma emits_ret {X} (a : X) : emits P (ret a).
Proof. intros st. exists []. by rewrite app_nil_r. Qed.

Lemma emits_lift {X} (r : Res X) : emits P (lift r).
Proof.
  intros st. unfold lift. destruct r; [|done|done].
  exists []. by rewrite app_nil_r.
Qed.

Lemma emits_push i : P i -> emits P (push i).
Proof. intros Hi st. exists [i]. split; [done | by constructor]. Qed.

Lemma emits_bind {X Y} (m : M Ledger X) (f : X -> M Ledger Y) :
  emits P m -> (forall a, emits P (f a)) -> emits P (bind m f).
Proof.
  intros Hm Hf st. unfold bind. specialize (Hm st).
  destruct (m st) as [[a st']| |]; [|done|done].
  destruct Hm as (n1 & -> & H1). specialize (Hf a (st ++ n1)).
  destruct (f a (st ++ n1)) as [[b st'']| |]; [|done|done].
  destruct Hf as (n2 & -> & H2). exists (n1 ++ n2).
  rewrite app_assoc. split; [done | by apply Forall_app].
Qed.

Lemma emits_mapM {X Y} (f : X -> M Ledger Y) l :
  (forall a, emits P (f a)) -> emits P (mapM f l).
Proof.
  intros Hf. induction l as [|a l IH]; simpl.
  - apply emits_ret.
  - apply emits_bind; [apply Hf|]. intros b.
    apply emits_bind; [apply IH|]. intros bs. apply emits_ret.
Qed.

Lemma emits_replaceAllM p (f : mres -> M Ledger str) s :
  (forall m, emits P (f m)) -> emits P (replaceAllM p f s).
Proof.
  intros Hf. unfold replaceAllM. apply emits_bind.
  - apply emits_mapM. intros m. apply emits_bind; [apply Hf|].
    intros r. apply emits_ret.
  - intros ms. apply emits_ret.
Qed.

End EmitFacts.

Ltac emit_step :=
  match goal with
  | |- emits _ (bind _ _) => apply emits_bind; [|intro]
  | |- emits _ (ret _) => apply emits_ret
  | |- emits _ (lift _) => apply emits_lift
  | |- emits _ (replaceAllM _ _ _) => apply emits_replaceAllM; intro
  | |- emits _ (if ?b then _ else _) => destruct b eqn:?
  | |- emits _ (match ?x with _ => _ end) => destruct x eqn:?
  | |- emits _ (let _ := _ in _) => cbv zeta
  end.

(** A push of an issue that agrees with the catalogue. *)
Ltac push_staged :=
  apply emits_push;
  try unfold newWindowIssue; try unfold colorIssue; try unfold fakeButtonIssue;
  unfold pushed, conforms, reportShape;
  cbn [createIssue ruleId wcagCode taiwanCode level autoFixed needsManualReview
       fixedSnippet i_ruleId i_wcagCode i_taiwanCode i_level i_autoFixed
       i_needsManualReview i_fixedSnippet];
  repeat split; vm_compute; reflexivity.

Section PassEmits.
Context {E : JsEnv}.
Variable config : value E.

Lemma frameTitleCb_emits tag : emits (pushed 1) (frameTitleCb E config tag).
Proof. unfold frameTitleCb. repeat first [push_staged | emit_step]. Qed.

Lemma imgAltCb_emits tag : emits (pushed 2) (imgAltCb E config tag).
Proof. unfold imgAltCb. repeat first [push_staged | emit_step]. Qed.

Lemma imgInLinkCb_emits tag : emits (pushed 2) (imgInLinkCb E config tag).
Proof. unfold imgInLinkCb. repeat first [push_staged | emit_step]. Qed.

Lemma linkCb_emits full : emits (pushed 2) (linkCb E config full).
Proof.
  unfold linkCb.
  repeat first [apply imgInLinkCb_emits | push_staged | emit_step].
Qed.

Lemma rowHeaderCb_emits tr : emits (pushed 3) (rowHeaderCb E config tr).
Proof. unfold rowHeaderCb. repeat first [push_staged | emit_step]. Qed.

Lemma thScopeCb_emits tag : emits (pushed 4) (thScopeCb E tag).
Proof. unfold thScopeCb. repeat first [push_staged | emit_step]. Qed.

Lemma inlineStyleCb_emits s m : emits (pushed 5) (inlineStyleCb E config s m).
Proof. unfold inlineStyleCb. repeat first [push_staged | emit_step]. Qed.

Lemma styleBlockCb_emits s m : emits (pushed 6) (styleBlockCb E config s m).
Proof. unfold styleBlockCb. repeat first [push_staged | emit_step]. Qed.

Lemma formLabelCb_emits labels tag : emits (pushed 7) (formLabelCb E labels tag).
Proof. unfold formLabelCb. repeat first [push_staged | emit_step]. Qed.

Lemma colorLoop_emits s ms : forall warned, emits (pushed 9) (colorLoop s ms warned).
Proof.
  induction ms as [|m ms IH]; intros warned; simpl.
  - apply emits_ret.
  - repeat first [apply IH | push_staged | emit_step].
Qed.

Lemma fakeButtonLoop_emits s ms : forall count,
  emits (pushed 10) (fakeButtonLoop s ms count).
Proof.
  induction ms as [|m ms IH]; intros count; simpl.
  - apply emits_ret.
  - repeat first [apply IH | push_staged | emit_step].
Qed.

Lemma frameTitlePass_emits s : emits (pushed 1) (frameTitlePass E config s).
Proof.
  unfold frameTitlePass. repeat first [apply frameTitleCb_emits | emit_step].
Qed.

Lemma imgAltPass_emits s : emits (pushed 2) (imgAltPass E config s).
Proof. unfold imgAltPass. repeat first [apply imgAltCb_emits | emit_step]. Qed.

Lemma linkPass_emits s : emits (pushed 2) (linkPass E config s).
Proof. unfold linkPass. repeat first [apply linkCb_emits | emit_step]. Qed.

Lemma rowHeaderPass_emits s : emits (pushed 3) (rowHeaderPass E config s).
Proof.
  unfold rowHeaderPass. repeat first [apply rowHeaderCb_emits | emit_step].
Qed.

Lemma thScopePass_emits s : emits (pushed 4) (thScopePass E config s).
Proof. unfold thScopePass. repeat first [apply thScopeCb_emits | emit_step]. Qed.

Lemma inlineStylePass_emits s : emits (pushed 5) (inlineStylePass E config s).
Proof.
  unfold inlineStylePass. repeat first [apply inlineStyleCb_emits | emit_step].
Qed.

Lemma styleBlockPass_emits s : emits (pushed 6) (styleBlockPass E config s).
Proof.
  unfold styleBlockPass. repeat first [apply styleBlockCb_emits | emit_step].
Qed.

Lemma formLabelPass_emits s : emits (pushed 7) (formLabelPass E config s).
Proof.
  unfold formLabelPass. repeat first [apply formLabelCb_emits | emit_step].
Qed.

Lemma skipLinkPass_emits s : emits (pushed 8) (skipLinkPass E config s).
Proof. unfold skipLinkPass. repeat first [push_staged | emit_step]. Qed.

Lemma colorContrastPass_emits s : emits (pushed 9) (colorContrastPass E config s).
Proof.
  unfold colorContrastPass. repeat first [apply colorLoop_emits | emit_step].
Qed.

Lemma fakeButtonPass_emits s : emits (pushed 10) (fakeButtonPass E config s).
Proof.
  unfold fakeButtonPass. repeat first [apply fakeButtonLoop_emits | emit_step].
Qed.

End PassEmits.

(** ** The order of the issues *)

Lemma inPassOrder_app st new k :
  inPassOrder st ->
  Forall (fun i => stageOf (ruleId i) <= k) st ->
  Forall (fun i => stageOf (ruleId i) = k) new ->
  inPassOrder (st ++ new).
Proof.
  intros Hst Hle Hnew i j a b Ha Hb Hij.
  rewrite Forall_lookup in Hle. rewrite Forall_lookup in Hnew.
  apply lookup_app_Some in Hb as [Hb | [Hjl Hb]].
  - apply lookup_lt_Some in Hb as Hj.
    rewrite lookup_app_l in Ha by lia. by eapply Hst.
  - apply Hnew in Hb. rewrite Hb.
    apply lookup_app_Some in Ha as [Ha | [_ Ha]].
    + by eapply Hle.
    + apply Hnew in Ha. lia.
Qed.

Lemma upto_nil : upto 0 [].
Proof.
  split; [|constructor]. intros i j a b Ha. by rewrite lookup_nil in Ha.
Qed.

(** A pass of stage [k] extends a ledger of the stages up to [j <= k]. *)
Lemma emits_hoare {X} (m : M Ledger X) j k :
  emits (pushed k) m -> j <= k -> 1 <= k -> hoare (upto j) m (upto k).
Proof.
  intros Hm Hj Hk st [Hord Hall]. specialize (Hm st).
  destruct (m st) as [[a st']| |]; [|done|done].
  destruct Hm as (new & -> & Hnew). split.
  - apply (inPassOrder_app _ _ k); [done| |].
    + eapply Forall_impl; [exact Hall|].
      intros i (j' & Hj' & Hs & _). simpl. lia.
    + eapply Forall_impl; [exact Hnew|]. by intros i (Hs & _).
  - apply Forall_app. split.
    + eapply Forall_impl; [exact Hall|].
      intros i (j' & Hj' & Hp). exists j'. split; [lia | done].
    + eapply Forall_impl; [exact Hnew|].
      intros i Hp. exists k. split; [lia | done].
Qed.

Lemma hoare_bind {X Y} (m : M Ledger X) (f : X -> M Ledger Y) Pre Mid Post :
  hoare Pre m Mid -> (forall a, hoare Mid (f a) Post) -> hoare Pre (bind m f) Post.
Proof.
  intros Hm Hf st Hst. unfold bind. specialize (Hm st Hst).
  destruct (m st) as [[a st']| |]; [|done|done]. by apply Hf.
Qed.

Lemma hoare_ret {X} (a : X) Pre : hoare Pre (ret a) Pre.
Proof. by intros st Hst. Qed.

Section Order.
Context {E : JsEnv}.
Variable config : value E.

(** The ledger of the passes: in pass order, each issue as its pass pushes
    it. *)
Lemma passes_upto html : hoare (upto 0) (passes E config html) (upto 10).
Proof.
  unfold passes, passes1to9.
  eapply hoare_bind; [|intros r; eapply hoare_bind; [|intros; apply hoare_ret]].
  - eapply hoare_bind;
      [apply (emits_hoare _ 0 1); [apply frameTitlePass_emits | lia | lia]|].
    intros r1. eapply hoare_bind;
      [apply (emits_hoare _ 1 2); [apply imgAltPass_emits | lia | lia]|].
    intros r2. eapply hoare_bind;
      [apply (emits_hoare _ 2 2); [apply linkPass_emits | lia | lia]|].
    intros r3. eapply hoare_bind;
      [apply (emits_hoare _ 2 3); [apply rowHeaderPass_emits | lia | lia]|].
    intros r4. eapply hoare_bind;
      [apply (emits_hoare _ 3 4); [apply thScopePass_emits | lia | lia]|].
    intros r5. eapply hoare_bind;
      [apply (emits_hoare _ 4 5); [apply inlineStylePass_emits | lia | lia]|].
    intros r6. eapply hoare_bind;
      [apply (emits_hoare _ 5 6); [apply styleBlockPass_emits | lia | lia]|].
    intros r7. eapply hoare_bind;
      [apply (emits_hoare _ 6 7); [apply formLabelPass_emits | lia | lia]|].
    intros r8. eapply hoare_bind;
      [apply (emits_hoare _ 7 8); [apply skipLinkPass_emits | lia | lia]|].
    intros r9. eapply hoare_bind;
      [apply (emits_hoare _ 8 9); [apply colorContrastPass_emits | lia | lia]|].
    intros r10. apply hoare_ret.
  - apply (emits_hoare _ 9 10); [apply fakeButtonPass_emits | lia | lia].
Qed.

End Order.

(** The location resolver changes the location fields only. *)
Lemma fillLocation_pushed html k i : pushed k i -> pushed k (fillLocation html i).
Proof.
  destruct (fillLocation_fields html i)
    as (H1 & H2 & H3 & H4 & _ & _ & H7 & H8 & H9 & _).
  unfold pushed, conforms, reportShape.
  by rewrite H1, H2, H3, H4, H7, H8, H9.
Qed.

Lemma inPassOrder_fillLocation html l :
  inPassOrder l -> inPassOrder (map (fillLocation html) l).
Proof.
  intros Hl i j a b Ha Hb Hij.
  rewrite list_lookup_fmap in Ha. rewrite list_lookup_fmap in Hb.
  destruct (l !! i) as [a'|] eqn:Ea; [|done].
  destruct (l !! j) as [b'|] eqn:Eb; [|done].
  injection Ha as <-. injection Hb as <-.
  destruct (fillLocation_fields html a') as (-> & _).
  destruct (fillLocation_fields html b') as (-> & _).
  by eapply Hl.
Qed.

(** The issues of a result: in pass order, each as its pass pushes it. *)
Lemma repairHtml_upto {E} html (config : value E) r :
  repairHtml E html config = Ok r -> upto 10 (issues r).
Proof.
  unfold repairHtml. pose proof (passes_upto config html [] upto_nil) as H.
  destruct (passes E config html []) as [[rep ledger]| |]; [|done|done].
  intros [= <-]. simpl. destruct H as [Hord Hall]. split.
  - by apply inPassOrder_fillLocation.
  - apply Forall_map. eapply Forall_impl; [exact Hall|].
    intros i (j & Hj & Hp). exists j. split; [done|].
    by apply fillLocation_pushed.
Qed.

Lemma conforms_catalogue i :
  conforms i = true ->
  exists m,
    m ∈ BUILT_IN_RULES
    /\ rule_id m = ruleId i
    /\ rule_wcagCode m = wcagCode i
    /\ rule_level m = level i
    /\ rule_canAutoFix m = autoFixed i
    /\ (forall c, rule_taiwanCode m = Some c -> taiwanCode i = c).
Proof.
  unfold conforms, ruleMeta.
  destruct (List.find _ _) as [m|] eqn:Hf; [|done].
  apply List.find_some in Hf as [Hin Hid].
  rewrite !andb_true_iff. intros [[[H1 H2] H3] H4].
  exists m. split_and!.
  - by apply list_elem_of_In.
  - by apply str_eqb_eq.
  - by apply str_eqb_eq.
  - revert H2. by destruct (rule_level m), (level i).
  - by apply Bool.eqb_prop.
  - intros c Hc. rewrite Hc in H4. symmetry. by apply str_eqb_eq.
Qed.

Lemma filter_cover {X} (P Q : X -> Prop) `{!forall x, Decision (P x)}
    `{!forall x, Decision (Q x)} (l : list X) :
  Forall (fun x => P x \/ Q x) l ->
  length l <= length (filter P l) + length (filter Q l).
Proof.
  induction 1 as [|x l Hx _ IH]; [done|].
  rewrite !filter_cons. simpl.
  destruct (decide (P x)), (decide (Q x)); simpl; try lia.
  by destruct Hx.
Qed.

Section Reports.
Context (E : JsEnv).

(** X1.  The issues of a result come in the order of the passes: those of
    frame-title first, then those of img-alt and of the link rules, then
    table-row-header, th-scope, css-relative-units, css-style-tag,
    form-label, skip-link, color-contrast and fake-button; and every issue
    is of one of these rules. *)
Theorem issues_in_pass_order html (config : value E) r :
  repairHtml E html config = Ok r ->
  inPassOrder (issues r)
  /\ Forall (fun i => 1 <= stageOf (ruleId i) <= 10) (issues r).
Proof.
  intros H. apply repairHtml_upto in H as [Hord Hall]. split; [done|].
  eapply Forall_impl; [exact Hall|].
  intros i (j & Hj & Hs & _). simpl. lia.
Qed.

(** X2.  Every issue of a result agrees with the rule catalogue
    [BUILT_IN_RULES]: its rule is listed there with the same success
    criterion and level, with the same Taiwan code when the catalogue gives
    one, and the issue is marked as fixed exactly when the catalogue says
    the rule can be fixed automatically. *)
Theorem issues_agree_with_catalogue html (config : value E) r :
  repairHtml E html config = Ok r ->
  Forall (fun i =>
            exists m,
              m ∈ BUILT_IN_RULES
              /\ rule_id m = ruleId i
              /\ rule_wcagCode m = wcagCode i
              /\ rule_level m = level i
              /\ rule_canAutoFix m = autoFixed i
              /\ (forall c, rule_taiwanCode m = Some c -> taiwanCode i = c))
         (issues r).
Proof.
  intros H. apply repairHtml_upto in H as [_ Hall].
  eapply Forall_impl; [exact Hall|].
  intros i (j & _ & _ & Hc & _). by apply conforms_catalogue.
Qed.

(** X3.  In a result, an issue carries a fixed snippet exactly when it is
    marked as fixed, and an issue that is not marked as fixed is marked for
    review; so the two counters of the summary cover the issues. *)
Theorem issues_fixed_or_flagged html (config : value E) r :
  repairHtml E html config = Ok r ->
  Forall (fun i =>
            (autoFixed i = true <-> is_Some (fixedSnippet i))
            /\ (autoFixed i = false -> needsManualReview i = true))
         (issues r)
  /\ totalIssues (summary r)
     <= sum_autoFixed (summary r) + sum_needsManualReview (summary r)
  /\ sum_autoFixed (summary r) <= totalIssues (summary r)
  /\ sum_needsManualReview (summary r) <= totalIssues (summary r).
Proof.
  intros H.
  assert (Hshape : Forall (fun i =>
            (autoFixed i = true <-> is_Some (fixedSnippet i))
            /\ (autoFixed i = false -> needsManualReview i = true)) (issues r)).
  { apply repairHtml_upto in H as [_ Hall].
    eapply Forall_impl; [exact Hall|].
    intros i (j & _ & _ & _ & Hs). unfold reportShape in Hs. simpl.
    destruct (fixedSnippet i) as [f|], (autoFixed i), (needsManualReview i);
      simpl in Hs; try done; (split; [split|]); try done;
      by intros [? ?]. }
  split; [done|].
  apply repairHtml_inv in H as (_ & _ & _ & _ & _ & ->). simpl.
  split; [|split].
  - apply filter_cover. eapply Forall_impl; [exact Hshape|].
    intros i [_ Hi]. simpl. destruct (autoFixed i); [by left | right; auto].
  - apply length_filter.
  - apply length_filter.
Qed.

End Reports.

(** ** The report-only passes *)

(** Replacing every match of a scan by its own text changes nothing. *)
Lemma splice_matches_same p (s : str) : forall fuel from cur,
  cur <= from -> cur <= length s ->
  splice s cur (map (fun m => (m, mtext s m)) (matches_from fuel p s from))
  = drop cur s.
Proof.
  induction fuel as [|n IH]; intros from cur Hc Hl; simpl; [done|].
  destruct (exec p s from) as [m|] eqn:He; simpl; [|done].
  pose proof (exec_bounds _ _ _ _ He) as (H1 & H2 & H3).
  rewrite IH; [| destruct (decide (m_end m = m_start m)); lia | done].
  unfold mtext. rewrite app_assoc, slice_app by lia.
  unfold slice. rewrite <- (take_drop (m_end m - cur) (drop cur s)) at 2.
  f_equal. rewrite drop_drop. f_equal. lia.
Qed.

(** A callback that pushes [g a] and returns [h a], mapped over a list. *)
Lemma mapM_pushes {X Y} (f : X -> M Ledger Y) (h : X -> Y)
    (g : X -> list AccessibilityIssue) l :
  (forall a st, f a st = Ok (h a, st ++ g a)) ->
  forall st, mapM f l st = Ok (map h l, st ++ concat (map g l)).
Proof.
  intros Hf. induction l as [|a l IH]; intros st; simpl.
  - unfold ret. by rewrite app_nil_r.
  - unfold bind. rewrite Hf, IH. unfold ret. by rewrite app_assoc.
Qed.

(** A replace whose callback returns the match and only reports. *)
Lemma replaceAllM_reports p (f : str -> M Ledger str)
    (g : str -> list AccessibilityIssue) s :
  (forall t st, f t st = Ok (t, st ++ g t)) ->
  forall st,
  replaceAllM p (fun m => f (mtext s m)) s st
  = Ok (s, st ++ concat (map g (map (mtext s) (matches p s)))).
Proof.
  intros Hf st. unfold replaceAllM, bind.
  rewrite (mapM_pushes _ (fun m => (m, mtext s m)) (fun m => g (mtext s m))).
  - unfold ret. unfold matches.
    rewrite splice_matches_same by lia. rewrite drop_0.
    by rewrite map_map.
  - intros m st'. unfold bind. by rewrite Hf.
Qed.

Lemma colorLoop_pushes s ms : forall warned st,
  colorLoop s ms warned st
  = Ok (tt, st ++ map colorIssue
                    (take (5 - warned)
                       (filter (fun t => test re_background t = false)
                          (map (mtext s) ms)))).
Proof.
  induction ms as [|m ms IH]; intros warned st; simpl.
  - rewrite filter_nil, take_nil. simpl. by rewrite app_nil_r.
  - rewrite filter_cons. destruct (test re_background (mtext s m)) eqn:Hk.
    + destruct (decide (true = false)) as [?|_]; [done|]. apply IH.
    + destruct (decide (false = false)) as [_|?]; [|done].
      destruct (decide (5 < S warned)) as [Hc|Hc].
      * replace (5 - warned) with 0 by lia. simpl. by rewrite app_nil_r.
      * unfold bind, push. rewrite IH.
        replace (5 - warned) with (S (5 - S warned)) by lia.
        simpl. by rewrite <- app_assoc.
Qed.

Section ReportOnly.
Context {E : JsEnv}.
Variable config : value E.

Lemma colorContrastPass_pushes s st :
  colorContrastPass E config s st
  = Ok (tt, st ++ (if ruleEnabled E config (s16 "color-contrast")
                   then map colorIssue
                          (take 5 (filter (fun t => test re_background t = false)
                                      (colorStyles s)))
                   else [])).
Proof.
  unfold colorContrastPass, colorStyles. destruct (ruleEnabled _ _ _).
  - rewrite execAll_matches by reflexivity. apply colorLoop_pushes.
  - unfold ret. by rewrite app_nil_r.
Qed.

Lemma skipLinkPass_pushes s st :
  skipLinkPass E config s st = Ok (tt, st ++ pushedBy (skipLinkPass E config s)).
Proof.
  unfold pushedBy, skipLinkPass.
  destruct (ruleEnabled _ _ _); [|unfold ret; by rewrite app_nil_r].
  destruct (_ && _); [done|]. unfold ret. by rewrite app_nil_r.
Qed.

Local Opaque getAttr.

Lemma formLabelCb_reports labels tag st :
  formLabelCb E labels tag st
  = Ok (tag, st ++ pushedBy (formLabelCb E labels tag)).
Proof.
  unfold pushedBy, formLabelCb.
  destruct (str_eqb _ (s16 "hidden")); [unfold ret; by rewrite app_nil_r|].
  match goal with |- context [if ?b then ret _ else _] => destruct b end;
    [unfold ret; by rewrite app_nil_r|].
  done.
Qed.

(** The callback reports a control exactly when it is [unlabelled], with
    the tag as snippet. *)
Lemma formLabelCb_pushed labels tag :
  map (fun i => (ruleId i, originalSnippet i)) (pushedBy (formLabelCb E labels tag))
  = if unlabelled (E:=E) labels tag then [(s16 "form-label", tag)] else [].
Proof.
  unfold pushedBy, formLabelCb, unlabelled, fieldId, blank. cbv zeta.
  destruct (getAttr tag "type") as [t|]; unfold default; cbn [from_option id];
    [destruct (str_eqb t []) eqn:Ht; [apply str_eqb_eq in Ht; subst t|]|].
  all: destruct (str_eqb (toLowerCase E _) (s16 "hidden")); [done|];
    cbn [negb andb].
  all: destruct (getAttr tag "aria-label") as [a|],
    (getAttr tag "aria-labelledby") as [b|]; cbn [negb andb orb].
  all: repeat match goal with
           | |- context [str_eqb ?x []] =>
               lazymatch x with
               | context [getAttr] => fail
               | _ => destruct (str_eqb x [])
               end; cbn [negb andb orb]
           end.
  all: try done.
  all: match goal with
    | |- context [if ?b then ret _ else _] => destruct b
    end; done.
Qed.

Lemma formLabelPass_pushes s st :
  formLabelPass E config s st
  = Ok (s, st ++ (if ruleEnabled E config (s16 "form-label")
                  then formLabelIssues (E:=E) (labelTargets s) (controlTags s)
                  else [])).
Proof.
  unfold formLabelPass, formLabelIssues, labelTargets, controlTags.
  destruct (ruleEnabled _ _ _); [|unfold ret; by rewrite app_nil_r].
  rewrite execAll_matches by reflexivity.
  apply (replaceAllM_reports re_control
           (formLabelCb E (labelForSet (matches re_labelFor s) s))
           (fun t => pushedBy (formLabelCb E (labelForSet (matches re_labelFor s) s) t))).
  intros t st'. apply formLabelCb_reports.
Qed.

Local Transparent getAttr.

(** The passes 1 to 9 are the rewriting passes followed by the three
    report-only passes that come before the fake-button pass. *)
Lemma passes1to9_split html st :
  passes1to9 E config html st
  = match rewritingPasses config html st with
    | Ok (s, l) =>
        (r <- formLabelPass E config s ;;
         _ <- skipLinkPass E config r ;;
         _ <- colorContrastPass E config r ;;
         ret r) l
    | Throw => Throw
    | NoFuel => NoFuel
    end.
Proof.
  unfold passes1to9, rewritingPasses. unfold bind.
  destruct (frameTitlePass E config html st) as [[r1 l1]| |]; [|done|done].
  destruct (imgAltPass E config r1 l1) as [[r2 l2]| |]; [|done|done].
  destruct (linkPass E config r2 l2) as [[r3 l3]| |]; [|done|done].
  destruct (rowHeaderPass E config r3 l3) as [[r4 l4]| |]; [|done|done].
  destruct (thScopePass E config r4 l4) as [[r5 l5]| |]; [|done|done].
  destruct (inlineStylePass E config r5 l5) as [[r6 l6]| |]; [|done|done].
  destruct (styleBlockPass E config r6 l6) as [[r7 l7]| |]; done.
Qed.

Lemma rewritingPasses_upto html :
  hoare (upto 0) (rewritingPasses config html) (upto 6).
Proof.
  unfold rewritingPasses.
  eapply hoare_bind;
    [apply (emits_hoare _ 0 1); [apply frameTitlePass_emits | lia | lia]|].
  intros r1. eapply hoare_bind;
    [apply (emits_hoare _ 1 2); [apply imgAltPass_emits | lia | lia]|].
  intros r2. eapply hoare_bind;
    [apply (emits_hoare _ 2 2); [apply linkPass_emits | lia | lia]|].
  intros r3. eapply hoare_bind;
    [apply (emits_hoare _ 2 3); [apply rowHeaderPass_emits | lia | lia]|].
  intros r4. eapply hoare_bind;
    [apply (emits_hoare _ 3 4); [apply thScopePass_emits | lia | lia]|].
  intros r5. eapply hoare_bind;
    [apply (emits_hoare _ 4 5); [apply inlineStylePass_emits | lia | lia]|].
  intros r6.
  apply (emits_hoare _ 5 6); [apply styleBlockPass_emits | lia | lia].
Qed.

(** The shape of a result: the repaired text is that of the rewriting
    passes, and the issues are theirs followed by those of the report-only
    passes on that text. *)
Lemma repairHtml_shape html r :
  repairHtml E html config = Ok r ->
  exists l,
    rewritingPasses config html [] = Ok (repairedHtml r, l)
    /\ upto 6 l
    /\ issues r
       = map (fillLocation html) (l ++ reportOnlyIssues config (repairedHtml r)).
Proof.
  unfold repairHtml, passes. unfold bind at 1. rewrite passes1to9_split.
  pose proof (rewritingPasses_upto html [] upto_nil) as Hup.
  destruct (rewritingPasses config html []) as [[s l]| |]; [|done|done].
  unfold bind. rewrite formLabelPass_pushes, skipLinkPass_pushes,
    colorContrastPass_pushes. unfold ret.
  rewrite fakeButtonPass_pushes. intros [= <-]. simpl.
  exists l. split; [done|]. split; [done|].
  unfold reportOnlyIssues, clickableTags. by rewrite <- !app_assoc.
Qed.

End ReportOnly.

Lemma filter_rule_none html id l :
  Forall (fun i => ruleId i <> id) l ->
  filter (fun i => ruleId i = id) (map (fillLocation html) l) = [].
Proof.
  induction 1 as [|i l Hi _ IH]; [done|].
  simpl. rewrite filter_cons, fillLocation_ruleId.
  by destruct (decide (ruleId i = id)).
Qed.

Lemma filter_rule_all html id l :
  Forall (fun i => ruleId i = id) l ->
  filter (fun i => ruleId i = id) (map (fillLocation html) l)
  = map (fillLocation html) l.
Proof.
  induction 1 as [|i l Hi _ IH]; [done|].
  simpl. rewrite filter_cons, fillLocation_ruleId.
  destruct (decide (ruleId i = id)); [by rewrite IH | done].
Qed.

Lemma upto_other_rule k l id :
  upto k l -> k < stageOf id -> Forall (fun i => ruleId i <> id) l.
Proof.
  intros [_ Hall] Hk. eapply Forall_impl; [exact Hall|].
  intros i (j & Hj & Hs & _) Heq. rewrite Heq in Hs. lia.
Qed.

(** An issue about the whole document keeps its empty location. *)
Lemma fillLocation_document html i :
  originalSnippet i = s16 "(document)" -> fillLocation html i = i.
Proof.
  intros Hd. unfold fillLocation. destruct (_ || _); [done|].
  rewrite Hd. by rewrite orb_true_r.
Qed.

Section ReportOnlyRules.
Context {E : JsEnv}.
Variable config : value E.

Lemma formLabelIssues_pushed labels tags :
  map (fun i => (ruleId i, originalSnippet i)) (formLabelIssues (E:=E) labels tags)
  = map (fun t => (s16 "form-label", t))
      (filter (fun t => unlabelled (E:=E) labels t = true) tags).
Proof.
  unfold formLabelIssues. induction tags as [|t tags IH]; [done|].
  simpl. rewrite map_app, IH, formLabelCb_pushed, filter_cons.
  destruct (unlabelled labels t); simpl.
  - by destruct (decide (true = true)).
  - by destruct (decide (false = true)).
Qed.

Lemma formLabelIssues_rule labels tags :
  Forall (fun i => ruleId i = s16 "form-label") (formLabelIssues (E:=E) labels tags).
Proof.
  unfold formLabelIssues. induction tags as [|t tags IH]; [constructor|].
  simpl. apply Forall_app. split; [|done].
  pose proof (formLabelCb_pushed (E:=E) labels t) as H.
  destruct (pushedBy (formLabelCb E labels t)) as [|i [|i' l]];
    destruct (unlabelled labels t); try done.
  injection H as H _. by repeat constructor.
Qed.

(** The issue of the skip-link pass. *)
Lemma skipLinkPass_pushed s :
  map (fun i => (ruleId i, originalSnippet i, autoFixed i, location i))
    (pushedBy (skipLinkPass E config s))
  = if ruleEnabled E config (s16 "skip-link") && lacksSkipLink s
    then [(s16 "skip-link", s16 "(document)", false, (0, 0, 0, 0))]
    else [].
Proof.
  unfold pushedBy, skipLinkPass, lacksSkipLink.
  destruct (ruleEnabled _ _ _); [|done]. cbn [andb].
  destruct (_ && _); done.
Qed.

Lemma skipLinkPass_rule s :
  Forall (fun i => ruleId i = s16 "skip-link") (pushedBy (skipLinkPass E config s)).
Proof.
  pose proof (skipLinkPass_pushed s) as H.
  destruct (pushedBy (skipLinkPass E config s)) as [|i [|i' l]];
    destruct (_ && _); try done.
  injection H as H _. by repeat constructor.
Qed.

(** The rules of the four parts of the report-only issues. *)
Lemma reportOnlyIssues_other s id :
  stageOf id < 7 ->
  Forall (fun i => ruleId i <> id) (reportOnlyIssues config s).
Proof.
  intros Hid. unfold reportOnlyIssues. rewrite !Forall_app. split_and!.
  - destruct (ruleEnabled _ _ _); [|constructor].
    eapply Forall_impl; [apply formLabelIssues_rule|].
    intros i Hi Heq. rewrite <- Heq, Hi in Hid. vm_compute in Hid. lia.
  - eapply Forall_impl; [apply skipLinkPass_rule|].
    intros i Hi Heq. rewrite <- Heq, Hi in Hid. vm_compute in Hid. lia.
  - destruct (ruleEnabled _ _ _); [|constructor].
    apply Forall_map, Forall_forall. intros t _ Heq. rewrite <- Heq in Hid.
    vm_compute in Hid. lia.
  - destruct (ruleEnabled _ _ _); [|constructor].
    apply Forall_map, Forall_forall. intros t _ Heq. rewrite <- Heq in Hid.
    vm_compute in Hid. lia.
Qed.

End ReportOnlyRules.

(** In the catalogue, the rules that can be fixed automatically are those
    of the rewriting passes. *)
Lemma catalogue_fixable m :
  m ∈ BUILT_IN_RULES ->
  rule_canAutoFix m = bool_decide (1 <= stageOf (rule_id m) <= 6).
Proof.
  intros Hm. apply list_elem_of_In in Hm.
  assert (H : forallb (fun m => Bool.eqb (rule_canAutoFix m)
                          (bool_decide (1 <= stageOf (rule_id m) <= 6)))
                BUILT_IN_RULES = true) by (vm_compute; reflexivity).
  rewrite forallb_forall in H. by apply Bool.eqb_prop, H.
Qed.

Lemma pushed_fixed j i : pushed j i -> autoFixed i = bool_decide (1 <= j <= 6).
Proof.
  intros (Hs & Hc & _). subst j.
  apply conforms_catalogue in Hc as (m & Hm & Hid & _ & _ & Hf & _).
  by rewrite <- Hf, <- Hid, (catalogue_fixable m Hm).
Qed.

Lemma emits_pushedBy {X} P (m : M Ledger X) : emits P m -> Forall P (pushedBy m).
Proof.
  intros H. specialize (H []). unfold pushedBy.
  destruct (m []) as [[a l]| |]; [|constructor|constructor].
  by destruct H as (new & -> & H).
Qed.

Lemma map_originalSnippet_fill html l :
  map originalSnippet (map (fillLocation html) l) = map originalSnippet l.
Proof.
  induction l as [|i l IH]; [done|]. simpl. rewrite IH. f_equal.
  by destruct (fillLocation_fields html i) as (_ & _ & _ & _ & _ & Ho & _).
Qed.

Section ReportOnlyResults.
Context (E : JsEnv).

Local Ltac other_rule :=
  first
    [ eapply Forall_impl; [apply formLabelIssues_rule|];
      let H := fresh in intros ? H; rewrite H; vm_compute; discriminate
    | eapply Forall_impl; [apply skipLinkPass_rule|];
      let H := fresh in intros ? H; rewrite H; vm_compute; discriminate
    | apply Forall_map, Forall_forall; intros ? _; vm_compute; discriminate
    | constructor ].

(** X4.  The color-contrast issues of a result are those of the style
    attributes that set a color, found by the scan of the repaired text, in
    order, except the attributes that also set a background color, and only
    the first five of them. *)
Theorem color_contrast_issues html (config : value E) r :
  repairHtml E html config = Ok r ->
  let reported :=
    filter (fun i => ruleId i = s16 "color-contrast") (issues r) in
  reported
  = (if ruleEnabled E config (s16 "color-contrast")
     then map (fun t => fillLocation html (colorIssue t))
            (take 5 (filter (fun t => test re_background t = false)
                        (colorStyles (repairedHtml r))))
     else [])
  /\ length reported <= 5.
Proof.
  intros H reported. subst reported.
  apply repairHtml_shape in H as (l & _ & Hup & ->).
  unfold reportOnlyIssues. rewrite !map_app, !filter_app.
  rewrite (filter_rule_none _ _ l)
    by (eapply upto_other_rule; [exact Hup | vm_compute; lia]).
  rewrite (filter_rule_none _ _ (if ruleEnabled E config (s16 "form-label") then _ else _))
    by (destruct (ruleEnabled E config (s16 "form-label")); other_rule).
  rewrite (filter_rule_none _ _ (pushedBy _)) by other_rule.
  rewrite (filter_rule_none _ _ (if ruleEnabled E config (s16 "fake-button") then _ else _))
    by (destruct (ruleEnabled E config (s16 "fake-button")); other_rule).
  rewrite app_nil_r. simpl.
  destruct (ruleEnabled E config (s16 "color-contrast")); [|simpl; split; [done | lia]].
  rewrite filter_rule_all
    by (apply Forall_map, Forall_forall; intros ? _; reflexivity).
  rewrite map_map. split; [done|].
  rewrite length_map, length_take. lia.
Qed.

(** X5.  A result has at most one skip-link issue: there is one exactly
    when the rule is enabled and the repaired text has a [nav], [header] or
    [main] element but no skip link; it is about the whole document, is not
    marked as fixed and has no location. *)
Theorem skip_link_issue html (config : value E) r :
  repairHtml E html config = Ok r ->
  map (fun i => (originalSnippet i, autoFixed i, location i))
    (filter (fun i => ruleId i = s16 "skip-link") (issues r))
  = if ruleEnabled E config (s16 "skip-link") && lacksSkipLink (repairedHtml r)
    then [(s16 "(document)", false, (0, 0, 0, 0))]
    else [].
Proof.
  intros H.
  apply repairHtml_shape in H as (l & _ & Hup & ->).
  unfold reportOnlyIssues. rewrite !map_app, !filter_app.
  rewrite (filter_rule_none _ _ l)
    by (eapply upto_other_rule; [exact Hup | vm_compute; lia]).
  rewrite (filter_rule_none _ _ (if ruleEnabled E config (s16 "form-label") then _ else _))
    by (destruct (ruleEnabled E config (s16 "form-label")); other_rule).
  rewrite (filter_rule_none _ _ (if ruleEnabled E config (s16 "color-contrast") then _ else _))
    by (destruct (ruleEnabled E config (s16 "color-contrast")); other_rule).
  rewrite (filter_rule_none _ _ (if ruleEnabled E config (s16 "fake-button") then _ else _))
    by (destruct (ruleEnabled E config (s16 "fake-button")); other_rule).
  rewrite app_nil_r. simpl.
  rewrite filter_rule_all by apply skipLinkPass_rule.
  pose proof (skipLinkPass_pushed config (repairedHtml r)) as Hp.
  destruct (pushedBy (skipLinkPass E config (repairedHtml r))) as [|i [|i' l']];
    destruct (_ && _); try done.
  injection Hp as _ Hs Hf Hli Hco Hst He. cbn [map].
  rewrite fillLocation_document by done.
  unfold location. by rewrite Hs, Hf, Hli, Hco, Hst, He.
Qed.

(** X6.  The form-label issues of a result are those of the [input],
    [select] and [textarea] start tags found by the scan of the repaired
    text, in order and without a cap, that are not hidden, have neither a
    non-blank [aria-label] nor a non-blank [aria-labelledby], and whose id
    no [label] of the text points to. *)
Theorem form_label_issues html (config : value E) r :
  repairHtml E html config = Ok r ->
  map originalSnippet
    (filter (fun i => ruleId i = s16 "form-label") (issues r))
  = if ruleEnabled E config (s16 "form-label")
    then filter (fun t => unlabelled (E:=E) (labelTargets (repairedHtml r)) t = true)
           (controlTags (repairedHtml r))
    else [].
Proof.
  intros H.
  apply repairHtml_shape in H as (l & _ & Hup & ->).
  unfold reportOnlyIssues. rewrite !map_app, !filter_app.
  rewrite (filter_rule_none _ _ l)
    by (eapply upto_other_rule; [exact Hup | vm_compute; lia]).
  rewrite (filter_rule_none _ _ (pushedBy _)) by other_rule.
  rewrite (filter_rule_none _ _ (if ruleEnabled E config (s16 "color-contrast") then _ else _))
    by (destruct (ruleEnabled E config (s16 "color-contrast")); other_rule).
  rewrite (filter_rule_none _ _ (if ruleEnabled E config (s16 "fake-button") then _ else _))
    by (destruct (ruleEnabled E config (s16 "fake-button")); other_rule).
  rewrite app_nil_r. simpl.
  destruct (ruleEnabled E config (s16 "form-label")); [|done].
  rewrite filter_rule_all by apply formLabelIssues_rule.
  rewrite map_originalSnippet_fill.
  transitivity
    (map snd (map (fun i => (ruleId i, originalSnippet i))
                (formLabelIssues (E:=E) (labelTargets (repairedHtml r))
                   (controlTags (repairedHtml r)))));
    [by rewrite map_map|].
  rewrite formLabelIssues_pushed, map_map. simpl. apply map_id.
Qed.

(** X7.  The four report-only passes leave the text alone: the repaired
    text of a result is the text the six rewriting passes produce, and the
    issues of these passes are exactly the issues of the result that are
    marked as fixed. *)
Theorem report_only_passes_keep_text html (config : value E) r :
  repairHtml E html config = Ok r ->
  exists l,
    rewritingPasses config html [] = Ok (repairedHtml r, l)
    /\ filter (fun i => autoFixed i = true) (issues r)
       = map (fillLocation html) l.
Proof.
  intros H.
  apply repairHtml_shape in H as (l & Hl & [_ Hup] & ->).
  exists l. split; [done|].
  rewrite map_app, filter_app.
  assert (H1 : filter (fun i => autoFixed i = true) (map (fillLocation html) l)
               = map (fillLocation html) l).
  { clear Hl. induction Hup as [|i l (j & Hj & Hp) _ IH]; [done|].
    simpl. rewrite filter_cons, fillLocation_autoFixed, IH.
    rewrite (pushed_fixed j i Hp), bool_decide_eq_true_2 by lia.
    by destruct (decide (true = true)). }
  assert (H2 : filter (fun i => autoFixed i = true)
                 (map (fillLocation html) (reportOnlyIssues config (repairedHtml r)))
               = []).
  { assert (Hr : Forall (fun i => autoFixed i = false)
                   (reportOnlyIssues config (repairedHtml r))).
    { unfold reportOnlyIssues. rewrite !Forall_app. split_and!.
      - destruct (ruleEnabled _ _ _); [|constructor].
        unfold formLabelIssues. apply Forall_concat, Forall_map, Forall_forall.
        intros t _. eapply Forall_impl;
          [apply emits_pushedBy, formLabelCb_emits|].
        intros i Hp. by rewrite (pushed_fixed 7 i Hp).
      - eapply Forall_impl; [apply emits_pushedBy, skipLinkPass_emits|].
        intros i Hp. by rewrite (pushed_fixed 8 i Hp).
      - destruct (ruleEnabled _ _ _); [|constructor].
        apply Forall_map, Forall_forall. by intros t _.
      - destruct (ruleEnabled _ _ _); [|constructor].
        apply Forall_map, Forall_forall. by intros t _. }
    induction Hr as [|i l' Hi _ IH]; [done|].
    simpl. rewrite filter_cons, fillLocation_autoFixed, IH, Hi.
    by destruct (decide (false = true)). }
  by rewrite H1, H2, app_nil_r.
Qed.

End ReportOnlyResults.

(** ** The span of a location *)

Lemma computeLineCol_positive s idx :
  1 <= fst (computeLineCol s idx) /\ 1 <= snd (computeLineCol s idx).
Proof.
  unfold computeLineCol. destruct (decide (idx <= 0)); simpl; [lia|].
  split; [|lia].
  destruct (split_on nl (take idx s)) eqn:Hs; [|simpl; lia].
  by destruct (split_on_nonempty nl (take idx s)).
Qed.

Lemma occursAt_slice p s i :
  occursAt p s i -> i + length p <= length s /\ slice i (i + length p) s = p.
Proof.
  intros (a & b & -> & <-). rewrite !length_app. split; [lia|].
  unfold slice. rewrite drop_app_length.
  replace (length a + length p - length a) with (length p) by lia.
  by rewrite take_app_length.
Qed.

(** The resolver leaves an issue without location, or gives it the span of
    its snippet. *)
Lemma fillLocation_span html i :
  unlocated i ->
  unlocated (fillLocation html i) \/ spansSnippet html (fillLocation html i).
Proof.
  intros (Hl & Hc & Hs & He). unfold fillLocation. rewrite Hs, Hl. simpl.
  destruct (str_eqb (originalSnippet i) []) eqn:H1; simpl; [by left|].
  destruct (str_eqb (originalSnippet i) (s16 "(document)")); simpl; [by left|].
  destruct (indexOf (originalSnippet i) html) as [k|] eqn:Hk; [|by left].
  right. apply indexOf_first in Hk as [Hk _].
  apply occursAt_slice in Hk as [Hlen Hsl]. apply str_eqb_neq in H1.
  destruct (computeLineCol_positive html k).
  unfold spansSnippet. simpl. split_and!; [done | done | | done | done].
  destruct (originalSnippet i); [done | simpl; lia].
Qed.

(** The location depends on the snippet only. *)
Lemma fillLocation_by_snippet html i j :
  unlocated i -> unlocated j -> originalSnippet i = originalSnippet j ->
  location (fillLocation html i) = location (fillLocation html j).
Proof.
  intros (Hl & Hc & Hs & He) (Hl' & Hc' & Hs' & He') Ho.
  unfold fillLocation. rewrite Hs, Hl, Hs', Hl', <- Ho. simpl.
  destruct (_ || _); [unfold location; congruence|].
  destruct (indexOf _ _); [done|]. unfold location; congruence.
Qed.

Section Spans.
Context (E : JsEnv).

(** X8.  Every issue of a result either has no location (its four location
    fields are zero) or is located in the input: line and column are at
    least 1, the offsets delimit a non-empty span inside the input, and the
    text of that span is the original snippet of the issue. *)
Theorem issue_locations_span_snippet html (config : value E) r :
  repairHtml E html config = Ok r ->
  Forall (fun i => unlocated i \/ spansSnippet html i) (issues r).
Proof.
  intros H. apply repairHtml_sound in H as (ledger & -> & Hs).
  apply Forall_map. eapply Forall_impl; [exact Hs|].
  intros i (? & ? & ? & ? & _). by apply fillLocation_span.
Qed.

(** X9.  The location of an issue is that of the first occurrence of its
    snippet in the input, so it depends on the snippet only: two issues of
    a result with the same original snippet have the same line, column and
    offsets, whatever rule reported them and wherever the snippet was
    found. *)
Theorem same_snippet_same_location html (config : value E) r i j :
  repairHtml E html config = Ok r ->
  i ∈ issues r -> j ∈ issues r ->
  originalSnippet i = originalSnippet j ->
  location i = location j.
Proof.
  intros H Hi Hj Ho. apply repairHtml_sound in H as (ledger & Hl & Hs).
  rewrite Hl in Hi, Hj. rewrite Forall_forall in Hs.
  apply list_elem_of_fmap in Hi as (i' & -> & Hi).
  apply list_elem_of_fmap in Hj as (j' & -> & Hj).
  destruct (fillLocation_fields html i') as (_ & _ & _ & _ & _ & Hoi & _).
  destruct (fillLocation_fields html j') as (_ & _ & _ & _ & _ & Hoj & _).
  rewrite Hoi, Hoj in Ho.
  destruct (Hs i' Hi) as (? & ? & ? & ? & _).
  destruct (Hs j' Hj) as (? & ? & ? & ? & _).
  by apply fillLocation_by_snippet.
Qed.

End Spans.

(** ** Attributes: reading and writing agree *)

Section Ungroup.

Lemma sameCursor_refl x : sameCursor x x.
Proof. done. Qed.

Lemma sameOutcome_refl a : sameOutcome a a.
Proof. by destruct a. Qed.

Lemma sameOutcome_sym a b : sameOutcome a b -> sameOutcome b a.
Proof. destruct a, b; simpl; try done. intros (? & ? & ?). done. Qed.

Lemma sameOutcome_trans a b c :
  sameOutcome a b -> sameOutcome b c -> sameOutcome a c.
Proof.
  destruct a, b, c; simpl; try done.
  intros (? & ? & ?) (? & ? & ?). unfold sameCursor. split_and!; congruence.
Qed.

Lemma sameOutcome_orElse a a' b b' :
  sameOutcome a a' -> sameOutcome b b' -> sameOutcome (orElse a b) (orElse a' b').
Proof. destruct a, a'; simpl; done. Qed.

Lemma sameCursor_advance c r x y :
  sameCursor x y -> sameCursor (advance c r x) (advance c r y).
Proof. intros (? & ? & ?). unfold sameCursor. simpl. split_and!; congruence. Qed.

Lemma star_loop_same ic g k c c' rest :
  sameCont c c' -> forall x y, sameCursor x y ->
  sameOutcome (star_loop ic g k c rest x) (star_loop ic g k c' rest y).
Proof.
  intros Hc. induction rest as [|u r IH]; intros x y Hxy; simpl.
  - by apply Hc.
  - destruct (cls_mem ic k u); [|by apply Hc].
    destruct g; apply sameOutcome_orElse;
      first [by apply Hc | by apply IH, sameCursor_advance].
Qed.

(** Capture groups do not change where a term matches. *)
Lemma rmatch_ungroup ic r : forall c c' x y,
  sameCont c c' -> sameCursor x y ->
  sameOutcome (rmatch ic r c x) (rmatch ic (ungroup r) c' y).
Proof.
  induction r as [|k|r1 IH1 r2 IH2|r1 IH1 r2 IH2|g k|i r1 IH1| | |];
    intros c c' x y Hc Hxy; simpl.
  - by apply Hc.
  - destruct Hxy as (Hp & Hr & Hn). rewrite <- Hr.
    destruct (ms_rest x) as [|u rest]; [done|].
    destruct (cls_mem ic k u); [|done].
    apply Hc. unfold sameCursor. simpl. split_and!; congruence.
  - apply IH1; [|done]. intros x' y' Hxy'. by apply IH2.
  - apply sameOutcome_orElse; [by apply IH1 | by apply IH2].
  - destruct Hxy as (Hp & Hr & Hn). rewrite <- Hr.
    apply star_loop_same; [done|]. by split_and!.
  - apply IH1; [|done]. intros x' y' (? & ? & ?). apply Hc.
    unfold sameCursor. simpl. by split_and!.
  - pose proof Hxy as (Hp & Hr & Hn). rewrite <- Hp.
    destruct (ms_prev x); [done|]. by apply Hc.
  - pose proof Hxy as (Hp & Hr & Hn). rewrite <- Hr.
    destruct (ms_rest x); [|done]. by apply Hc.
  - pose proof Hxy as (Hp & Hr & Hn). rewrite <- Hp, <- Hr.
    destruct (xorb _ _); [|done]. by apply Hc.
Qed.

Lemma sameCont_Some : sameCont Some Some.
Proof. by intros x y H. Qed.

Lemma search_same p p' :
  pat_icase p = pat_icase p' ->
  ungroup (pat_re p) = ungroup (pat_re p') ->
  forall rest prev pos,
  sameSpan (search p prev rest pos) (search p' prev rest pos).
Proof.
  intros Hi Hr.
  assert (Hm : forall x,
    sameOutcome (rmatch (pat_icase p) (pat_re p) Some x)
                (rmatch (pat_icase p') (pat_re p') Some x)).
  { intros x. eapply sameOutcome_trans.
    - apply (rmatch_ungroup _ _ Some Some x x sameCont_Some (sameCursor_refl x)).
    - rewrite Hi, Hr. apply sameOutcome_sym.
      apply (rmatch_ungroup _ _ Some Some x x sameCont_Some (sameCursor_refl x)). }
  induction rest as [|u rest IH]; intros prev pos; simpl.
  - specialize (Hm (MState prev [] pos ∅)).
    destruct (rmatch (pat_icase p) _ _ _), (rmatch (pat_icase p') _ _ _);
      simpl in Hm; try done. simpl. by destruct Hm as (_ & _ & ->).
  - specialize (Hm (MState prev (u :: rest) pos ∅)).
    destruct (rmatch (pat_icase p) _ _ _), (rmatch (pat_icase p') _ _ _);
      simpl in Hm; try done;
      try (simpl; by destruct Hm as (_ & _ & ->)); try apply IH.
Qed.

Lemma match_same p p' s :
  pat_icase p = pat_icase p' ->
  ungroup (pat_re p) = ungroup (pat_re p') ->
  sameSpan (match_ p s) (match_ p' s).
Proof.
  intros Hi Hr. unfold match_, exec.
  destruct (decide (0 <= length s)); [|done]. by apply search_same.
Qed.

(** The pattern of [getAttr] and that of [addOrUpdateAttr] find the
    attribute at the same place. *)
Lemma attr_patterns_agree name tag :
  sameSpan (match_ (re_attrGet name) tag) (match_ (re_attrSet name) tag).
Proof. by apply match_same. Qed.

Lemma getAttr_None_iff tag name :
  getAttr tag name = None <-> match_ (re_attrSet (s16 name)) tag = None.
Proof.
  unfold getAttr. pose proof (attr_patterns_agree (s16 name) tag) as H.
  destruct (match_ (re_attrGet _) tag), (match_ (re_attrSet _) tag);
    simpl in H; done.
Qed.

End Ungroup.

(** ** Attributes: insertion *)

Lemma re_gtEnd_eq : re_gtEnd = Pat false (Seq (Seq (chr 62%N) Eps) Eol).
Proof. reflexivity. Qed.

Lemma search_gtEnd : forall rest prev pos,
  search re_gtEnd prev rest pos
  = match last rest with
    | Some c =>
        if (c =? 62)%N
        then Some (MRes (pos + length rest - 1) (pos + length rest) ∅)
        else None
    | None => None
    end.
Proof.
  rewrite re_gtEnd_eq.
  induction rest as [|c rest IH]; intros prev pos; [done|].
  cbn [search]. rewrite IH. clear IH.
  cbn -[N.eqb last length Nat.add Nat.sub]. unfold cls_mem.
  cbn -[N.eqb last length Nat.add Nat.sub].
  rewrite orb_false_r, (N.eqb_sym 62 c).
  destruct rest as [|c' rest'].
  - unfold advance. cbn -[N.eqb Nat.add Nat.sub].
    destruct (c =? 62)%N; simpl; [|done]. do 2 f_equal; lia.
  - replace (last (c :: c' :: rest')) with (last (c' :: rest')) by done.
    destruct (c =? 62)%N; cbn -[last length Nat.add Nat.sub N.eqb];
      (destruct (last (c' :: rest')) as [d|]; [|done];
       destruct (d =? 62)%N; [|done]; do 2 f_equal; simpl; lia).

Qed.

Lemma getSubstitution_plain matched before after repl :
  36%N ∉ repl -> getSubstitution matched before after repl = repl.
Proof.
  induction repl as [|c r IH]; intros H; [done|]. simpl.
  apply not_elem_of_cons in H as [Hc Hr].
  destruct (c =? 36)%N eqn:Hd; [apply N.eqb_eq in Hd; congruence|].
  by rewrite IH.
Qed.

(** [tag.replace(/>$/, repl)] *)
Lemma replaceFirstStr_gtEnd_ends body repl :
  36%N ∉ repl ->
  replaceFirstStr re_gtEnd repl (body ++ [62%N]) = body ++ repl.
Proof.
  intros Hd. unfold replaceFirstStr, replaceFirstFn, match_, exec.
  destruct (decide _) as [_|?]; [|lia].
  rewrite drop_0, search_gtEnd, last_snoc. simpl.
  unfold substFor. rewrite getSubstitution_plain by done.
  unfold slice. simpl. rewrite drop_0, Nat.sub_0_r, length_app. simpl.
  replace (length body + 1 - 1) with (length body) by lia.
  rewrite take_app_length.
  rewrite drop_ge by (rewrite length_app; simpl; lia). by rewrite app_nil_r.
Qed.

Lemma replaceFirstStr_gtEnd_other repl (tag : str) :
  last tag <> Some (62%N : char) -> replaceFirstStr re_gtEnd repl tag = tag.
Proof.
  intros Hl. unfold replaceFirstStr, replaceFirstFn, match_, exec.
  destruct (decide _) as [_|?]; [|lia].
  rewrite drop_0, search_gtEnd.
  destruct (last tag) as [c|]; [|done].
  destruct (c =? 62)%N eqn:Hc; [|done].
  apply N.eqb_eq in Hc. congruence.
Qed.

(** A plain name has no dollar sign. *)
Lemma plainName_no_dollar name :
  plainName name = true -> (36%N : char) ∉ s16 name.
Proof.
  unfold plainName. intros H Hin. apply list_elem_of_In in Hin.
  by apply (proj1 (forallb_forall _ _) H) in Hin.
Qed.

Lemma attrText_plain name v :
  36%N ∉ s16 name -> 36%N ∉ v -> 36%N ∉ attrText name v ++ s16 ">".
Proof.
  intros Hn Hv. unfold attrText.
  rewrite !not_elem_of_app. split_and!; try done;
    by (vm_compute; intros H; repeat (apply elem_of_cons in H as [H|H]; [done|]);
        apply elem_of_nil in H).
Qed.

Section Insertion.
Context (E : JsEnv).

Lemma addOrUpdateAttr_absent (tag : str) name (attrValue : value E) v :
  getAttr tag name = None ->
  toStringV E attrValue = Ok v ->
  addOrUpdateAttr E tag name attrValue
  = Ok (replaceFirstStr re_gtEnd (attrText name v ++ s16 ">") tag).
Proof.
  intros Hg Hv. apply getAttr_None_iff in Hg.
  unfold addOrUpdateAttr, test. unfold match_ in Hg. rewrite Hg, Hv.
  rewrite bool_decide_eq_false_2; [done|]. by intros [? ?].
Qed.

(** X10.  When [getAttr] finds no attribute of that name in a tag,
    [addOrUpdateAttr] inserts it, with the value between double quotes,
    before the closing [>] of the tag; a tag that does not end in [>] is
    returned as it is, without the attribute.  (For a name of ASCII
    letters, digits, underscores and hyphens, which stands for itself in
    the pattern built from it, and a value without a dollar sign, which the
    replacement would expand.) *)
Theorem addOrUpdateAttr_inserts (tag : str) name (attrValue : value E) v :
  getAttr tag name = None ->
  toStringV E attrValue = Ok v ->
  plainName name = true -> (36%N : char) ∉ v ->
  (forall body, tag = body ++ s16 ">" ->
     addOrUpdateAttr E tag name attrValue
     = Ok (body ++ attrText name v ++ s16 ">"))
  /\ (last tag <> Some (62%N : char) ->
      addOrUpdateAttr E tag name attrValue = Ok tag).
Proof.
  intros Hg Hv Hn%plainName_no_dollar Hd.
  rewrite (addOrUpdateAttr_absent tag name attrValue v Hg Hv). split.
  - intros body ->. f_equal.
    apply replaceFirstStr_gtEnd_ends. by apply attrText_plain.
  - intros Hl. f_equal. by apply replaceFirstStr_gtEnd_other.
Qed.

End Insertion.

(** ** Attributes: the attribute is there afterwards *)

Lemma search_found p : forall pre rest prev pos,
  (forall x, ms_rest x = rest ->
     rmatch (pat_icase p) (pat_re p) Some x <> None) ->
  search p prev (pre ++ rest) pos <> None.
Proof.
  induction pre as [|c pre IH]; intros rest prev pos H.
  - specialize (H (MState prev rest pos ∅) eq_refl).
    destruct rest; simpl; destruct (rmatch _ _ _ _); done.
  - simpl. destruct (rmatch _ _ _ _); [done|]. by apply IH.
Qed.

Lemma accepts_Some rest : accepts Some rest.
Proof. by intros x _. Qed.

Lemma rmatch_Set_accepts ic k cont c rest x :
  ms_rest x = c :: rest -> cls_mem ic k c = true -> accepts cont rest ->
  rmatch ic (Set_ k) cont x <> None.
Proof. intros Hx Hc Ha. simpl. rewrite Hx, Hc. by apply Ha. Qed.

Lemma cls_mem_self c : cls_mem true (Cls false [IChr c]) c = true.
Proof. unfold cls_mem. simpl. by rewrite N.eqb_refl. Qed.

Lemma rmatch_litS_accepts w : forall cont rest x,
  ms_rest x = w ++ rest -> accepts cont rest ->
  rmatch true (litS w) cont x <> None.
Proof.
  induction w as [|c w IH]; intros cont rest x Hx Ha.
  - by apply Ha.
  - change (litS (c :: w)) with (Seq (chr c) (litS w)). cbn [rmatch].
    apply (rmatch_Set_accepts _ _ _ c (w ++ rest)); [done | apply cls_mem_self|].
    intros x' Hx'. by apply (IH cont rest).
Qed.

(** A greedy repetition succeeds if its continuation does after some
    units of the class. *)
Lemma star_greedy_accepts ic k cont w : forall rest x,
  Forall (fun c => cls_mem ic k c = true) w -> accepts cont rest ->
  ms_rest x = w ++ rest ->
  star_loop ic true k cont (w ++ rest) x <> None.
Proof.
  induction w as [|c w IH]; intros rest x Hw Ha Hx.
  - destruct rest as [|c r]; simpl; [by apply Ha|].
    destruct (cls_mem ic k c); [|by apply Ha].
    destruct (star_loop _ _ _ _ _ _); [done|]. by apply Ha.
  - apply Forall_cons in Hw as [Hc Hw]. simpl. rewrite Hc.
    specialize (IH rest (advance c (w ++ rest) x) Hw Ha eq_refl).
    by destruct (star_loop _ _ _ _ _ _).
Qed.

Lemma rmatch_Star_accepts ic k cont w rest x :
  Forall (fun c => cls_mem ic k c = true) w -> accepts cont rest ->
  ms_rest x = w ++ rest ->
  rmatch ic (Star true k) cont x <> None.
Proof. intros Hw Ha Hx. simpl. rewrite Hx. by apply star_greedy_accepts. Qed.

Lemma canon_not_dq c : c <> dq -> (canon dq =? canon c)%N = false.
Proof.
  intros Hc. apply N.eqb_neq. unfold canon, dq in *.
  destruct ((97 <=? c)%N && (c <=? 122)%N) eqn:H; simpl; [|congruence].
  apply andb_true_iff in H as [H1%N.leb_le H2%N.leb_le]. lia.
Qed.

Lemma cls_mem_neg_dq c : c <> dq -> cls_mem true (neg [dq]) c = true.
Proof.
  intros Hc. unfold cls_mem, neg.
  cbn [cls_neg cls_items map existsb item_mem].
  by rewrite canon_not_dq.
Qed.

(** The pattern of [getAttr] matches the text [ name="v"] wherever it
    stands. *)
Lemma attrText_matches name v post x :
  ms_rest x = attrText name v ++ post ->
  rmatch true (pat_re (re_attrGet (s16 name))) Some x <> None.
Proof.
  intros Hx. unfold attrText in Hx.
  change (s16 " ") with [32%N] in Hx. change (s16 "=") with [61%N] in Hx.
  rewrite <- !app_assoc in Hx. simpl in Hx.
  assert (Hq : exists v1 post', v ++ dq :: post = v1 ++ dq :: post' /\ dq ∉ v1).
  { destruct (list_elem_of_split_l (v ++ dq :: post) dq) as (v1 & post' & ? & ?);
      [apply elem_of_app; right; left|]. by exists v1, post'. }
  destruct Hq as (v1 & post' & Hv & Hv1).
  rewrite Hv in Hx. clear Hv.
  unfold re_attrGet, re_attrValue. cbn [pat_re rmatch].
  eapply rmatch_Set_accepts; [exact Hx | done|].
  intros x1 Hx1. eapply rmatch_litS_accepts; [exact Hx1|].
  intros x2 Hx2.
  eapply (rmatch_Star_accepts _ _ _ []); [constructor | | exact Hx2].
  intros x3 Hx3. eapply rmatch_Set_accepts; [exact Hx3 | done|].
  intros x4 Hx4.
  eapply (rmatch_Star_accepts _ _ _ []); [constructor | | exact Hx4].
  intros x5 Hx5.
  match goal with
  | |- orElse ?a _ <> None => assert (Ha : a <> None); [|by destruct a]
  end.
  eapply rmatch_Set_accepts; [exact Hx5 | done|].
  intros x6 Hx6. simpl in Hx6. cbn [rmatch]. rewrite Hx6.
  apply (star_greedy_accepts _ _ _ v1 (dq :: post')); [| |exact Hx6].
  - apply Forall_forall. intros c Hc. apply cls_mem_neg_dq. by intros ->.
  - intros x7 Hx7. cbn [ms_rest].
    eapply rmatch_Set_accepts; [simpl; exact Hx7 | done|].
    intros x8 Hx8. done.
Qed.

Lemma getAttr_present name v pre post :
  getAttr (pre ++ attrText name v ++ post) name <> None.
Proof.
  unfold getAttr, match_, exec. destruct (decide _) as [_|?]; [|lia].
  rewrite drop_0.
  pose proof (search_found (re_attrGet (s16 name)) pre (attrText name v ++ post)
                (last (take 0 (pre ++ attrText name v ++ post))) 0
                (fun x => attrText_matches name v post x)) as H.
  by destruct (search _ _ _ _).
Qed.

Section Presence.
Context (E : JsEnv).

(** X11.  After [addOrUpdateAttr] the tag has the attribute, as [getAttr]
    reads it, provided the tag had it already or ends in [>].  (For a name
    of ASCII letters, digits, underscores and hyphens, which stands for
    itself in the patterns built from it, and a value without a dollar
    sign.) *)
Theorem addOrUpdateAttr_sets_attribute (tag : str) name v :
  plainName name = true -> (36%N : char) ∉ v ->
  getAttr tag name <> None \/ last tag = Some (62%N : char) ->
  exists tag',
    addOrUpdateAttr E tag name (VStr v) = Ok tag'
    /\ getAttr tag' name <> None.
Proof.
  intros Hn%plainName_no_dollar Hd Hor.
  destruct (getAttr tag name) as [old|] eqn:Hg.
  - assert (Hm : match_ (re_attrSet (s16 name)) tag <> None).
    { intros Hm. apply getAttr_None_iff in Hm. congruence. }
    unfold addOrUpdateAttr, test.
    destruct (match_ (re_attrSet (s16 name)) tag) as [m|] eqn:Em; [|done].
    unfold match_ in Em. rewrite Em.
    rewrite bool_decide_eq_true_2 by by eexists.
    destruct (str_eqb _ []); cbn [rbind toStringV].
    + eexists. split; [done|]. cbn [splice]. apply getAttr_present.
    + eexists. split; [done|].
      apply exec_bounds in Em as (_ & Hle & _).
      rewrite (splice_same tag m Hle). by rewrite Hg.
  - destruct Hor as [?|Hl]; [done|].
    apply last_Some in Hl as [body ->].
    rewrite (addOrUpdateAttr_absent E _ name (VStr v) v Hg eq_refl).
    eexists. split; [done|].
    rewrite replaceFirstStr_gtEnd_ends by by apply attrText_plain.
    apply getAttr_present.
Qed.

End Presence.

(** ** Inline styles: the flag and the order of the declarations *)

Section Flag.

Lemma steady_rising {X} (m : M bool X) a0 : steady m a0 -> rising m.
Proof.
  intros H st a st' Hm Hst. destruct (H st a st' Hm) as [[_ ->]|]; done.
Qed.

Lemma steady_ret {X} (a : X) : steady (ret a) a.
Proof. intros st a' st' [= <- <-]. by left. Qed.

Lemma steady_bind {X Y} (m : M bool X) (f : X -> M bool Y) a0 b0 :
  steady m a0 -> steady (f a0) b0 -> (forall a, rising (f a)) ->
  steady (bind m f) b0.
Proof.
  intros Hm Hf Hr st b st'. unfold bind.
  destruct (m st) as [[a s1]| |] eqn:Em; [|done|done]. intros Hb.
  destruct (Hm st a s1 Em) as [[-> ->]| ->].
  - by apply Hf.
  - right. by eapply Hr.
Qed.

Lemma rising_bind {X Y} (m : M bool X) (f : X -> M bool Y) :
  rising m -> (forall a, rising (f a)) -> rising (bind m f).
Proof.
  intros Hm Hf st b st'. unfold bind.
  destruct (m st) as [[a s1]| |] eqn:Em; [|done|done]. intros Hb Hst.
  eapply Hf; [exact Hb|]. by eapply Hm.
Qed.

Lemma steady_mapM {X Y} (f : X -> M bool Y) (h : X -> Y) l :
  (forall a, steady (f a) (h a)) -> steady (mapM f l) (map h l).
Proof.
  intros Hf. induction l as [|a l IH]; simpl.
  - apply steady_ret.
  - eapply steady_bind; [apply Hf| |].
    + eapply steady_bind; [apply IH | apply steady_ret|].
      intros bs. eapply steady_rising, steady_ret.
    + intros b. apply rising_bind.
      * eapply steady_rising, IH.
      * intros bs. eapply steady_rising, steady_ret.
Qed.

(** A callback that sets the flag: the replace returns the text as it is
    and leaves the flag, or sets the flag. *)
Lemma steady_replaceAllM p (f : mres -> M bool str) v :
  (forall m st a st', f m st = Ok (a, st') -> st' = true) ->
  steady (replaceAllM p f v) v.
Proof.
  intros Hf st v' st'. unfold replaceAllM.
  destruct (matches p v) as [|m ms] eqn:Hm.
  - simpl. unfold bind, ret. intros [= <- <-]. left. by rewrite drop_0.
  - intros H. right. revert H. unfold bind at 1.
    destruct (mapM _ _ st) as [[rs s1]| |] eqn:Em; [|done|done].
    unfold ret. intros [= _ <-].
    assert (Hgen : forall l s rs' s',
              l <> [] ->
              mapM (fun m0 => r <- f m0 ;; ret (m0, r)) l s = Ok (rs', s') ->
              s' = true).
    { clear -Hf. induction l as [|a l IH]; intros s rs' s' Hl; [done|].
      simpl. unfold bind at 1. unfold bind at 1.
      destruct (f a s) as [[r s1]| |] eqn:Ea; [|done|done].
      apply Hf in Ea as ->. unfold ret at 1.
      destruct l as [|b l].
      - simpl. unfold bind, ret. by intros [= _ <-].
      - unfold bind at 1.
        destruct (mapM _ (b :: l) true) as [[rs2 s2]| |] eqn:Eb; [|done|done].
        unfold ret. intros [= _ <-]. by eapply IH. }
    by apply (Hgen (m :: ms) st rs s1).
Qed.

End Flag.

Section StyleFacts.
Context (E : JsEnv).

Lemma setChanged_then {X} (m : M bool X) st a st' :
  (_ <- setChanged ;; m) st = Ok (a, st') -> m true = Ok (a, st').
Proof. done. Qed.

Lemma steady_convertPx basePx v : steady (convertPx E basePx v) v.
Proof.
  apply steady_replaceAllM. intros m st a st' H.
  apply setChanged_then in H. unfold lift in H.
  destruct (emFromPx _ _ _); [|done|done]. by injection H as _ <-.
Qed.

Lemma steady_convertPt v : steady (convertPt E v) v.
Proof.
  apply steady_replaceAllM. intros m st a st' H.
  apply setChanged_then in H. by injection H as _ <-.
Qed.

Lemma steady_convertRem v : steady (convertRem E v) v.
Proof.
  apply steady_replaceAllM. intros m st a st' H.
  apply setChanged_then in H. by injection H as _ <-.
Qed.

(** The conversion of a declaration returns it as it is and leaves the
    flag, or sets the flag. *)
Lemma steady_convertDecl basePx removeWidth d :
  steady (convertDecl E basePx removeWidth d) (Some d).
Proof.
  unfold convertDecl. destruct (_ && _).
  - intros st a st' H. apply setChanged_then in H. right.
    by injection H as _ <-.
  - eapply (steady_bind _ _ (d_value d)).
    + destruct (str_eqb _ _); [|apply steady_ret].
      eapply steady_bind; [apply steady_convertPx| |].
      * eapply steady_bind; [apply steady_convertPt | apply steady_convertRem|].
        intros a. eapply steady_rising, steady_convertRem.
      * intros a. apply rising_bind; [eapply steady_rising, steady_convertPt|].
        intros b. eapply steady_rising, steady_convertRem.
    + eapply steady_bind; [apply steady_convertPx| |].
      * eapply steady_bind; [apply steady_convertPt| |].
        -- destruct d. apply steady_ret.
        -- intros a. eapply steady_rising, steady_ret.
      * intros a. apply rising_bind; [eapply steady_rising, steady_convertPt|].
        intros b. eapply steady_rising, steady_ret.
    + intros a. apply rising_bind; [eapply steady_rising, steady_convertPx|].
      intros b. apply rising_bind; [eapply steady_rising, steady_convertPt|].
      intros c. eapply steady_rising, steady_ret.
Qed.

Lemma steady_convertDecls basePx removeWidth ds :
  steady (convertDecls E basePx removeWidth ds) ds.
Proof.
  unfold convertDecls.
  eapply steady_bind; [apply (steady_mapM _ Some), steady_convertDecl| |].
  - assert (Ho : omap id (map Some ds) = ds).
    { induction ds as [|d ds IH]; [done|]. simpl. by f_equal. }
    intros st a st' [= <- <-]. by left.
  - intros os. eapply steady_rising, steady_ret.
Qed.

Lemma parseDecls_empty : parseDecls E [] = [].
Proof. reflexivity. Qed.

(** X12.  The flag [changed] of [normalizeInlineStyle] is sound: when the
    call reports no change, no declaration was dropped, converted or
    merged, and the style returned is the rendering of the declarations of
    the input as they were parsed. *)
Theorem normalizeInlineStyle_unchanged style (basePx removeWidth : value E) out :
  normalizeInlineStyle E style basePx removeWidth = Ok (out, false) ->
  convertedDecls E style basePx removeWidth = Ok (parseDecls E style, false)
  /\ out = renderDecls (parseDecls E style).
Proof.
  unfold normalizeInlineStyle.
  destruct (str_eqb style []) eqn:Hs.
  - apply str_eqb_eq in Hs as ->. intros [= <-]. split; reflexivity.
  - destruct (convertedDecls E style basePx removeWidth)
      as [[converted changed]| |] eqn:Hc; [|done|done].
    destruct (compactPadding converted changed) as [ds changed'] eqn:Hp.
    intros [= <- ->].
    assert (Hnc : ds = converted /\ changed = false).
    { revert Hp. unfold compactPadding. rewrite presentVals_sideValues.
      destruct (decide _) as [Hlen|]; [|by intros [= <- <-]].
      destruct (allEqual _); [|by intros [= <- <-]].
      rewrite compressLoop_collapse.
      rewrite sideValues_has_side
        by (destruct (sideValues converted); [simpl in Hlen; lia | done]).
      rewrite orb_true_r. by intros [= _ ?]. }
    destruct Hnc as [-> ->].
    unfold convertedDecls in Hc.
    apply steady_convertDecls in Hc as [[-> _]|?]; done.
Qed.

Lemma convertDecl_prop basePx removeWidth d st o st' :
  convertDecl E basePx removeWidth d st = Ok (o, st') ->
  d_prop <$> o
  = if keptProp removeWidth (d_prop d) then Some (d_prop d) else None.
Proof.
  unfold convertDecl, keptProp. destruct (_ && _); simpl.
  - intros H. apply setChanged_then in H. by injection H as <- _.
  - unfold bind. intros H.
    repeat match type of H with
           | context [match ?x with _ => _ end] =>
               destruct x as [[? ?]| |] eqn:?; try done
           end.
    by injection H as <- _.
Qed.

Lemma omap_id_cons_props (o : option decl) os :
  map d_prop (omap id (o :: os))
  = match d_prop <$> o with Some p => [p] | None => [] end
    ++ map d_prop (omap id os).
Proof. by destruct o. Qed.

Lemma convertDecls_props basePx removeWidth ds : forall st converted st',
  convertDecls E basePx removeWidth ds st = Ok (converted, st') ->
  map d_prop converted
  = filter (fun p => keptProp removeWidth p = true) (map d_prop ds).
Proof.
  unfold convertDecls.
  assert (Hm : forall st os st',
    mapM (convertDecl E basePx removeWidth) ds st = Ok (os, st') ->
    map d_prop (omap id os)
    = filter (fun p => keptProp removeWidth p = true) (map d_prop ds)).
  { induction ds as [|d ds IH]; intros st os st'; simpl.
    - by intros [= <- _].
    - unfold bind at 1.
      destruct (convertDecl E basePx removeWidth d st) as [[o s1]| |] eqn:Hd;
        [|done|done].
      unfold bind at 1.
      destruct (mapM _ ds s1) as [[os' s2]| |] eqn:Hs; [|done|done].
      unfold ret. intros [= <- _].
      apply convertDecl_prop in Hd. apply IH in Hs.
      rewrite omap_id_cons_props, Hd, Hs.
      change (map d_prop (d :: ds)) with (d_prop d :: map d_prop ds).
      rewrite filter_cons.
      destruct (keptProp removeWidth (d_prop d)); simpl.
      + by destruct (decide (true = true)).
      + by destruct (decide (false = true)). }
  intros st converted st'. unfold bind.
  destruct (mapM _ ds st) as [[os s1]| |] eqn:Hs; [|done|done].
  unfold ret. intros [= <- _]. by eapply Hm.
Qed.

(** X13.  The unit conversion of [normalizeInlineStyle] keeps the
    declarations in their order and with their property names; it drops
    exactly the [width] declarations when [removeWidth] is truthy, which is
    the default. *)
Theorem conversion_keeps_order style (basePx removeWidth : value E) converted changed :
  convertedDecls E style basePx removeWidth = Ok (converted, changed) ->
  map d_prop converted
  = filter (fun p => keptProp (orDefault E removeWidth (VBool true)) p = true)
      (map d_prop (parseDecls E style)).
Proof. unfold convertedDecls. apply convertDecls_props. Qed.

End StyleFacts.

(** ** Instances of the further statements *)

Lemma issues_in_pass_order_witness :
  let html := txt "<th>x</th><img src=`a`><iframe></iframe>" in
  exists r,
    repairHtml RefEnv.env html VUndef = Ok r
    /\ map ruleId (issues r) = [s16 "frame-title"; s16 "img-alt"; s16 "th-scope"]
    /\ inPassOrder (issues r)
    /\ Forall (fun i => 1 <= stageOf (ruleId i) <= 10) (issues r).
Proof.
  intros html. eexists. split; [vm_compute; reflexivity|].
  split; [vm_compute; reflexivity|].
  apply (issues_in_pass_order RefEnv.env html VUndef).
  vm_compute; reflexivity.
Defined.

Lemma issues_agree_with_catalogue_witness :
  let html := txt "<nav>x</nav><img src=`a`>" in
  exists r,
    repairHtml RefEnv.env html VUndef = Ok r
    /\ Forall (fun i =>
                 exists m,
                   m ∈ BUILT_IN_RULES
                   /\ rule_id m = ruleId i
                   /\ rule_wcagCode m = wcagCode i
                   /\ rule_level m = level i
                   /\ rule_canAutoFix m = autoFixed i
                   /\ (forall c, rule_taiwanCode m = Some c -> taiwanCode i = c))
              (issues r).
Proof.
  intros html. eexists. split; [vm_compute; reflexivity|].
  apply (issues_agree_with_catalogue RefEnv.env html VUndef).
  vm_compute; reflexivity.
Defined.

Lemma issues_fixed_or_flagged_witness :
  let html := txt "<nav>x</nav><img src=`a`>" in
  exists r,
    repairHtml RefEnv.env html VUndef = Ok r
    /\ map (fun i => (ruleId i, autoFixed i, needsManualReview i)) (issues r)
       = [(s16 "img-alt", true, true); (s16 "skip-link", false, true)]
    /\ Forall (fun i =>
                 (autoFixed i = true <-> is_Some (fixedSnippet i))
                 /\ (autoFixed i = false -> needsManualReview i = true))
              (issues r)
    /\ totalIssues (summary r)
       <= sum_autoFixed (summary r) + sum_needsManualReview (summary r).
Proof.
  intros html. eexists. split; [vm_compute; reflexivity|].
  split; [vm_compute; reflexivity|].
  match goal with
  | |- context [issues ?r] =>
      destruct (issues_fixed_or_flagged RefEnv.env html VUndef r)
        as (H1 & H2 & _); [vm_compute; reflexivity|]
  end.
  split; [exact H1 | exact H2].
Defined.

Lemma color_contrast_issues_witness :
  let html :=
    txt "<p style=`color:red`>x</p><p style=`color:red;background-color:blue`>y</p>" in
  exists r,
    repairHtml RefEnv.env html VUndef = Ok r
    /\ filter (fun i => ruleId i = s16 "color-contrast") (issues r)
       = map (fun t => fillLocation html (colorIssue t)) [txt "style=`color:red`"]
    /\ length (filter (fun i => ruleId i = s16 "color-contrast") (issues r)) <= 5.
Proof.
  intros html. eexists. split; [vm_compute; reflexivity|].
  match goal with
  | |- context [issues ?r] =>
      destruct (color_contrast_issues RefEnv.env html VUndef r) as (H1 & H2);
        [vm_compute; reflexivity|]
  end.
  split; [|exact H2]. rewrite H1. vm_compute; reflexivity.
Defined.

Lemma skip_link_issue_witness :
  let html := txt "<nav><a href=`/`>Home</a></nav><main>x</main>" in
  exists r,
    repairHtml RefEnv.env html VUndef = Ok r
    /\ map (fun i => (originalSnippet i, autoFixed i, location i))
         (filter (fun i => ruleId i = s16 "skip-link") (issues r))
       = [(s16 "(document)", false, (0, 0, 0, 0))].
Proof.
  intros html. eexists. split; [vm_compute; reflexivity|].
  match goal with
  | |- context [issues ?r] =>
      rewrite (skip_link_issue RefEnv.env html VUndef r)
        by (vm_compute; reflexivity)
  end.
  vm_compute; reflexivity.
Defined.

Lemma form_label_issues_witness :
  let html :=
    txt "<label for=`a`>A</label><input id=`a`><input type=`hidden`><select name=`s`>" in
  exists r,
    repairHtml RefEnv.env html VUndef = Ok r
    /\ map originalSnippet
         (filter (fun i => ruleId i = s16 "form-label") (issues r))
       = [txt "<select name=`s`>"].
Proof.
  intros html. eexists. split; [vm_compute; reflexivity|].
  match goal with
  | |- context [issues ?r] =>
      rewrite (form_label_issues RefEnv.env html VUndef r)
        by (vm_compute; reflexivity)
  end.
  vm_compute; reflexivity.
Defined.

Lemma report_only_passes_keep_text_witness :
  let html := txt "<nav>x</nav><img src=`a`><input>" in
  exists r l,
    repairHtml RefEnv.env html VUndef = Ok r
    /\ rewritingPasses (E:=RefEnv.env) VUndef html [] = Ok (repairedHtml r, l)
    /\ filter (fun i => autoFixed i = true) (issues r)
       = map (fillLocation html) l.
Proof.
  intros html.
  assert (Hr : exists r, repairHtml RefEnv.env html VUndef = Ok r)
    by (eexists; vm_compute; reflexivity).
  destruct Hr as [r Hr].
  destruct (report_only_passes_keep_text RefEnv.env html VUndef r Hr)
    as (l & H1 & H2).
  exists r, l. split; [exact Hr|]. split; [exact H1 | exact H2].
Defined.

Lemma issue_locations_span_snippet_witness :
  let html := txt "<p>x</p><img src=`a`>" in
  exists r,
    repairHtml RefEnv.env html VUndef = Ok r
    /\ map (fun i => (originalSnippet i, location i)) (issues r)
       = [(txt "<img src=`a`>", (1, 9, 8, 21))]
    /\ Forall (fun i => unlocated i \/ spansSnippet html i) (issues r).
Proof.
  intros html. eexists. split; [vm_compute; reflexivity|].
  split; [vm_compute; reflexivity|].
  apply (issue_locations_span_snippet RefEnv.env html VUndef).
  vm_compute; reflexivity.
Defined.

Lemma same_snippet_same_location_witness :
  let html := txt "<img src=`a`><p>x</p><img src=`a`>" in
  exists r i j,
    repairHtml RefEnv.env html VUndef = Ok r
    /\ issues r = [i; j]
    /\ originalSnippet i = originalSnippet j
    /\ location i = location j
    /\ location j = (1, 1, 0, 13).
Proof.
  intros html.
  destruct (repairHtml RefEnv.env html VUndef) as [r| |] eqn:Hr;
    [|vm_compute in Hr; discriminate Hr|vm_compute in Hr; discriminate Hr].
  pose proof (same_snippet_same_location RefEnv.env html VUndef r) as Hsame.
  specialize (fun i j => Hsame i j Hr).
  vm_compute in Hr. injection Hr as <-.
  do 3 eexists. split; [reflexivity|]. split; [reflexivity|].
  split; [reflexivity|]. split; [|vm_compute; reflexivity].
  apply Hsame; [apply list_elem_of_here | | reflexivity].
  apply list_elem_of_further, list_elem_of_here.
Defined.

Local Ltac plain :=
  vm_compute; let H := fresh in
  intros H; repeat (apply elem_of_cons in H as [H|H]; [discriminate H|]);
  by apply elem_of_nil in H.

Lemma addOrUpdateAttr_inserts_witness :
  addOrUpdateAttr RefEnv.env (txt "<img src=`a`>") "alt" (VStr (s16 "logo"))
  = Ok (txt "<img src=`a` alt=`logo`>")
  /\ addOrUpdateAttr RefEnv.env (txt "<img src=`a`") "alt" (VStr (s16 "logo"))
     = Ok (txt "<img src=`a`").
Proof.
  split.
  - destruct (addOrUpdateAttr_inserts RefEnv.env (txt "<img src=`a`>") "alt"
                (VStr (s16 "logo")) (s16 "logo")) as (H & _);
      [vm_compute; reflexivity | reflexivity | reflexivity | plain|].
    apply (H (txt "<img src=`a`")). vm_compute; reflexivity.
  - destruct (addOrUpdateAttr_inserts RefEnv.env (txt "<img src=`a`") "alt"
                (VStr (s16 "logo")) (s16 "logo")) as (_ & H);
      [vm_compute; reflexivity | reflexivity | reflexivity | plain|].
    apply H. vm_compute. discriminate.
Defined.

Lemma addOrUpdateAttr_sets_attribute_witness :
  exists tag',
    addOrUpdateAttr RefEnv.env (txt "<th scope=``>") "scope" (VStr (s16 "col"))
    = Ok tag'
    /\ getAttr tag' "scope" <> None.
Proof.
  apply (addOrUpdateAttr_sets_attribute RefEnv.env (txt "<th scope=``>") "scope"
           (s16 "col")); [reflexivity | plain|].
  left. vm_compute. discriminate.
Defined.

Lemma normalizeInlineStyle_unchanged_witness :
  let sixteen : value RefEnv.env := VNum (numOfNat RefEnv.env 16) in
  let style := s16 "color : red;;margin:0 auto" in
  normalizeInlineStyle RefEnv.env style sixteen (VBool true)
  = Ok (s16 "color:red; margin:0 auto", false)
  /\ renderDecls (parseDecls RefEnv.env style) = s16 "color:red; margin:0 auto".
Proof.
  intros sixteen style.
  assert (H : normalizeInlineStyle RefEnv.env style sixteen (VBool true)
              = Ok (s16 "color:red; margin:0 auto", false))
    by (vm_compute; reflexivity).
  split; [exact H|].
  destruct (normalizeInlineStyle_unchanged RefEnv.env style sixteen (VBool true)
              _ H) as (_ & Ho).
  by rewrite <- Ho.
Defined.

Lemma conversion_keeps_order_witness :
  let sixteen : value RefEnv.env := VNum (numOfNat RefEnv.env 16) in
  let style := s16 "Margin:8px;width:100px;color:red" in
  exists converted changed,
    convertedDecls RefEnv.env style sixteen VUndef = Ok (converted, changed)
    /\ map d_prop converted = [s16 "margin"; s16 "color"].
Proof.
  intros sixteen style. do 2 eexists. split; [vm_compute; reflexivity|].
  rewrite (conversion_keeps_order RefEnv.env style sixteen VUndef _ true)
    by (vm_compute; reflexivity).
  vm_compute; reflexivity.
Defined.

(** ** A configuration that disables every rule *)

Lemma mapM_skipped {X Y} (f : X -> M Ledger Y) (h : X -> Y) l :
  Forall (fun a => skipped (f a) (h a)) l -> skipped (mapM f l) (map h l).
Proof.
  induction 1 as [|a l Ha _ IH]; intros st; [done|].
  simpl. unfold bind. by rewrite (Ha st), (IH st).
Qed.

(** A replace whose callback returns each match as it is and leaves the
    ledger alone. *)
Lemma replaceAllM_skipped p (f : str -> M Ledger str) s :
  Forall (fun t => skipped (f t) t) (map (mtext s) (matches p s)) ->
  skipped (replaceAllM p (fun m => f (mtext s m)) s) s.
Proof.
  intros Hf st. unfold replaceAllM. unfold bind at 1.
  rewrite (mapM_skipped _ (fun m => (m, mtext s m))).
  - unfold ret, matches. rewrite splice_matches_same by lia. by rewrite drop_0.
  - apply Forall_map in Hf. eapply Forall_impl; [exact Hf|].
    intros m Hm st'. unfold bind. by rewrite (Hm st').
Qed.

Section Disabled.
Context (E : JsEnv).

Local Opaque stripTags linkNameOf test getAttr replaceFirstStr firstMatchOr
  blank replaceAllM addOrUpdateAttr mergedHint.

(** An anchor without [href] is left as it is. *)
Lemma linkCb_no_href (config : value E) full :
  test re_aHref (firstMatchOr (re_startTag "a") full (s16 "<a>")) = false ->
  skipped (linkCb E config full) full.
Proof. intros H st. unfold linkCb. cbv zeta. by rewrite H. Qed.

Local Transparent stripTags linkNameOf test getAttr replaceFirstStr
  firstMatchOr blank replaceAllM addOrUpdateAttr mergedHint.

(** X14.  With a configuration under which no rule is enabled (such as an
    empty [rules.enabled]), [repairHtml] returns the input as it is,
    without issues, provided every anchor element of the input has no
    [href] or has an accessible name; an anchor with [href] and without a
    name is the one thing the engine still rewrites. *)
Theorem all_rules_disabled html (config : value E) :
  (forall id, ruleEnabled E config id = false) ->
  Forall (fun full =>
            test re_aHref (firstMatchOr (re_startTag "a") full (s16 "<a>")) = false
            \/ anchorName full <> [])
         (map (mtext html) (matches (re_element "a") html)) ->
  exists r,
    repairHtml E html config = Ok r
    /\ repairedHtml r = html
    /\ issues r = []
    /\ totalIssues (summary r) = 0.
Proof.
  intros Hoff Hlinks.
  assert (Hlink : skipped (linkPass E config html) html).
  { unfold linkPass. apply (replaceAllM_skipped _ (linkCb E config)).
    eapply Forall_impl; [exact Hlinks|].
    intros full [Hh | Hn]; [by apply linkCb_no_href|].
    by apply linkCb_skipped. }
  assert (Hp : passes E config html [] = Ok (html, [])).
  { unfold passes, passes1to9, frameTitlePass, imgAltPass, rowHeaderPass,
      thScopePass, inlineStylePass, styleBlockPass, formLabelPass,
      skipLinkPass, colorContrastPass, fakeButtonPass.
    rewrite !Hoff. unfold bind, ret. by rewrite (Hlink []). }
  unfold repairHtml. rewrite Hp. by eexists.
Qed.

End Disabled.

Lemma all_rules_disabled_witness :
  let config : value RefEnv.env := rulesConfig [] [] in
  let html := txt "<p><a name=`top`></a><a href=`/x`>Home</a><img src=`a`></p>" in
  exists r,
    repairHtml RefEnv.env html config = Ok r
    /\ repairedHtml r = html
    /\ issues r = []
    /\ totalIssues (summary r) = 0.
Proof.
  intros config html.
  apply (all_rules_disabled RefEnv.env html config).
  - intros id. reflexivity.
  - assert (Hl : map (mtext html) (matches (re_element "a") html)
                 = [txt "<a name=`top`></a>"; txt "<a href=`/x`>Home</a>"])
      by (vm_compute; reflexivity).
    rewrite Hl. apply Forall_cons. split; [left; vm_compute; reflexivity|].
    apply Forall_cons. split; [right; vm_compute; discriminate|].
    apply Forall_nil_2.
Defined.

(** ** The text of a match *)

(** Where [search] finds a match, the matcher succeeds. *)
Lemma search_at p : forall rest prev pos m,
  search p prev rest pos = Some m ->
  exists pre rest1 prev1 y,
    rest = pre ++ rest1
    /\ m_start m = pos + length pre
    /\ rmatch (pat_icase p) (pat_re p) Some (MState prev1 rest1 (m_start m) ∅)
       = Some y
    /\ m_end m = ms_pos y
    /\ m_caps m = ms_caps y.
Proof.
  induction rest as [|c rest IH]; intros prev pos m H; simpl in H.
  - destruct (rmatch _ _ _ _) as [y|] eqn:Hm; [|done]. injection H as <-.
    exists [], [], prev, y. simpl. rewrite Nat.add_0_r. done.
  - destruct (rmatch _ _ _ _) as [y|] eqn:Hm.
    + injection H as <-. exists [], (c :: rest), prev, y. simpl.
      rewrite Nat.add_0_r. done.
    + apply IH in H as (pre & rest1 & prev1 & y & -> & Hs & Hr & He & Hc).
      exists (c :: pre), rest1, prev1, y. simpl. split_and!; [done | lia | done..].
Qed.

Lemma exec_at p s from m :
  exec p s from = Some m ->
  exists prev1 y,
    rmatch (pat_icase p) (pat_re p) Some
      (MState prev1 (drop (m_start m) s) (m_start m) ∅) = Some y
    /\ m_end m = ms_pos y
    /\ m_caps m = ms_caps y.
Proof.
  unfold exec. destruct (decide _) as [Hle|]; [|done]. intros H.
  apply search_at in H as (pre & rest1 & prev1 & y & Hd & Hs & Hr & He & Hc).
  exists prev1, y. split_and!; [|done..].
  replace (drop (m_start m) s) with rest1; [done|].
  rewrite Hs, <- drop_drop, Hd.
  by rewrite drop_app_length.
Qed.

(** The text between two cursors of a scan of [s]. *)
Lemma reach_text (s : str) x y :
  reach x y -> ms_rest x = drop (ms_pos x) s ->
  ms_rest y = drop (ms_pos y) s
  /\ ms_rest x = slice (ms_pos x) (ms_pos y) s ++ ms_rest y.
Proof.
  intros (w & Hw & Hp) Hx. rewrite Hx in Hw.
  assert (Hy : ms_rest y = drop (ms_pos y) s).
  { rewrite Hp, <- drop_drop, Hw. by rewrite drop_app_length. }
  split; [done|]. rewrite Hx. unfold slice.
  rewrite Hp. replace (ms_pos x + length w - ms_pos x) with (length w) by lia.
  rewrite Hw. by rewrite take_app_length.
Qed.

Lemma matches_from_exec p s m : forall fuel from,
  m ∈ matches_from fuel p s from -> exists from', exec p s from' = Some m.
Proof.
  induction fuel as [|n IH]; intros from; simpl; [by intros ?%elem_of_nil|].
  destruct (exec p s from) as [m'|] eqn:He; [|by intros ?%elem_of_nil].
  intros [-> | Hin]%elem_of_cons; [by exists from|]. by eapply IH.
Qed.

Lemma canon_gt c : (canon 62 =? canon c)%N = true -> c = 62%N.
Proof.
  intros H%N.eqb_eq. unfold canon in H. simpl in H.
  destruct ((97 <=? c)%N && (c <=? 122)%N) eqn:Hc; [|done].
  apply andb_true_iff in Hc as [H1%N.leb_le H2%N.leb_le]. lia.
Qed.

(** The last step of a pattern that ends in [>]. *)
Lemma rmatch_gt_last cont x y :
  rmatch true (lit ">") cont x = Some y ->
  exists rest, ms_rest x = 62%N :: rest /\ cont (advance 62%N rest x) = Some y.
Proof.
  change (lit ">") with (Seq (chr 62%N) Eps). simpl.
  destruct (ms_rest x) as [|c rest]; [done|].
  unfold cls_mem. cbn [cls_neg cls_items existsb item_mem xorb].
  rewrite orb_false_r. destruct (canon 62 =? canon c)%N eqn:Hc; [|done].
  apply canon_gt in Hc as ->. intros H. by exists rest.
Qed.

Lemma rmatch_seq_reach ic r1 r2 cont x y :
  rmatch ic (Seq r1 r2) cont x = Some y ->
  exists x1, reach x x1 /\ rmatch ic r2 cont x1 = Some y.
Proof.
  simpl. intros H. apply rmatch_reach in H as (x1 & H & R). by exists x1.
Qed.

(** A start tag found by a scan ends in [>]. *)
Lemma reach_gt_last (s : str) x0 x4 rest m :
  ms_rest x0 = drop (m_start m) s -> ms_pos x0 = m_start m ->
  reach x0 x4 -> ms_rest x4 = 62%N :: rest ->
  m_end m = S (ms_pos x4) ->
  last (mtext s m) = Some 62%N.
Proof.
  intros Hr Hp R Hx4 He.
  assert (R' : reach x0 (advance 62%N rest x4)).
  { eapply reach_trans; [exact R | by apply reach_advance]. }
  rewrite <- Hp in Hr. apply (reach_text s) in R' as [_ Ht]; [|done].
  apply (reach_text s) in R as [_ Ht4]; [|done].
  unfold mtext. rewrite <- Hp, He.
  change (S (ms_pos x4)) with (ms_pos (advance 62%N rest x4)).
  assert (Hs : slice (ms_pos x0) (ms_pos (advance 62%N rest x4)) s
               = slice (ms_pos x0) (ms_pos x4) s ++ [62%N]).
  { rewrite Ht4, Hx4 in Ht. simpl in Ht.
    rewrite (cons_middle 62%N), app_assoc in Ht.
    by apply app_inv_tail in Ht. }
  rewrite Hs. apply last_snoc.
Qed.

Lemma startTag_ends name s m :
  m ∈ matches (re_startTag name) s -> last (mtext s m) = Some 62%N.
Proof.
  intros Hin. apply matches_from_exec in Hin as [from He].
  apply exec_at in He as (prev1 & y & Hm & Hend & _).
  unfold re_startTag in Hm. cbn [pat_icase pat_re] in Hm.
  apply rmatch_seq_reach in Hm as (x1 & R1 & Hm).
  apply rmatch_seq_reach in Hm as (x2 & R2 & Hm).
  apply rmatch_seq_reach in Hm as (x3 & R3 & Hm).
  apply rmatch_seq_reach in Hm as (x4 & R4 & Hm).
  apply rmatch_gt_last in Hm as (rest & Hx4 & Hy). injection Hy as <-.
  apply (reach_gt_last s (MState prev1 (drop (m_start m) s) (m_start m) ∅)
           x4 rest m); [done | done | | done | done].
  eapply reach_trans; [exact R1|]. eapply reach_trans; [exact R2|].
  eapply reach_trans; [exact R3 | exact R4].
Qed.

Lemma frame_ends s m :
  m ∈ matches re_frame s -> last (mtext s m) = Some 62%N.
Proof.
  intros Hin. apply matches_from_exec in Hin as [from He].
  apply exec_at in He as (prev1 & y & Hm & Hend & _).
  unfold re_frame in Hm. cbn [pat_icase pat_re] in Hm.
  apply rmatch_seq_reach in Hm as (x1 & R1 & Hm).
  apply rmatch_seq_reach in Hm as (x2 & R2 & Hm).
  apply rmatch_seq_reach in Hm as (x3 & R3 & Hm).
  apply rmatch_seq_reach in Hm as (x4 & R4 & Hm).
  apply rmatch_gt_last in Hm as (rest & Hx4 & Hy). injection Hy as <-.
  apply (reach_gt_last s (MState prev1 (drop (m_start m) s) (m_start m) ∅)
           x4 rest m); [done | done | | done | done].
  eapply reach_trans; [exact R1|]. eapply reach_trans; [exact R2|].
  eapply reach_trans; [exact R3 | exact R4].
Qed.

(** ** What the attribute fixes achieve *)

Lemma emits_bind_lift {X Y} P (r : Res X) (f : X -> M Ledger Y) :
  (forall a, r = Ok a -> emits P (f a)) -> emits P (bind (lift r) f).
Proof.
  intros Hf st. unfold bind, lift. destruct r as [a| |]; [|done|done].
  by apply Hf.
Qed.

Lemma emits_mapM_in {X Y} P (f : X -> M Ledger Y) l :
  (forall a, a ∈ l -> emits P (f a)) -> emits P (mapM f l).
Proof.
  induction l as [|a l IH]; intros Hf; simpl.
  - apply emits_ret.
  - apply emits_bind; [apply Hf; left|]. intros b.
    apply emits_bind; [|intros bs; apply emits_ret].
    apply IH. intros a' Ha'. apply Hf. by right.
Qed.

Lemma emits_replaceAllM_in P p (f : mres -> M Ledger str) s :
  (forall m, m ∈ matches p s -> emits P (f m)) -> emits P (replaceAllM p f s).
Proof.
  intros Hf. unfold replaceAllM. apply emits_bind.
  - apply emits_mapM_in. intros m Hm. apply emits_bind; [by apply Hf|].
    intros r. apply emits_ret.
  - intros ms. apply emits_ret.
Qed.

Section AttrFixes.
Context {E : JsEnv}.
Variable config : value E.

(** A tag returned by [addOrUpdateAttr] has the attribute. *)
Lemma addOrUpdateAttr_result_has (tag : str) name (av : value E) tag' :
  addOrUpdateAttr E tag name av = Ok tag' ->
  (forall v, toStringV E av = Ok v -> 36%N ∉ v) ->
  36%N ∉ s16 name ->
  getAttr tag name <> None \/ last tag = Some (62%N : char) ->
  getAttr tag' name <> None.
Proof.
  intros Ha Hv Hn Hor.
  destruct (getAttr tag name) as [old|] eqn:Hg.
  - assert (Hm : match_ (re_attrSet (s16 name)) tag <> None).
    { intros Hm. apply getAttr_None_iff in Hm. congruence. }
    revert Ha. unfold addOrUpdateAttr, test.
    destruct (match_ (re_attrSet (s16 name)) tag) as [m|] eqn:Em; [|done].
    unfold match_ in Em. rewrite Em.
    rewrite bool_decide_eq_true_2 by by eexists.
    destruct (str_eqb _ []); cbn [rbind].
    + destruct (toStringV E av) as [v| |]; cbn [rbind]; [|done|done].
      intros [= <-]. cbn [splice]. apply getAttr_present.
    + intros Ha. apply exec_bounds in Em as (_ & Hle & _).
      assert (Ht : tag' = tag).
      { injection Ha as <-. exact (splice_same tag m Hle). }
      rewrite Ht, Hg. done.
  - destruct Hor as [?|Hl]; [done|].
    apply last_Some in Hl as [body ->].
    destruct (toStringV E av) as [v| |] eqn:Ev.
    + rewrite (addOrUpdateAttr_absent E _ name av v Hg Ev) in Ha.
      injection Ha as <-.
      rewrite replaceFirstStr_gtEnd_ends
        by (apply attrText_plain; [done | by apply Hv]).
      apply getAttr_present.
    + revert Ha. unfold addOrUpdateAttr, test.
      apply getAttr_None_iff in Hg. unfold match_ in Hg. rewrite Hg, Ev.
      rewrite bool_decide_eq_false_2; [done|]. by intros [? ?].
    + revert Ha. unfold addOrUpdateAttr, test.
      apply getAttr_None_iff in Hg. unfold match_ in Hg. rewrite Hg, Ev.
      rewrite bool_decide_eq_false_2; [done|]. by intros [? ?].
Qed.

(** A push of an issue of a rule other than the three attribute rules. *)
Ltac push_other :=
  apply emits_push;
  try unfold newWindowIssue; try unfold colorIssue; try unfold fakeButtonIssue;
  unfold attrFixed; cbn [ruleId createIssue i_ruleId];
  split_and!; (let H := fresh in intros H; vm_compute in H; discriminate H).

Local Opaque getAttr addOrUpdateAttr.

Lemma thScopeCb_attr tag :
  last tag = Some (62%N : char) -> emits (attrFixed config) (thScopeCb E tag).
Proof.
  intros Hl. unfold thScopeCb. destruct (negb _); [apply emits_ret|].
  apply emits_bind_lift. intros fixed Hf.
  apply emits_bind; [|intros; apply emits_ret].
  apply emits_push. unfold attrFixed. cbn [ruleId createIssue i_ruleId].
  split_and!; try (let H := fresh in intros H; vm_compute in H; discriminate H).
  intros _. exists fixed. split; [done|].
  eapply addOrUpdateAttr_result_has; [exact Hf | | plain | by right].
  intros v [= <-]. plain.
Qed.

Lemma imgAltCb_attr tag :
  last tag = Some (62%N : char) -> emits (attrFixed config) (imgAltCb E config tag).
Proof.
  intros Hl. unfold imgAltCb. destruct (getAttr tag "alt"); [apply emits_ret|].
  cbv zeta. apply emits_bind_lift. intros fixed Hf.
  apply emits_bind; [|intros; apply emits_ret].
  apply emits_push. unfold attrFixed. cbn [ruleId createIssue i_ruleId].
  split_and!; try (let H := fresh in intros H; vm_compute in H; discriminate H).
  intros _ Hp. exists fixed. split; [done|].
  eapply addOrUpdateAttr_result_has; [exact Hf | exact Hp | plain | by right].
Qed.

Lemma imgInLinkCb_attr tag :
  last tag = Some (62%N : char) ->
  emits (attrFixed config) (imgInLinkCb E config tag).
Proof.
  intros Hl. unfold imgInLinkCb. destruct (blank _); [|apply emits_ret].
  cbv zeta. apply emits_bind_lift. intros fixed Hf.
  apply emits_bind; [|intros; apply emits_ret].
  apply emits_push. unfold attrFixed. cbn [ruleId createIssue i_ruleId].
  split_and!; try (let H := fresh in intros H; vm_compute in H; discriminate H).
  intros _ Hp. exists fixed. split; [done|].
  eapply addOrUpdateAttr_result_has; [exact Hf | exact Hp | plain | by right].
Qed.

Lemma frameTitleCb_attr tag :
  last tag = Some (62%N : char) ->
  emits (attrFixed config) (frameTitleCb E config tag).
Proof.
  intros Hl. unfold frameTitleCb. cbv zeta. destruct (blank _); [|apply emits_ret].
  apply emits_bind_lift. intros fixed Hf.
  apply emits_bind; [apply emits_lift|]. intros review.
  apply emits_bind; [|intros; apply emits_lift].
  apply emits_push. unfold attrFixed. cbn [ruleId createIssue i_ruleId].
  split_and!; try (let H := fresh in intros H; vm_compute in H; discriminate H).
  intros _ Hp. exists fixed. split; [done|].
  eapply addOrUpdateAttr_result_has; [exact Hf | exact Hp | plain | by right].
Qed.

Local Transparent getAttr addOrUpdateAttr.

Lemma linkCb_attr full : emits (attrFixed config) (linkCb E config full).
Proof.
  unfold linkCb.
  repeat first
    [ apply emits_replaceAllM_in;
      let m := fresh "m" in let Hm := fresh "Hm" in
      intros m Hm; apply imgInLinkCb_attr; by apply startTag_ends in Hm
    | push_other | emit_step ].
Qed.

Lemma rowHeaderCb_attr tr : emits (attrFixed config) (rowHeaderCb E config tr).
Proof. unfold rowHeaderCb. repeat first [push_other | emit_step]. Qed.

Lemma inlineStyleCb_attr s m : emits (attrFixed config) (inlineStyleCb E config s m).
Proof. unfold inlineStyleCb. repeat first [push_other | emit_step]. Qed.

Lemma styleBlockCb_attr s m : emits (attrFixed config) (styleBlockCb E config s m).
Proof. unfold styleBlockCb. repeat first [push_other | emit_step]. Qed.

Lemma formLabelCb_attr labels tag : emits (attrFixed config) (formLabelCb E labels tag).
Proof. unfold formLabelCb. repeat first [push_other | emit_step]. Qed.

Lemma colorLoop_attr s ms : forall warned,
  emits (attrFixed config) (colorLoop s ms warned).
Proof.
  induction ms as [|m ms IH]; intros warned; simpl.
  - apply emits_ret.
  - repeat first [apply IH | push_other | emit_step].
Qed.

Lemma fakeButtonLoop_attr s ms : forall count,
  emits (attrFixed config) (fakeButtonLoop s ms count).
Proof.
  induction ms as [|m ms IH]; intros count; simpl.
  - apply emits_ret.
  - repeat first [apply IH | push_other | emit_step].
Qed.

Lemma passes_attr html : emits (attrFixed config) (passes E config html).
Proof.
  unfold passes, passes1to9, frameTitlePass, imgAltPass, linkPass,
    rowHeaderPass, thScopePass, inlineStylePass, styleBlockPass, formLabelPass,
    skipLinkPass, colorContrastPass, fakeButtonPass.
  repeat first
    [ apply linkCb_attr
    | apply rowHeaderCb_attr
    | apply inlineStyleCb_attr
    | apply styleBlockCb_attr
    | apply formLabelCb_attr
    | apply colorLoop_attr
    | apply fakeButtonLoop_attr
    | match goal with
      | |- emits _ (replaceAllM re_frame _ _) =>
          apply emits_replaceAllM_in;
          let m := fresh "m" in let Hm := fresh "Hm" in
          intros m Hm; apply frameTitleCb_attr; by apply frame_ends in Hm
      | |- emits _ (replaceAllM (re_startTag "img") _ _) =>
          apply emits_replaceAllM_in;
          let m := fresh "m" in let Hm := fresh "Hm" in
          intros m Hm; apply imgAltCb_attr; by apply startTag_ends in Hm
      | |- emits _ (replaceAllM (re_startTag "th") _ _) =>
          apply emits_replaceAllM_in;
          let m := fresh "m" in let Hm := fresh "Hm" in
          intros m Hm; apply thScopeCb_attr; by apply startTag_ends in Hm
      end
    | push_other
    | emit_step ].
Qed.

End AttrFixes.

Section AttrFixed.
Context (E : JsEnv).

(** X15.  The fixes of the attribute rules achieve their aim: in a result,
    the fixed snippet of every th-scope issue has a [scope] attribute, that
    of every img-alt issue an [alt] attribute and that of every frame-title
    issue a [title] attribute, as [getAttr] reads them; for img-alt and
    frame-title, provided the placeholder (the default one, or the one of
    the configuration) has no dollar sign. *)
Theorem attribute_fixes_set_the_attribute html (config : value E) r :
  repairHtml E html config = Ok r ->
  Forall (attrFixed config) (issues r).
Proof.
  unfold repairHtml. pose proof (passes_attr config html []) as H.
  destruct (passes E config html []) as [[rep ledger]| |]; [|done|done].
  destruct H as (new & -> & Hnew). intros [= <-]. simpl.
  apply Forall_map. eapply Forall_impl; [exact Hnew|].
  intros i (H1 & H2 & H3).
  destruct (fillLocation_fields html i) as (Hr & _ & _ & _ & _ & _ & Hf & _).
  unfold attrFixed, fixedHasAttr. rewrite Hr, Hf. done.
Qed.

End AttrFixed.

Lemma attribute_fixes_set_the_attribute_witness :
  exists r,
    repairHtml RefEnv.env
      (txt "<table><tr><th>a</th></tr></table><img src=`a`><iframe src=`b`></iframe>")
      VUndef = Ok r
    /\ Forall (attrFixed (E:=RefEnv.env) VUndef) (issues r).
Proof.
  eexists. split; [vm_compute; reflexivity|].
  apply (attribute_fixes_set_the_attribute RefEnv.env
           (txt "<table><tr><th>a</th></tr></table><img src=`a`><iframe src=`b`></iframe>")
           VUndef).
  vm_compute; reflexivity.
Defined.

(** ** The text of an element: whitespace *)

Lemma trimStart_suffix s : exists k, trimStart s = drop k s.
Proof.
  induction s as [|c s [k IH]]; [by exists 0|]. simpl.
  destruct (isSpace c); [by exists (S k) | by exists 0].
Qed.

Lemma trimStart_clean s : startsClean (trimStart s) = true.
Proof.
  induction s as [|c s IH]; [done|]. simpl.
  destruct (isSpace c) eqn:Hc; [done|]. simpl. by rewrite Hc.
Qed.

Lemma trimStart_id s : startsClean s = true -> trimStart s = s.
Proof. destruct s as [|c s]; [done|]. simpl. by destruct (isSpace c). Qed.

Lemma trimEnd_prefix s : exists k, trimEnd s = take k s.
Proof.
  unfold trimEnd. destruct (trimStart_suffix (rev s)) as [k ->].
  exists (length s - k). by rewrite skipn_rev, rev_involutive.
Qed.

Lemma trimEnd_clean s : endsClean (trimEnd s) = true.
Proof.
  unfold endsClean, trimEnd. rewrite rev_involutive. apply trimStart_clean.
Qed.

Lemma trimEnd_startsClean s : startsClean s = true -> startsClean (trimEnd s) = true.
Proof.
  destruct s as [|c s]; [done|]. simpl. intros Hc.
  unfold trimEnd. simpl.
  destruct (trimStart_suffix (rev s ++ [c])) as [k Hk]. rewrite Hk.
  destruct (decide (k <= length (rev s))) as [Hle|Hgt].
  - rewrite drop_app_le by done. rewrite rev_app_distr. simpl. done.
  - pose proof (trimStart_clean (rev s ++ [c])) as Hcl. rewrite Hk in Hcl.
    rewrite drop_app_ge in Hcl |- * by lia.
    destruct (k - length (rev s)) as [|[|n]]; simpl in *; try done.
Qed.

Lemma singleSpaced_drop k s : singleSpaced s = true -> singleSpaced (drop k s) = true.
Proof.
  revert s. induction k as [|k IH]; intros s; [by rewrite drop_0|].
  destruct s as [|c s]; [done|]. simpl. intros [_ ?]%andb_true_iff. by apply IH.
Qed.

Lemma singleSpaced_take k s : singleSpaced s = true -> singleSpaced (take k s) = true.
Proof.
  revert s. induction k as [|k IH]; intros s; [done|].
  destruct s as [|c s]; [done|]. simpl.
  intros [Hc Hs]%andb_true_iff. rewrite (IH _ Hs), andb_true_r.
  destruct (isSpace c); [|done].
  apply andb_true_iff in Hc as [-> Hd]. simpl.
  destruct k as [|k]; [done|]. by destruct s.
Qed.

Lemma trim_singleSpaced s : singleSpaced s = true -> singleSpaced (trim s) = true.
Proof.
  intros H. unfold trim.
  destruct (trimStart_suffix s) as [k ->].
  destruct (trimEnd_prefix (drop k s)) as [j ->].
  by apply singleSpaced_take, singleSpaced_drop.
Qed.

Lemma trim_clean s : startsClean (trim s) = true /\ endsClean (trim s) = true.
Proof.
  unfold trim. split; [|apply trimEnd_clean].
  apply trimEnd_startsClean, trimStart_clean.
Qed.

(** A greedy repetition followed by nothing takes the longest run of units
    of the class. *)
Lemma star_greedy_run ic k : forall rest x,
  exists run rest' y,
    star_loop ic true k Some rest x = Some y
    /\ rest = run ++ rest'
    /\ Forall (fun c => cls_mem ic k c = true) run
    /\ match rest' with c :: _ => cls_mem ic k c = false | [] => True end
    /\ ms_pos y = ms_pos x + length run.
Proof.
  induction rest as [|c r IH]; intros x; simpl.
  - exists [], [], x. split_and!; try done; try lia; apply Forall_nil.
  - destruct (cls_mem ic k c) eqn:Hc.
    + destruct (IH (advance c r x)) as (run & rest' & y & -> & -> & Hr & Hn & Hp).
      exists (c :: run), rest', y. simpl.
      split_and!; try done; [by constructor | simpl in Hp; lia].
    + exists [], (c :: r), x. split_and!; try done; try lia; apply Forall_nil.
Qed.

Lemma cls_mem_space c : cls_mem false space c = isSpace c.
Proof. unfold cls_mem. simpl. by rewrite orb_false_r. Qed.

(** What a scan for [\s+] finds: the first run of whitespace, whole. *)
Lemma search_spaces : forall rest prev pos,
  match search re_spaces prev rest pos with
  | Some m =>
      exists pre run rest',
        rest = pre ++ run ++ rest'
        /\ Forall (fun c => isSpace c = false) pre
        /\ run <> []
        /\ Forall (fun c => isSpace c = true) run
        /\ startsClean rest' = true
        /\ m_start m = pos + length pre
        /\ m_end m = m_start m + length run
  | None => Forall (fun c => isSpace c = false) rest
  end.
Proof.
  induction rest as [|c rest IH]; intros prev pos; [by constructor|].
  cbn [search]. unfold re_spaces, plus. cbn [pat_icase pat_re rmatch ms_rest].
  rewrite cls_mem_space. destruct (isSpace c) eqn:Hc.
  - destruct (star_greedy_run false space rest
                (advance c rest (MState prev (c :: rest) pos ∅)))
      as (run & rest' & y & Hs & -> & Hr & Hn & Hp).
    cbn [ms_rest advance] in Hs |- *. rewrite Hs.
    exists [], (c :: run), rest'. cbn [m_start m_end length app].
    split_and!; [done | constructor | done | | | lia | simpl in Hp; lia].
    + constructor; [done|]. eapply Forall_impl; [exact Hr|].
      intros d Hd. rewrite <- cls_mem_space. exact Hd.
    + destruct rest' as [|d ?]; [done|]. simpl. rewrite cls_mem_space in Hn.
      by rewrite Hn.
  - specialize (IH (Some c) (S pos)).
    destruct (search _ _ rest _) as [m|].
    + destruct IH as (pre & run & rest' & -> & Hpre & Hrun & Hsp & Hcl & Hs & He).
      exists (c :: pre), run, rest'. simpl.
      split_and!; [done | by constructor | done | done | done | lia | lia].
    + by constructor.
Qed.

Lemma singleSpaced_clean_app pre l :
  Forall (fun c => isSpace c = false) pre ->
  singleSpaced l = true -> singleSpaced (pre ++ l) = true.
Proof.
  induction 1 as [|c pre Hc _ IH]; intros Hl; [done|].
  simpl. rewrite Hc. by apply IH.
Qed.

(** The rest of a global replace of [\s+] by a space, from a cursor. *)
Lemma collapse_spaces_from (u : str) : forall fuel from,
  from <= length u -> length u + 1 <= from + fuel ->
  let out :=
    splice u from
      (map (fun m => (m, substFor u m (s16 " ")))
         (matches_from fuel re_spaces u from)) in
  singleSpaced out = true
  /\ (startsClean (drop from u) = true -> startsClean out = true).
Proof.
  induction fuel as [|n IH]; intros from Hle Hfuel; [lia|].
  cbv zeta. cbn [matches_from]. unfold exec.
  destruct (decide _) as [_|?]; [|lia].
  pose proof (search_spaces (drop from u) (last (take from u)) from) as Hs.
  destruct (search _ _ _ _) as [m|].
  - destruct Hs as (pre & run & rest' & Hd & Hpre & Hrun & Hsp & Hcl & Hst & Hen).
    assert (Hlen : length (drop from u) = length pre + length run + length rest')
      by (rewrite Hd, !length_app; lia).
    rewrite length_drop in Hlen.
    assert (Hne : 0 < length run) by (destruct run; [done | simpl; lia]).
    destruct (decide (m_end m = m_start m)) as [?|_]; [lia|].
    cbn [map splice].
    assert (Hrest : drop (m_end m) u = rest').
    { rewrite Hen, Hst. rewrite <- !drop_drop, Hd.
      rewrite drop_app_length. by rewrite drop_app_length. }
    destruct (IH (m_end m)) as (IH1 & IH2); [lia | lia|].
    rewrite Hrest in IH2. specialize (IH2 Hcl).
    assert (Hsl : slice from (m_start m) u = pre).
    { unfold slice. rewrite Hd, Hst.
      replace (from + length pre - from) with (length pre) by lia.
      by rewrite take_app_length. }
    rewrite Hsl.
    change (substFor u m (s16 " ")) with [32%N].
    set (tail := splice u (m_end m) _) in *.
    assert (Ht : singleSpaced ([32%N] ++ tail) = true).
    { simpl. rewrite IH1, andb_true_r.
      destruct tail as [|d ?]; [done|]. simpl in IH2. by rewrite IH2. }
    split.
    + by apply singleSpaced_clean_app.
    + intros Hfrom. rewrite Hd in Hfrom.
      destruct pre as [|c pre].
      * destruct Hsp as [|d run Hd' _]; [done|]. simpl in Hfrom.
        by rewrite Hd' in Hfrom.
      * inversion Hpre as [|?? Hc]. simpl. by rewrite Hc.
  - cbn [map splice]. split; [|done].
    rewrite <- (app_nil_r (drop from u)). by apply singleSpaced_clean_app.
Qed.

(** X16. The text [stripTags] returns is normalised: every white-space unit
    in it is a plain space that stands alone, and the text neither starts
    nor ends with white space. *)
Theorem stripTags_whitespace (html : str) :
  singleSpaced (stripTags html) = true
  /\ startsClean (stripTags html) = true
  /\ endsClean (stripTags html) = true.
Proof.
  unfold stripTags.
  set (u := replaceAllStr re_nbsp _ _).
  split; [|apply trim_clean].
  apply trim_singleSpaced.
  unfold replaceAllStr, replaceAllFn, matches.
  apply (collapse_spaces_from u (S (length u)) 0); lia.
Qed.

(** ** The wordings read from a template *)

(** A successful repetition took units of its class only. *)
Lemma star_loop_run ic g k cont rest : forall x y,
  ms_rest x = rest ->
  star_loop ic g k cont rest x = Some y ->
  exists x' w,
    cont x' = Some y /\ ms_rest x = w ++ ms_rest x'
    /\ ms_pos x' = ms_pos x + length w
    /\ Forall (fun c => cls_mem ic k c = true) w.
Proof.
  assert (Hhere : forall x y, cont x = Some y ->
    exists x' w, cont x' = Some y /\ ms_rest x = w ++ ms_rest x'
      /\ ms_pos x' = ms_pos x + length w
      /\ Forall (fun c => cls_mem ic k c = true) w).
  { intros x y H. exists x, []. simpl. split_and!; [done | done | lia | constructor]. }
  induction rest as [|c r IH]; intros x y Hx H; simpl in H; [by apply Hhere|].
  destruct (cls_mem ic k c) eqn:Hc; [|by apply Hhere].
  assert (Hstep : star_loop ic g k cont r (advance c r x) = Some y ->
    exists x' w, cont x' = Some y /\ ms_rest x = w ++ ms_rest x'
      /\ ms_pos x' = ms_pos x + length w
      /\ Forall (fun c => cls_mem ic k c = true) w).
  { intros H'. apply IH in H' as (x' & w & Hk & Hr & Hp & Hw); [|done].
    exists x', (c :: w). simpl in *. rewrite Hx, Hr.
    split_and!; [done | done | lia | by constructor]. }
  destruct g; apply orElse_Some in H as [H | H]; auto.
Qed.

(** The span of a group [([^..]+)] that is followed by one unit of a class
    up to the end of the pattern. *)
Lemma group_plus_last ic k q (s : str) x y :
  rmatch ic (Seq (Grp 1 (plus k)) (Set_ q)) Some x = Some y ->
  ms_rest x = drop (ms_pos x) s ->
  exists a b,
    ms_caps y !! 1 = Some (a, b)
    /\ slice a b s <> []
    /\ Forall (fun c => cls_mem ic k c = true) (slice a b s).
Proof.
  unfold plus. cbn [rmatch]. intros H Hx.
  destruct (ms_rest x) as [|c rest] eqn:Hr; [done|].
  destruct (cls_mem ic k c) eqn:Hc; [|done].
  cbn [ms_rest advance] in H.
  apply star_loop_run in H as (x' & w & Hk & Hw & Hp & Hcls); [|done].
  cbn [ms_rest ms_pos advance] in Hw, Hp, Hk.
  destruct (ms_rest x') as [|d rest'] eqn:Hr'; [done|].
  destruct (cls_mem ic q d); [|done]. injection Hk as <-.
  exists (ms_pos x), (ms_pos x'). cbn [advance ms_caps].
  rewrite lookup_insert_eq.
  assert (Hs : slice (ms_pos x) (ms_pos x') s = c :: w).
  { unfold slice. rewrite <- Hx, Hw, Hp.
    replace (S (ms_pos x) + length w - ms_pos x) with (length (c :: w))
      by (simpl; lia).
    by rewrite (app_comm_cons w), take_app_length. }
  rewrite Hs. split_and!; [done | done | by constructor].
Qed.

Lemma cls_mem_no_quote c :
  cls_mem true (neg [dq; sq]) c = true -> c <> dq /\ c <> sq.
Proof.
  intros H. split; intros ->; by vm_compute in H.
Qed.

Lemma occurs_slice a b (s : str) : occurs (slice a b s) s.
Proof.
  unfold slice. exists (length (take a s)), (take a s), (drop (b - a) (drop a s)).
  split; [|done]. by rewrite take_drop, take_drop.
Qed.

Lemma occurs_trans (a b c : str) : occurs a b -> occurs b c -> occurs a c.
Proof.
  intros (i & a1 & a2 & -> & _) (j & b1 & b2 & -> & _).
  exists (length (b1 ++ a1)), (b1 ++ a1), (a2 ++ b2).
  split; [|done]. by rewrite <- !app_assoc.
Qed.

Lemma trim_piece (g : str) : exists j k, trim g = take j (drop k g).
Proof.
  unfold trim. destruct (trimStart_suffix g) as [k ->].
  destruct (trimEnd_prefix (drop k g)) as [j ->]. by exists j, k.
Qed.

Lemma occurs_trim (g : str) : occurs (trim g) g.
Proof.
  destruct (trim_piece g) as (j & k & ->).
  replace (take j (drop k g)) with (slice k (k + j) g);
    [apply occurs_slice|].
  unfold slice. f_equal. lia.
Qed.

(** What [templateField] reads. *)
Lemma templateField_piece tag attr (t v : str) :
  templateField (re_templateAttr tag attr) t = Some v ->
  exists g, v = trim g /\ occurs g t
    /\ Forall (fun c => c <> dq /\ c <> sq) g.
Proof.
  unfold templateField, match_.
  destruct (exec _ t 0) as [m|] eqn:He; [|done].
  destruct (mgroup t m 1) as [g|] eqn:Hg; [|done].
  destruct (str_eqb g []); [done|]. intros [= <-].
  exists g. split; [done|].
  apply exec_at in He as (prev1 & y & Hm & _ & Hcaps).
  unfold re_templateAttr in Hm. cbn [pat_icase pat_re] in Hm.
  set (x0 := MState prev1 (drop (m_start m) t) (m_start m) ∅) in Hm.
  apply rmatch_seq_reach in Hm as (x1 & R & Hm).
  do 9 (let x := fresh "x" in
        let R' := fresh "R" in
        apply rmatch_seq_reach in Hm as (x & R' & Hm);
        pose proof (reach_trans _ _ _ R R') as R''; clear R R';
        rename R'' into R).
  apply (reach_text t) in R as [Hsync _]; [|done].
  apply (group_plus_last _ _ _ t) in Hm as (a & b & Hc & _ & Hcls); [|done].
  unfold mgroup in Hg. rewrite Hcaps, Hc in Hg. simpl in Hg.
  injection Hg as <-. split; [apply occurs_slice|].
  eapply Forall_impl; [exact Hcls|]. intros c. apply cls_mem_no_quote.
Qed.

Lemma templateField_clean tag attr (t v : str) :
  templateField (re_templateAttr tag attr) t = Some v ->
  (dq ∉ v) /\ (sq ∉ v) /\ startsClean v = true /\ endsClean v = true
  /\ occurs v t.
Proof.
  intros (g & -> & Ho & Hq)%templateField_piece.
  destruct (trim_clean g) as [Hs He].
  assert (Hq' : Forall (fun c => c <> dq /\ c <> sq) (trim g)).
  { destruct (trim_piece g) as (j & k & ->). by apply Forall_take, Forall_drop. }
  split_and!; [| |done|done|].
  - intros Hin. by destruct (proj1 (Forall_forall _ _) Hq' _ Hin).
  - intros Hin. by destruct (proj1 (Forall_forall _ _) Hq' _ Hin).
  - eapply occurs_trans; [apply occurs_trim | done].
Qed.

(** X17. [parseTemplate] gives no wording for an absent or empty template;
    a wording it gives is a piece of the template that holds no quotation
    mark, single or double, and neither starts nor ends with white space. *)
Theorem parseTemplate_wordings (template : option str) :
  templateFields (parseTemplate None) = []
  /\ templateFields (parseTemplate (Some [])) = []
  /\ Forall (fun v =>
       (dq ∉ v) /\ (sq ∉ v) /\ startsClean v = true /\ endsClean v = true
       /\ exists t, template = Some t /\ occurs v t)
     (templateFields (parseTemplate template)).
Proof.
  split; [done|]. split; [done|].
  destruct template as [t|]; [|by constructor].
  unfold parseTemplate. destruct (str_eqb t []); [by constructor|].
  unfold templateFields. cbn [t_linkTitle t_imgAlt t_iframeTitle].
  apply Forall_forall. intros v Hin.
  apply list_elem_of_omap in Hin as (o & Ho & Hv). simpl in Hv. subst o.
  assert (Hc : exists tag attr,
             templateField (re_templateAttr tag attr) t = Some v).
  { apply elem_of_cons in Ho as [Ho | Ho]; [by eauto|].
    apply elem_of_cons in Ho as [Ho | Ho]; [by eauto|].
    apply elem_of_cons in Ho as [Ho | Ho]; [by eauto|].
    by apply elem_of_nil in Ho. }
  destruct Hc as (tag & attr & Hc).
  apply templateField_clean in Hc as (? & ? & ? & ? & ?).
  split_and!; [done..|]. by exists t.
Qed.

(** ** Changes without a report *)

Lemma emits_any {X} P (m : M Ledger X) : emits P m -> appends m.
Proof.
  intros H st. specialize (H st). destruct (m st) as [[a st']| |]; [|done|done].
  destruct H as (new & -> & _). exists new. split; [done|].
  apply Forall_forall. done.
Qed.

Lemma accounted_ret s : accounted s (ret s).
Proof. intros st. exists []. by rewrite app_nil_r. Qed.

Lemma announces_accounted s (m : M Ledger str) : announces m -> accounted s m.
Proof.
  intros H st. specialize (H st). destruct (m st) as [[r st']| |]; [|done|done].
  destruct H as (new & -> & Hne). by exists new.
Qed.

Lemma announces_push i : announces (push i).
Proof. intros st. by exists [i]. Qed.

Lemma announces_bind_l {X Y} (m : M Ledger X) (f : X -> M Ledger Y) :
  announces m -> (forall a, appends (f a)) -> announces (bind m f).
Proof.
  intros Hm Hf st. unfold bind. specialize (Hm st).
  destruct (m st) as [[a st1]| |]; [|done|done].
  destruct Hm as (n1 & -> & Hne). specialize (Hf a (st ++ n1)).
  destruct (f a (st ++ n1)) as [[b st2]| |]; [|done|done].
  destruct Hf as (n2 & -> & _). exists (n1 ++ n2).
  rewrite app_assoc. split; [done|]. by destruct n1.
Qed.

Lemma accounted_bind {X} s (m : M Ledger X) (f : X -> M Ledger str) :
  appends m -> (forall a, accounted s (f a)) -> accounted s (bind m f).
Proof.
  intros Hm Hf st. unfold bind. specialize (Hm st).
  destruct (m st) as [[a st1]| |]; [|done|done].
  destruct Hm as (n1 & -> & _). specialize (Hf a (st ++ n1)).
  destruct (f a (st ++ n1)) as [[r st2]| |]; [|done|done].
  destruct Hf as (n2 & -> & Hr). exists (n1 ++ n2).
  rewrite app_assoc. split; [done|].
  intros [_ ->]%app_eq_nil. by apply Hr.
Qed.

(** One rewriting step after another. *)
Lemma accounted_then s (m : M Ledger str) (f : str -> M Ledger str) :
  accounted s m -> (forall a, appends (f a)) -> accounted s (f s) ->
  accounted s (bind m f).
Proof.
  intros Hm Hf Hs st. unfold bind. specialize (Hm st).
  destruct (m st) as [[a st1]| |]; [|done|done].
  destruct Hm as (n1 & -> & Ha).
  pose proof (Hf a (st ++ n1)) as Hfa.
  destruct (f a (st ++ n1)) as [[r st2]| |] eqn:Hrun; [|done|done].
  destruct Hfa as (n2 & -> & _). exists (n1 ++ n2).
  rewrite app_assoc. split; [done|].
  intros [-> ->]%app_eq_nil. rewrite (Ha eq_refl) in Hrun.
  specialize (Hs (st ++ [])). rewrite Hrun in Hs.
  destruct Hs as (n2' & Heq & Hr). apply Hr.
  apply app_inv_head in Heq. done.
Qed.

Lemma mapM_accounted {X Y} (g : X -> M Ledger Y) (h : X -> Y) l :
  (forall a st,
     match g a st with
     | Ok (b, st') => exists new, st' = st ++ new /\ (new = [] -> b = h a)
     | _ => True
     end) ->
  forall st,
    match mapM g l st with
    | Ok (bs, st') => exists new, st' = st ++ new /\ (new = [] -> bs = map h l)
    | _ => True
    end.
Proof.
  intros Hg. induction l as [|a l IH]; intros st; simpl.
  - exists []. by rewrite app_nil_r.
  - unfold bind, ret. specialize (Hg a st).
    destruct (g a st) as [[b st1]| |]; [|done|done].
    destruct Hg as (n1 & -> & Hb). specialize (IH (st ++ n1)).
    destruct (mapM g l (st ++ n1)) as [[bs st2]| |]; [|done|done].
    destruct IH as (n2 & -> & Hbs). exists (n1 ++ n2).
    rewrite app_assoc. split; [done|].
    intros [-> ->]%app_eq_nil. by rewrite Hb, Hbs.
Qed.

(** A replace whose callback is accounted for is accounted for. *)
Lemma accounted_replaceAllM p (f : mres -> M Ledger str) s :
  (forall m, accounted (mtext s m) (f m)) -> accounted s (replaceAllM p f s).
Proof.
  intros Hf st. unfold replaceAllM. unfold bind at 1.
  pose proof (mapM_accounted (fun m => r <- f m ;; ret (m, r))
                (fun m => (m, mtext s m)) (matches p s)) as H.
  lapply H.
  - clear H. intros H. specialize (H st).
    destruct (mapM _ (matches p s) st) as [[rs st1]| |]; [|done|done].
    destruct H as (new & -> & Hrs). unfold ret. exists new. split; [done|].
    intros Hn. rewrite (Hrs Hn). unfold matches.
    rewrite splice_matches_same by lia. by rewrite drop_0.
  - intros m st'. unfold bind, ret. specialize (Hf m st').
    destruct (f m st') as [[r st1]| |]; [|done|done].
    destruct Hf as (new & -> & Hr). exists new. split; [done|].
    intros Hn. by rewrite (Hr Hn).
Qed.

Ltac quiet :=
  unfold appends; repeat first [apply emits_push; exact I | emit_step].

Ltac account :=
  repeat match goal with
  | |- accounted ?s (ret ?s) => apply accounted_ret
  | |- accounted _ (bind (push _) _) =>
      apply announces_accounted, announces_bind_l;
      [apply announces_push | intro; quiet]
  | |- accounted _ (bind _ _) => apply accounted_bind; [quiet | intro]
  | |- accounted _ (if ?b then _ else _) => destruct b eqn:?
  | |- accounted _ (match ?x with _ => _ end) => destruct x eqn:?
  | |- accounted _ (let _ := _ in _) => cbv zeta
  end.

Section Accounted.
Context {E : JsEnv}.
Variable config : value E.

Lemma frameTitleCb_accounted tag : accounted tag (frameTitleCb E config tag).
Proof. unfold frameTitleCb. account. Qed.

Lemma imgAltCb_accounted tag : accounted tag (imgAltCb E config tag).
Proof. unfold imgAltCb. account. Qed.

Lemma rowHeaderCb_accounted tr : accounted tr (rowHeaderCb E config tr).
Proof. unfold rowHeaderCb. account. Qed.

Lemma thScopeCb_accounted tag : accounted tag (thScopeCb E tag).
Proof. unfold thScopeCb. account. Qed.

Lemma inlineStyleCb_accounted s m :
  accounted (mtext s m) (inlineStyleCb E config s m).
Proof. unfold inlineStyleCb. account. Qed.

(** The link callback, when the rule [link-text] is enabled. *)
Lemma linkCb_accounted full :
  ruleEnabled E config (s16 "link-text") = true ->
  accounted full (linkCb E config full).
Proof.
  intros Hon. unfold linkCb. cbv zeta.
  destruct (negb _); [apply accounted_ret|].
  apply accounted_bind.
  { unfold imgInLinkCb. quiet. }
  intros inner. destruct (str_eqb _ []).
  - rewrite Hon. account.
  - account.
Qed.

Lemma frameTitlePass_accounted s : accounted s (frameTitlePass E config s).
Proof.
  unfold frameTitlePass. destruct (ruleEnabled _ _ _); [|apply accounted_ret].
  apply accounted_replaceAllM. intros m. apply frameTitleCb_accounted.
Qed.

Lemma imgAltPass_accounted s : accounted s (imgAltPass E config s).
Proof.
  unfold imgAltPass. destruct (ruleEnabled _ _ _); [|apply accounted_ret].
  apply accounted_replaceAllM. intros m. apply imgAltCb_accounted.
Qed.

Lemma linkPass_accounted s :
  ruleEnabled E config (s16 "link-text") = true ->
  accounted s (linkPass E config s).
Proof.
  intros Hon. unfold linkPass.
  apply accounted_replaceAllM. intros m. by apply linkCb_accounted.
Qed.

Lemma rowHeaderPass_accounted s : accounted s (rowHeaderPass E config s).
Proof.
  unfold rowHeaderPass. destruct (ruleEnabled _ _ _); [|apply accounted_ret].
  apply accounted_replaceAllM. intros m. apply rowHeaderCb_accounted.
Qed.

Lemma thScopePass_accounted s : accounted s (thScopePass E config s).
Proof.
  unfold thScopePass. destruct (ruleEnabled _ _ _); [|apply accounted_ret].
  apply accounted_replaceAllM. intros m. apply thScopeCb_accounted.
Qed.

Lemma inlineStylePass_accounted s : accounted s (inlineStylePass E config s).
Proof.
  unfold inlineStylePass. destruct (ruleEnabled _ _ _); [|apply accounted_ret].
  apply accounted_replaceAllM. intros m. apply inlineStyleCb_accounted.
Qed.

(** The style-block pass writes [<style>] for the start tag of each block,
    with or without a report: it is accounted for where it does not run. *)
Lemma styleBlockPass_accounted s :
  ruleEnabled E config (s16 "css-style-tag") = false
  \/ matches re_styleBlock s = [] ->
  accounted s (styleBlockPass E config s).
Proof.
  intros H. unfold styleBlockPass.
  destruct (ruleEnabled _ _ _) eqn:Hon; [|apply accounted_ret].
  destruct H as [H | H]; [done|].
  unfold replaceAllM. rewrite H. intros st. simpl. unfold bind, ret.
  exists []. rewrite app_nil_r. split; [done|]. intros _. apply drop_0.
Qed.

Lemma rewritingPasses_accounted html :
  ruleEnabled E config (s16 "link-text") = true ->
  ruleEnabled E config (s16 "css-style-tag") = false
  \/ matches re_styleBlock html = [] ->
  accounted html (rewritingPasses config html).
Proof.
  intros Hlink Hstyle. unfold rewritingPasses.
  pose proof (fun s => emits_any _ _ (frameTitlePass_emits config s)) as A1.
  pose proof (fun s => emits_any _ _ (imgAltPass_emits config s)) as A2.
  pose proof (fun s => emits_any _ _ (linkPass_emits config s)) as A3.
  pose proof (fun s => emits_any _ _ (rowHeaderPass_emits config s)) as A4.
  pose proof (fun s => emits_any _ _ (thScopePass_emits config s)) as A5.
  pose proof (fun s => emits_any _ _ (inlineStylePass_emits config s)) as A6.
  pose proof (fun s => emits_any _ _ (styleBlockPass_emits config s)) as A7.
  assert (Hb : forall {X Y} (m : M Ledger X) (f : X -> M Ledger Y),
             appends m -> (forall a, appends (f a)) -> appends (bind m f))
    by (intros; by apply emits_bind).
  apply accounted_then; [apply frameTitlePass_accounted | | ].
  { intros a. repeat (apply Hb; [done | intro]). done. }
  apply accounted_then; [apply imgAltPass_accounted | | ].
  { intros a. repeat (apply Hb; [done | intro]). done. }
  apply accounted_then; [by apply linkPass_accounted | | ].
  { intros a. repeat (apply Hb; [done | intro]). done. }
  apply accounted_then; [apply rowHeaderPass_accounted | | ].
  { intros a. repeat (apply Hb; [done | intro]). done. }
  apply accounted_then; [apply thScopePass_accounted | | ].
  { intros a. repeat (apply Hb; [done | intro]). done. }
  apply accounted_then; [apply inlineStylePass_accounted | done | ].
  by apply styleBlockPass_accounted.
Qed.

End Accounted.

Section Unreported.
Context (E : JsEnv).

(** X18.  The report accounts for the changes: when no issue of a result is
    marked as fixed, the repaired text is the input text.  This holds when
    the rule [link-text] is enabled, and the rule [css-style-tag] is
    disabled or the input has no style block; the two passes concerned
    rewrite without a report otherwise. *)
Theorem unreported_means_unchanged html (config : value E) r :
  repairHtml E html config = Ok r ->
  ruleEnabled E config (s16 "link-text") = true ->
  ruleEnabled E config (s16 "css-style-tag") = false
  \/ matches re_styleBlock html = [] ->
  Forall (fun i => autoFixed i = false) (issues r) ->
  repairedHtml r = html.
Proof.
  intros H Hlink Hstyle Hnone.
  apply repairHtml_shape in H as (l & Hl & [_ Hup] & Hi).
  rewrite Hi, map_app in Hnone. apply Forall_app in Hnone as [Hnone _].
  assert (Hnil : l = []).
  { destruct l as [|i l]; [done|]. exfalso.
    apply Forall_cons in Hup as [(j & Hj & Hp) _].
    simpl in Hnone. apply Forall_cons in Hnone as [Hf _].
    rewrite fillLocation_autoFixed, (pushed_fixed j i Hp) in Hf.
    by rewrite bool_decide_eq_true_2 in Hf. }
  subst l.
  pose proof (rewritingPasses_accounted config html Hlink Hstyle []) as Ha.
  rewrite Hl in Ha. destruct Ha as (new & Hnew & Hr).
  apply Hr. by simpl in Hnew.
Qed.

End Unreported.

Lemma unreported_means_unchanged_witness :
  let html := txt "<nav><a href=`/x` title=`Home page`>Home</a></nav><input name=`q`>" in
  exists r,
    repairHtml RefEnv.env html VUndef = Ok r
    /\ length (issues r) = 2
    /\ repairedHtml r = html.
Proof.
  intros html. eexists. split; [vm_compute; reflexivity|].
  split; [vm_compute; reflexivity|].
  apply (unreported_means_unchanged RefEnv.env html VUndef).
  - vm_compute; reflexivity.
  - vm_compute; reflexivity.
  - right. vm_compute; reflexivity.
  - vm_compute. repeat constructor.
Defined.

(** ** The groups of the report panel *)

Lemma groupKey_flags i j :
  groupKey i = groupKey j ->
  autoFixed i = autoFixed j /\ needsManualReview i = needsManualReview j.
Proof.
  unfold groupKey. intros H. apply (f_equal (@rev _)) in H.
  rewrite !rev_app_distr in H.
  destruct (autoFixed i), (autoFixed j), (needsManualReview i),
    (needsManualReview j); simpl in H; done.
Qed.

Section Groups.
Variable p : AccessibilityIssue -> bool.
Hypothesis p_key : forall i j, groupKey i = groupKey j -> p i = p j.

Lemma tally_cons k c acc :
  tally p ((k, c) :: acc) = (if p (c_issue c) then c_count c else 0) + tally p acc.
Proof.
  unfold tally. simpl. rewrite filter_cons.
  destruct (decide (p (c_issue c) = true)) as [-> | Hn]; [done|].
  by destruct (p (c_issue c)).
Qed.

Lemma tally_app acc1 acc2 : tally p (acc1 ++ acc2) = tally p acc1 + tally p acc2.
Proof.
  induction acc1 as [|[k c] acc1 IH]; [done|].
  rewrite <- app_comm_cons, !tally_cons, IH. lia.
Qed.

Lemma groupOf_app key acc1 acc2 :
  groupOf key acc1 = None -> groupOf key (acc1 ++ acc2) = groupOf key acc2.
Proof.
  induction acc1 as [|[k c] acc1 IH]; [done|]. simpl.
  destruct (str_eqb k key); [done | exact IH].
Qed.

Lemma bumpCount_keyed key acc : keyed acc -> keyed (bumpCount key acc).
Proof.
  induction 1 as [|[k c] acc Hk Hacc IH]; [constructor|]. simpl.
  destruct (str_eqb k key); constructor; done.
Qed.

Lemma bumpCount_tally issue acc :
  keyed acc -> groupOf (groupKey issue) acc <> None ->
  tally p (bumpCount (groupKey issue) acc)
  = tally p acc + (if p issue then 1 else 0).
Proof using p_key.
  induction 1 as [|[k c] acc Hk _ IH]; [done|]. simpl. intros Hin.
  destruct (str_eqb k (groupKey issue)) eqn:Heq.
  - apply str_eqb_eq in Heq. simpl in Hk. rewrite Hk in Heq.
    rewrite !tally_cons. simpl. rewrite (p_key _ _ Heq).
    destruct (p issue); lia.
  - rewrite !tally_cons, IH by done. lia.
Qed.

Lemma groupStep_keyed acc issue : keyed acc -> keyed (groupStep acc issue).
Proof.
  intros H. unfold groupStep. cbv zeta. apply bumpCount_keyed.
  destruct (groupOf _ acc); [done|].
  apply Forall_app. split; [done|]. by repeat constructor.
Qed.

Lemma groupStep_tally acc issue :
  keyed acc ->
  tally p (groupStep acc issue) = tally p acc + (if p issue then 1 else 0).
Proof using p_key.
  intros H. unfold groupStep. cbv zeta.
  destruct (groupOf (groupKey issue) acc) eqn:Hg.
  - apply bumpCount_tally; [done | by rewrite Hg].
  - rewrite bumpCount_tally.
    + rewrite tally_app. rewrite tally_cons. simpl.
      destruct (p issue); unfold tally; simpl; lia.
    + apply Forall_app. split; [done|]. by repeat constructor.
    + rewrite groupOf_app by done. simpl.
      unfold str_eqb. by rewrite bool_decide_eq_true_2.
Qed.

Lemma foldl_groupStep_tally issues : forall acc,
  keyed acc ->
  tally p (foldl groupStep acc issues)
  = tally p acc + length (filter (fun i => p i = true) issues).
Proof using p_key.
  induction issues as [|i issues IH]; intros acc H; simpl; [lia|].
  rewrite IH by by apply groupStep_keyed.
  rewrite groupStep_tally by done. rewrite filter_cons.
  destruct (decide (p i = true)) as [-> | Hn]; [simpl; lia|].
  destruct (p i); [done | lia].
Qed.

Lemma groupedIssues_tally issues :
  tally p (groupedIssues issues) = length (filter (fun i => p i = true) issues).
Proof using p_key.
  unfold groupedIssues. rewrite foldl_groupStep_tally; [done | constructor].
Qed.

End Groups.

Lemma filter_always {X} (l : list X) : filter (fun _ => true = true) l = l.
Proof.
  induction l as [|a l IH]; [done|]. rewrite filter_cons.
  destruct (decide (true = true)); [by rewrite IH | done].
Qed.

Section Panel.
Context (E : JsEnv).

(** X19.  The report panel agrees with the summary: for a result of
    [repairHtml], the counts of the groups listed as fixed add up to
    [summary.autoFixed], the counts of the groups listed for manual review
    add up to [summary.needsManualReview], and the counts of all groups add
    up to [summary.totalIssues]. *)
Theorem panel_counts_match_summary html (config : value E) r :
  repairHtml E html config = Ok r ->
  countSum (fixedIssues (issues r)) = sum_autoFixed (summary r)
  /\ countSum (manualIssues (issues r)) = sum_needsManualReview (summary r)
  /\ countSum (map snd (groupedIssues (issues r))) = totalIssues (summary r).
Proof.
  unfold repairHtml.
  destruct (passes E config html []) as [[rep ledger]| |]; [|done|done].
  intros [= <-]. cbn [issues summary sum_autoFixed sum_needsManualReview totalIssues].
  set (l := map (fillLocation html) ledger). split_and!.
  - apply (groupedIssues_tally autoFixed).
    intros i j H. by apply groupKey_flags in H as [? _].
  - apply (groupedIssues_tally needsManualReview).
    intros i j H. by apply groupKey_flags in H as [_ ?].
  - pose proof (groupedIssues_tally (fun _ => true) (fun _ _ _ => eq_refl) l) as H.
    unfold tally in H. by rewrite !filter_always in H.
Qed.

End Panel.

Lemma panel_counts_match_summary_witness :
  exists r,
    repairHtml RefEnv.env
      (txt "<nav><img src=`a`><img src=`b`><table><tr><th>x</th></tr></table></nav>")
      VUndef = Ok r
    /\ map c_count (fixedIssues (issues r)) = [2; 1]
    /\ countSum (fixedIssues (issues r)) = sum_autoFixed (summary r)
    /\ countSum (manualIssues (issues r)) = sum_needsManualReview (summary r)
    /\ countSum (map snd (groupedIssues (issues r))) = totalIssues (summary r).
Proof.
  eexists. split; [vm_compute; reflexivity|].
  split; [vm_compute; reflexivity|].
  apply (panel_counts_match_summary RefEnv.env
           (txt "<nav><img src=`a`><img src=`b`><table><tr><th>x</th></tr></table></nav>")
           VUndef).
  vm_compute; reflexivity.
Defined.

(** ** The text of an element: tags *)

Lemma in_take (c : char) k (l : str) : c ∈ take k l -> c ∈ l.
Proof. intros H. rewrite <- (take_drop k l). apply elem_of_app. by left. Qed.

Lemma in_drop (c : char) k (l : str) : c ∈ drop k l -> c ∈ l.
Proof. intros H. rewrite <- (take_drop k l). apply elem_of_app. by right. Qed.

Lemma tagFree_cons c (r : str) :
  tagFree (c :: r) = true
  <-> (c = 60%N -> head r = Some 62%N \/ (62%N : char) ∉ r)
      /\ tagFree r = true.
Proof.
  simpl. rewrite andb_true_iff. apply and_iff_compat_r.
  destruct (c =? 60)%N eqn:Hc.
  - apply N.eqb_eq in Hc as ->. rewrite orb_true_iff, negb_true_iff.
    rewrite bool_decide_eq_false. split.
    + intros [H | H] _; [left | by right].
      destruct r as [|d r]; [done|]. by apply N.eqb_eq in H as ->.
    + intros H. destruct (H eq_refl) as [Hh | Hn]; [left | by right].
      destruct r as [|d r]; [done|]. injection Hh as ->. apply N.eqb_refl.
  - apply N.eqb_neq in Hc. split; [by intros _ ? | done].
Qed.

Lemma paired_cons c (r : str) :
  paired (c :: r) = true
  <-> (c = 60%N -> head r = Some 62%N) /\ paired r = true.
Proof.
  simpl. rewrite andb_true_iff. apply and_iff_compat_r.
  destruct (c =? 60)%N eqn:Hc.
  - apply N.eqb_eq in Hc as ->. split.
    + intros H _. destruct r as [|d r]; [done|]. by apply N.eqb_eq in H as ->.
    + intros H. specialize (H eq_refl).
      destruct r as [|d r]; [done|]. injection H as ->. apply N.eqb_refl.
  - apply N.eqb_neq in Hc. split; [by intros _ ? | done].
Qed.

Lemma no_gt_tagFree (l : str) : (62%N : char) ∉ l -> tagFree l = true.
Proof.
  induction l as [|c r IH]; [done|]. intros [_ Hr]%not_elem_of_cons.
  apply tagFree_cons. split; [by right | by apply IH].
Qed.

Lemma tagFree_drop k (l : str) : tagFree l = true -> tagFree (drop k l) = true.
Proof.
  revert l. induction k as [|k IH]; intros l; [by rewrite drop_0|].
  destruct l as [|c r]; [done|]. intros [_ ?]%tagFree_cons. by apply IH.
Qed.

Lemma tagFree_take k (l : str) : tagFree l = true -> tagFree (take k l) = true.
Proof.
  revert l. induction k as [|k IH]; intros l; [done|].
  destruct l as [|c r]; [done|]. intros [Hc Hr]%tagFree_cons.
  change (take (S k) (c :: r)) with (c :: take k r).
  apply tagFree_cons. split; [|by apply IH].
  intros ->. destruct (Hc eq_refl) as [Hh | Hn].
  - destruct k as [|k]; [right; simpl; apply not_elem_of_nil|].
    left. by destruct r.
  - right. intros Hin. apply Hn. by eapply in_take.
Qed.

Lemma paired_app_tagFree (pre l : str) :
  paired pre = true -> tagFree l = true -> tagFree (pre ++ l) = true.
Proof.
  induction pre as [|c pre IH]; intros Hp Hl; [done|].
  apply paired_cons in Hp as [Hc Hp]. rewrite <- app_comm_cons.
  apply tagFree_cons.
  split; [|by apply IH]. intros ->. left.
  specialize (Hc eq_refl). by destruct pre.
Qed.

Lemma angleFree_tagFree_app (y l : str) :
  angleFree y -> tagFree l = true -> tagFree (y ++ l) = true.
Proof.
  intros [Hy _] Hl. induction y as [|c y IH]; [done|].
  apply not_elem_of_cons in Hy as [Hc Hy]. rewrite <- app_comm_cons.
  apply tagFree_cons.
  split; [by intros -> | by apply IH].
Qed.

(** Replacing a piece without angle brackets by another keeps a text free
    of tags. *)
Lemma tagFree_replace_piece (pre x y rest new : str) :
  tagFree (pre ++ x ++ rest) = true -> x <> [] ->
  angleFree x -> angleFree y ->
  tagFree new = true -> ((62%N : char) ∈ new -> (62%N : char) ∈ rest) ->
  tagFree (pre ++ y ++ new) = true.
Proof.
  intros H Hx [Hx1 Hx2] Hy Hnew Hgt.
  induction pre as [|c pre IH]; [simpl; by apply angleFree_tagFree_app|].
  rewrite <- app_comm_cons in H. apply tagFree_cons in H as [Hc H].
  rewrite <- app_comm_cons. apply tagFree_cons.
  split; [|by apply IH]. intros ->.
  destruct (Hc eq_refl) as [Hh | Hn].
  - left. destruct pre as [|d pre]; [|done]. simpl in Hh.
    destruct x as [|d x]; [done|]. injection Hh as ->.
    exfalso. apply Hx2. left.
  - right. rewrite !elem_of_app in Hn |- *. destruct Hy as [_ Hy2].
    intros [? | [? | ?]]; [tauto | done | tauto].
Qed.

(** *** The pattern [<[^>]+>] *)

Lemma cls_mem_notGt c : cls_mem false notGt c = negb (62 =? c)%N.
Proof. unfold cls_mem. simpl. by rewrite orb_false_r. Qed.

Lemma cls_mem_chr a c : cls_mem false (Cls false [IChr a]) c = (a =? c)%N.
Proof. unfold cls_mem. simpl. by rewrite orb_false_r. Qed.

Lemma close_fails cont x :
  match ms_rest x with c :: _ => c <> 62%N | [] => True end ->
  rmatch false (lit ">") cont x = None.
Proof.
  change (lit ">") with (Seq (chr 62%N) Eps). unfold chr. cbn [rmatch].
  destruct (ms_rest x) as [|c r]; [done|]. intros Hc.
  rewrite cls_mem_chr. destruct (62 =? c)%N eqn:Heq; [|done].
  apply N.eqb_eq in Heq. congruence.
Qed.

Lemma star_no_gt g cont rest : forall x,
  ms_rest x = rest -> (62%N : char) ∉ rest ->
  star_loop false g notGt (rmatch false (lit ">") cont) rest x = None.
Proof.
  induction rest as [|c r IH]; intros x Hx Hn; cbn [star_loop].
  - apply close_fails. by rewrite Hx.
  - apply not_elem_of_cons in Hn as [Hc Hr].
    assert (Hhere : rmatch false (lit ">") cont x = None)
      by (apply close_fails; rewrite Hx; done).
    rewrite Hhere, (IH (advance c r x) eq_refl Hr).
    by destruct (cls_mem false notGt c), g.
Qed.

(** Where no tag opens. *)
Lemma open_fails prev (rest : str) pos :
  match rest with
  | c :: r => c <> 60%N \/ head r = Some 62%N \/ (62%N : char) ∉ r
  | [] => True
  end ->
  rmatch false (pat_re re_anyTag) Some (MState prev rest pos ∅) = None.
Proof.
  unfold re_anyTag, plus. cbn [pat_re].
  change (lit "<") with (Seq (chr 60%N) Eps). unfold chr. cbn [rmatch ms_rest].
  destruct rest as [|c r]; [done|]. rewrite cls_mem_chr.
  destruct (N.eqb_spec 60 c) as [<- | Hc]; [|done].
  cbn [advance ms_rest]. intros [? | H]; [done|].
  destruct r as [|d r]; [done|]. rewrite cls_mem_notGt.
  destruct (N.eqb_spec 62 d) as [<- | Hd]; [done|]. simpl negb. cbv iota.
  destruct H as [[= ->] | Hn]; [done|].
  apply not_elem_of_cons in Hn as [_ Hn].
  by apply star_no_gt.
Qed.

(** Where a tag opens. *)
Lemma open_found prev d (r : str) pos :
  d <> 62%N -> (62%N : char) ∈ r ->
  rmatch false (pat_re re_anyTag) Some (MState prev (60%N :: d :: r) pos ∅)
  <> None.
Proof.
  intros Hd Hin. unfold re_anyTag, plus. cbn [pat_re].
  change (lit "<") with (Seq (chr 60%N) Eps). unfold chr. cbn [rmatch ms_rest].
  rewrite cls_mem_chr, N.eqb_refl. cbn [advance ms_rest].
  rewrite cls_mem_notGt. destruct (N.eqb_spec 62 d) as [<- | _]; [done|].
  simpl negb. cbv iota. cbn [advance ms_rest].
  apply list_elem_of_split_l in Hin as (w & rest & -> & Hw).
  apply star_greedy_accepts; [| |done].
  - apply Forall_forall. intros c Hc. rewrite cls_mem_notGt.
    destruct (N.eqb_spec 62 c) as [<- | _]; done.
  - intros x Hx. change (lit ">") with (Seq (chr 62%N) Eps).
    unfold chr. cbn [rmatch]. rewrite Hx, cls_mem_chr, N.eqb_refl. done.
Qed.

Lemma open_first prev (rest : str) pos y :
  rmatch false (pat_re re_anyTag) Some (MState prev rest pos ∅) = Some y ->
  exists r, rest = 60%N :: r.
Proof.
  intros H. destruct rest as [|c r].
  - by rewrite open_fails in H.
  - destruct (decide (c = 60%N)) as [-> | Hc]; [by exists r|].
    rewrite open_fails in H; [done | by left].
Qed.

Lemma search_anyTag_step prev (rest : str) pos :
  search re_anyTag prev rest pos
  = match rmatch false (pat_re re_anyTag) Some (MState prev rest pos ∅) with
    | Some y => Some (MRes pos (ms_pos y) (ms_caps y))
    | None =>
        match rest with
        | [] => None
        | c :: rest' => search re_anyTag (Some c) rest' (S pos)
        end
    end.
Proof. by destruct rest. Qed.

Lemma tagFree_no_match (l : str) : forall prev pos,
  tagFree l = true -> search re_anyTag prev l pos = None.
Proof.
  induction l as [|c r IH]; intros prev pos H; rewrite search_anyTag_step.
  - by rewrite open_fails.
  - apply tagFree_cons in H as [Hc H].
    rewrite open_fails; [by apply IH|].
    destruct (decide (c = 60%N)) as [-> | ?]; [right; by apply Hc | by left].
Qed.

Lemma open_fails_inv prev (r : str) pos :
  rmatch false (pat_re re_anyTag) Some (MState prev (60%N :: r) pos ∅) = None ->
  head r = Some 62%N \/ (62%N : char) ∉ r.
Proof.
  intros H. destruct r as [|d r]; [right; apply not_elem_of_nil|].
  destruct (decide (d = 62%N)) as [-> | Hd]; [by left|].
  right. intros [? | Hin]%elem_of_cons; [done|].
  by apply (open_found prev d r pos Hd Hin).
Qed.

Lemma search_None_tagFree (l : str) : forall prev pos,
  search re_anyTag prev l pos = None -> tagFree l = true.
Proof.
  induction l as [|c r IH]; intros prev pos H; [done|].
  rewrite search_anyTag_step in H.
  destruct (rmatch _ _ _ _) eqn:Hm; [done|].
  apply tagFree_cons. split; [|by eapply IH].
  intros ->. by eapply open_fails_inv.
Qed.

Lemma search_Some_gt (l : str) prev pos m :
  search re_anyTag prev l pos = Some m -> (62%N : char) ∈ l.
Proof.
  intros H. destruct (decide ((62%N : char) ∈ l)) as [|Hn]; [done|].
  by rewrite tagFree_no_match in H by by apply no_gt_tagFree.
Qed.

(** The text a scan skips before a tag. *)
Lemma search_anyTag_pre : forall (rest : str) prev pos m,
  search re_anyTag prev rest pos = Some m ->
  exists pre rest1,
    rest = pre ++ 60%N :: rest1
    /\ m_start m = pos + length pre
    /\ paired pre = true.
Proof.
  induction rest as [|c rest IH]; intros prev pos m H;
    rewrite search_anyTag_step in H.
  - by rewrite open_fails in H.
  - destruct (rmatch _ _ _ _) as [y|] eqn:Hm.
    + injection H as <-. apply open_first in Hm as [r Hr].
      exists [], r. simpl. split_and!; [done | lia | done].
    + pose proof (search_Some_gt _ _ _ _ H) as Hgt.
      apply IH in H as (pre & rest1 & -> & Hs & Hp).
      exists (c :: pre), rest1. simpl. split_and!; [done | lia|].
      apply paired_cons. split; [|done]. intros ->.
      apply open_fails_inv in Hm as [Hh | Hn]; [|done].
      by destruct pre.
Qed.

Lemma exec_anyTag_pre (s : str) from m :
  exec re_anyTag s from = Some m ->
  paired (slice from (m_start m) s) = true.
Proof.
  unfold exec. destruct (decide _) as [Hle|]; [|done]. intros H.
  apply search_anyTag_pre in H as (pre & rest1 & Hd & Hs & Hp).
  unfold slice. rewrite Hd, Hs.
  replace (from + length pre - from) with (length pre) by lia.
  by rewrite take_app_length.
Qed.

Lemma elem_of_slice (c : char) a b (s : str) :
  c ∈ slice a b s -> c ∈ drop a s.
Proof. unfold slice. apply in_take. Qed.

Lemma elem_of_drop_le (c : char) a b (s : str) :
  a <= b -> c ∈ drop b s -> c ∈ drop a s.
Proof.
  intros Hle. replace b with (a + (b - a)) by lia.
  rewrite <- drop_drop. apply in_drop.
Qed.

(** What is left when every tag is removed. *)
Lemma strip_tags_from (u : str) : forall fuel from,
  from <= length u -> length u + 1 <= from + fuel ->
  tagFree (splice u from
             (map (fun m => (m, substFor u m []))
                (matches_from fuel re_anyTag u from))) = true.
Proof.
  induction fuel as [|n IH]; intros from Hle Hfuel; [lia|].
  cbn [matches_from].
  destruct (exec re_anyTag u from) as [m|] eqn:He.
  - pose proof (exec_bounds _ _ _ _ He) as (H1 & H2 & H3).
    pose proof (exec_nonempty re_anyTag _ _ _ eq_refl He) as H4.
    destruct (decide (m_end m = m_start m)) as [?|_]; [lia|].
    cbn [map splice]. change (substFor u m []) with (@nil char). simpl.
    apply paired_app_tagFree; [by eapply exec_anyTag_pre|].
    apply IH; lia.
  - cbn [map splice]. unfold exec in He.
    destruct (decide _) as [_|?]; [|lia]. by eapply search_None_tagFree.
Qed.

(** A global replace of pieces without angle brackets by a text without
    angle brackets keeps a text free of tags. *)
Lemma replace_keeps_tagFree p (u y : str) :
  consuming (pat_re p) = true ->
  (forall from m, exec p u from = Some m -> angleFree (mtext u m)) ->
  angleFree y ->
  forall fuel from,
    from <= length u ->
    tagFree (drop from u) = true ->
    let out := splice u from (map (fun m => (m, y)) (matches_from fuel p u from)) in
    tagFree out = true /\ ((62%N : char) ∈ out -> (62%N : char) ∈ drop from u).
Proof.
  intros Hcons Hm Hy. induction fuel as [|n IH]; intros from Hle Hu; cbv zeta.
  { by simpl. }
  cbn [matches_from].
  destruct (exec p u from) as [m|] eqn:He; [|by simpl].
  pose proof (exec_bounds _ _ _ _ He) as (H1 & H2 & H3).
  pose proof (exec_nonempty _ _ _ _ Hcons He) as H4.
  destruct (decide (m_end m = m_start m)) as [?|_]; [lia|].
  cbn [map splice].
  assert (Hsplit : drop from u
                   = slice from (m_start m) u ++ mtext u m ++ drop (m_end m) u).
  { unfold mtext. rewrite app_assoc, slice_app by lia.
    unfold slice. replace (drop (m_end m) u)
      with (drop (m_end m - from) (drop from u))
      by (rewrite drop_drop; f_equal; lia).
    by rewrite take_drop. }
  destruct (IH (m_end m)) as [IH1 IH2]; [lia | |].
  { replace (m_end m) with (from + (m_end m - from)) by lia.
    rewrite <- drop_drop. by apply tagFree_drop. }
  split.
  - apply (tagFree_replace_piece _ (mtext u m) _ (drop (m_end m) u)); try done.
    + by rewrite <- Hsplit.
    + intros Hnil. apply (f_equal length) in Hnil. unfold mtext, slice in Hnil.
      rewrite length_take, length_drop in Hnil. simpl in Hnil. lia.
    + by eapply Hm.
  - rewrite Hsplit, !elem_of_app. destruct Hy as [_ Hy2].
    intros [? | [? | ?]]; [by left | done | right; right; by apply IH2].
Qed.

(** The pieces [&nbsp;] and the runs of white space have no angle bracket. *)
Lemma rmatch_litS_text ic w : forall cont x y,
  rmatch ic (litS w) cont x = Some y ->
  exists w' x',
    cont x' = Some y
    /\ ms_rest x = w' ++ ms_rest x'
    /\ ms_pos x' = ms_pos x + length w'
    /\ Forall2 (fun a c => item_mem ic c (IChr a) = true) w w'.
Proof.
  induction w as [|a w IH]; intros cont x y H.
  - exists [], x. simpl. split_and!; [done | done | lia | constructor].
  - change (litS (a :: w)) with (Seq (chr a) (litS w)) in H.
    unfold chr in H. cbn [rmatch] in H.
    destruct (ms_rest x) as [|c r] eqn:Hx; [done|].
    destruct (cls_mem ic (Cls false [IChr a]) c) eqn:Hc; [|done].
    apply IH in H as (w' & x' & Hk & Hr & Hp & Hw).
    cbn [advance ms_rest ms_pos] in Hr, Hp.
    exists (c :: w'), x'. rewrite Hr. cbn [length app].
    split_and!; [done | done | lia|]. constructor; [|done].
    unfold cls_mem in Hc. cbn [cls_neg cls_items existsb xorb] in Hc.
    by rewrite orb_false_r in Hc.
Qed.

Lemma litS_angleFree (w w' : str) :
  Forall2 (fun a c => item_mem true c (IChr a) = true) w w' ->
  Forall (fun a => (canon a =? 60)%N = false /\ (canon a =? 62)%N = false) w ->
  Forall (fun c => c <> 60%N /\ c <> 62%N) w'.
Proof.
  induction 1 as [|a c w w' Hac _ IH]; intros Hall; [constructor|].
  apply Forall_cons in Hall as [[H1 H2] Hall].
  constructor; [|by apply IH]. simpl in Hac. apply N.eqb_eq in Hac.
  split; intros ->; rewrite Hac in *; by vm_compute in H1, H2.
Qed.

Lemma nbsp_angleFree (u : str) from m :
  exec re_nbsp u from = Some m -> angleFree (mtext u m).
Proof.
  intros He. apply exec_at in He as (prev1 & y & Hm & Hend & _).
  unfold re_nbsp in Hm. cbn [pat_icase pat_re] in Hm.
  change (lit "&nbsp;") with (litS (s16 "&nbsp;")) in Hm.
  apply rmatch_litS_text in Hm as (w' & x' & [= <-] & Hr & Hp & Hw).
  cbn [ms_rest ms_pos] in Hr, Hp.
  assert (Ht : mtext u m = w').
  { unfold mtext, slice. rewrite Hend, Hp, Hr.
    replace (m_start m + length w' - m_start m) with (length w') by lia.
    by rewrite take_app_length. }
  rewrite Ht. clear -Hw.
  assert (Hall : Forall (fun c => c <> 60%N /\ c <> 62%N) w').
  { eapply litS_angleFree; [exact Hw|]. by repeat constructor. }
  split; intros Hin; by destruct (proj1 (Forall_forall _ _) Hall _ Hin).
Qed.

Lemma spaces_angleFree (u : str) from m :
  exec re_spaces u from = Some m -> angleFree (mtext u m).
Proof.
  unfold exec. destruct (decide _) as [Hle|]; [|done]. intros H.
  pose proof (search_spaces (drop from u) (last (take from u)) from) as Hs.
  rewrite H in Hs.
  destruct Hs as (pre & run & rest' & Hd & _ & _ & Hsp & _ & Hst & Hen).
  assert (Ht : mtext u m = run).
  { unfold mtext, slice. rewrite Hen, Hst.
    replace (drop (from + length pre) u) with (drop (length pre) (drop from u))
      by (rewrite drop_drop; f_equal; lia).
    rewrite Hd, drop_app_length.
    replace (from + length pre + length run - (from + length pre))
      with (length run) by lia.
    by rewrite take_app_length. }
  rewrite Ht.
  split; intros Hin; by apply (proj1 (Forall_forall _ _) Hsp) in Hin.
Qed.

Lemma replaceAllStr_space_tagFree p (u : str) :
  consuming (pat_re p) = true ->
  (forall from m, exec p u from = Some m -> angleFree (mtext u m)) ->
  tagFree u = true -> tagFree (replaceAllStr p (s16 " ") u) = true.
Proof.
  intros Hc Hm Hu. unfold replaceAllStr, replaceAllFn, matches.
  assert (Hy : angleFree [32%N : char]).
  { split; intros [?|?%elem_of_nil]%elem_of_cons; done. }
  destruct (replace_keeps_tagFree p u [32%N] Hc Hm Hy (S (length u)) 0)
    as [H _]; [lia | by rewrite drop_0 | exact H].
Qed.

(** X20.  No tag is left in the text [stripTags] returns: the pattern
    [<[^>]+>] that it removes does not match its result. *)
Theorem stripTags_leaves_no_tag (html : str) :
  test re_anyTag (stripTags html) = false.
Proof.
  assert (H : tagFree (stripTags html) = true).
  { unfold stripTags.
    destruct (trim_piece (replaceAllStr re_spaces (s16 " ")
      (replaceAllStr re_nbsp (s16 " ")
        (replaceAllStr re_anyTag []
          (replaceAllStr re_styleElem []
            (replaceAllStr re_script []
              (replaceAllStr re_comment [] html))))))) as (j & k & ->).
    apply tagFree_take, tagFree_drop.
    apply replaceAllStr_space_tagFree; [done | apply spaces_angleFree|].
    apply replaceAllStr_space_tagFree; [done | apply nbsp_angleFree|].
    unfold replaceAllStr at 1, replaceAllFn, matches.
    apply strip_tags_from; lia. }
  unfold test, exec. destruct (decide _) as [_|?]; [|done].
  rewrite tagFree_no_match; [|by rewrite drop_0].
  apply bool_decide_eq_false. by intros [? ?].
Qed.
